(** * wave_sim.c: the explicit 2D wave-equation kernel

    A shallow embedding of [wave_sim.c] and the properties of its time
    marching loop: the five-point interior stencil, the source node, the
    radiating edges, the averaged corners and the swap of the three grid
    references.

    The C program computes on [double].  The kernel is embedded over an
    abstract scalar interface ([Scalar]) providing exactly the operations
    the source uses, so that every structural property below holds for any
    interpretation of those operations, IEEE-754 binary64 included.  The
    properties about fields that are zero need a few facts of the
    arithmetic (zeros pass through sums, and through products with finite
    factors); they are proved for every arithmetic with these facts
    ([ZeroArith]), which binary64 has and which the reals have.  Array
    accesses outside the allocation are undefined in C: a checked reading
    of the program shows where none occurs.  The reals serve worked
    instances and the exact values of counterexamples; the kernel itself
    runs on binary64 in the last sections. *)

From Stdlib Require Import ZArith Reals Lra Lia.
From Stdlib Require Floats.
From stdpp Require Import base option list gmap strings.

#[local] Set Warnings "-clear-no-such-hyp,-inexact-float".

(** ** Scalars: the operations of [double] the program uses *)

Class Scalar := {
  double : Type;
  f0 : double;                         (* the literal 0.0 *)
  f1 : double;                         (* the literal 1.0 *)
  fhalf : double;                      (* the literal 0.5 *)
  M_PI : double;                       (* M_PI of math.h *)
  of_int : Z → double;                 (* conversion of an int operand *)
  fadd : double → double → double;
  fsub : double → double → double;
  fmul : double → double → double;
  fdiv : double → double → double;
  fneg : double → double;
  fsqrt : double → double;             (* sqrt(x) *)
  fexp : double → double;              (* exp(x) *)
  fsin : double → double;              (* sin(x) *)
  fpow2 : double → double;             (* pow(x, 2.0) *)
  indeterminate : double               (* what a cell holds after malloc *)
}.

Declare Scope double_scope.
Delimit Scope double_scope with D.
Bind Scope double_scope with double.
Infix "+" := fadd : double_scope.
Infix "-" := fsub : double_scope.
Infix "*" := fmul : double_scope.
Infix "/" := fdiv : double_scope.
Notation "- x" := (fneg x) : double_scope.

(** ** Control: the counted loop [for (k = lo; k < hi; k++) body] *)

Definition for_loop {S : Type} (lo hi : nat) (body : nat → S → S) (s : S) : S :=
  fold_left (λ acc k, body k acc) (seq lo (hi - lo)) s.

(** ** Data: grids, and the heap the three grid pointers refer to *)

(** A [double**] of [rows] rows of [cols] cells each; an address; the
    heap, from the addresses of the allocated grids to their contents. *)
Abbreviation grid := (list (list double)) (only parsing).
Abbreviation addr := nat (only parsing).
Abbreviation heap := (gmap nat (list (list double))) (only parsing).

Section Kernel.
Context `{Sc : Scalar}.

(** [array[i][j]] as an r-value.  An index outside the allocation is
    undefined behaviour in C; the model reads [f0] there.  With [Nx] and
    [Ny] of at least 2 and the source node on the grid, [main] never reads
    or writes outside the allocation ([main_checked]), and this convention
    is not exercised. *)
Definition get (g : grid) (i j : nat) : double :=
  match g !! i with
  | Some row => default f0 (row !! j)
  | None => f0
  end.

(** [array[i][j] = v].  Outside the allocation the model leaves the grid
    unchanged. *)
Definition set (g : grid) (i j : nat) (v : double) : grid :=
  alter (λ row, <[j := v]> row) i g.

Definition shaped (rows cols : nat) (g : grid) : Prop :=
  length g = rows ∧ ∀ i row, g !! i = Some row → length row = cols.

Definition load (h : heap) (p : addr) (i j : nat) : double :=
  match h !! p with
  | Some g => get g i j
  | None => f0
  end.

Definition store (h : heap) (p : addr) (i j : nat) (v : double) : heap :=
  alter (λ g, set g i j v) p h.

(** [allocate2DArray]: a fresh block of [rows] x [cols] cells whose
    contents are indeterminate. *)
Definition allocate2DArray (rows cols : nat) (h : heap) : addr * heap :=
  let array := fresh (dom h) in
  (array, <[array := replicate rows (replicate cols indeterminate)]> h).

(** [free2DArray] *)
Definition free2DArray (array : addr) (rows : nat) (h : heap) : heap :=
  delete array h.

(** [initializeArray] *)
Definition initializeArray (array : addr) (rows cols : nat) (h : heap) : heap :=
  for_loop 0 rows (λ i h,
    for_loop 0 cols (λ j h, store h array i j f0) h) h.

(** ** Configuration: the macros of the source

    The macros are compile-time constants; they are gathered in a record so
    that the kernel can be studied for any values of them.  [Nx] and [Ny],
    which the source derives from the lengths [Lx], [Ly] and the spacings,
    are fields of their own.  Indices and sizes are [int] in the source and
    [nat] here: the two agree as long as no index is negative, that is for
    [Nx], [Ny] of at least 2. *)

Record Config := {
  dx : double;          (* grid size in x direction *)
  dy : double;          (* grid size in y direction *)
  Nx : nat;             (* number of nodes in x direction *)
  Ny : nat;             (* number of nodes in y direction *)
  n_stop : nat;         (* number of time steps *)
  l : double;           (* wavelength *)
  w : double;           (* width of the pulse *)
  T0 : double;          (* initial time *)
  c : Z;                (* speed of light, an int constant *)
  xs1 : nat;            (* source location *)
  ys1 : nat;
  amplitude : double    (* the leading factor of the source term *)
}.

Section Step.
Variable cfg : Config.

Local Open Scope double_scope.

(** [#define dt (1.0 / (c * sqrt((1.0 / (dx * dx)) + (1.0 / (dy * dy)))))] *)
Definition dt : double :=
  f1 / (of_int (c cfg) * fsqrt ((f1 / (dx cfg * dx cfg)) + (f1 / (dy cfg * dy cfg)))).

(** Courant numbers [Ox], [Oy] *)
Definition Ox : double := (of_int (c cfg) * dt) / dx cfg.
Definition Oy : double := (of_int (c cfg) * dt) / dy cfg.

(** The coefficients the stencil multiplies by: [Ox * Ox] and [Oy * Oy]. *)
Definition theta_x : double := Ox * Ox.
Definition theta_y : double := Oy * Oy.

(** The coefficient written inline in the left/right and top/bottom loops. *)
Definition Rx : double :=
  (of_int (c cfg) * dt - dx cfg) / (of_int (c cfg) * dt + dx cfg).
Definition Ry : double :=
  (of_int (c cfg) * dt - dy cfg) / (of_int (c cfg) * dt + dy cfg).

(** The right-hand side of the interior assignment at [ii], [jj]. *)
Definition stencil (h : heap) (Un0 Un_m1 : addr) (ii jj : nat) : double :=
  of_int 2 * load h Un0 ii jj
  + Ox * Ox * (load h Un0 (ii + 1) jj - of_int 2 * load h Un0 ii jj
               + load h Un0 (ii - 1) jj)
  + Oy * Oy * (load h Un0 ii (jj + 1) - of_int 2 * load h Un0 ii jj
               + load h Un0 ii (jj - 1))
  - load h Un_m1 ii jj.

(** "Compute the general wave equation solution" *)
Definition interior_nodes (Un_p1 Un0 Un_m1 : addr) (h : heap) : heap :=
  for_loop 1 (Ny cfg - 1) (λ jj h,
    for_loop 1 (Nx cfg - 1) (λ ii h,
      store h Un_p1 ii jj (stencil h Un0 Un_m1 ii jj)) h) h.

(** The value assigned to the source node at time step [n]. *)
Definition source_value (n : nat) : double :=
  amplitude cfg
  * fexp (- fpow2 ((of_int (Z.of_nat n) * dt - T0 cfg) / (w cfg / of_int 2)))
  * fsin (((of_int 2 * M_PI * of_int (c cfg)) / l cfg) * (of_int (Z.of_nat n) * dt)).

(** "Source nodes" *)
Definition source_node (n : nat) (Un_p1 : addr) (h : heap) : heap :=
  store h Un_p1 (xs1 cfg) (ys1 cfg) (source_value n).

(** "Left nodes" *)
Definition left_nodes (Un_p1 Un0 : addr) (h : heap) : heap :=
  let ii := 0%nat in
  for_loop 1 (Ny cfg - 1) (λ jj h,
    store h Un_p1 ii jj
      (load h Un0 (ii + 1) jj
       + (((of_int (c cfg) * dt - dx cfg) / (of_int (c cfg) * dt + dx cfg))
          * (load h Un_p1 (ii + 1) jj - load h Un0 ii jj)))) h.

(** "Right nodes" *)
Definition right_nodes (Un_p1 Un0 : addr) (h : heap) : heap :=
  let ii := (Nx cfg - 1)%nat in
  for_loop 1 (Ny cfg - 1) (λ jj h,
    store h Un_p1 ii jj
      (load h Un0 (ii - 1) jj
       + (((of_int (c cfg) * dt - dx cfg) / (of_int (c cfg) * dt + dx cfg))
          * (load h Un_p1 (ii - 1) jj - load h Un0 ii jj)))) h.

(** "Top nodes" *)
Definition top_nodes (Un_p1 Un0 : addr) (h : heap) : heap :=
  let jj := (Ny cfg - 1)%nat in
  for_loop 1 (Nx cfg - 1) (λ ii h,
    store h Un_p1 ii jj
      (load h Un0 ii (jj - 1)
       + (((of_int (c cfg) * dt - dy cfg) / (of_int (c cfg) * dt + dy cfg))
          * (load h Un_p1 ii (jj - 1) - load h Un0 ii jj)))) h.

(** "Bottom nodes" *)
Definition bottom_nodes (Un_p1 Un0 : addr) (h : heap) : heap :=
  let jj := 0%nat in
  for_loop 1 (Nx cfg - 1) (λ ii h,
    store h Un_p1 ii jj
      (load h Un0 ii (jj + 1)
       + (((of_int (c cfg) * dt - dy cfg) / (of_int (c cfg) * dt + dy cfg))
          * (load h Un_p1 ii (jj + 1) - load h Un0 ii jj)))) h.

(** The four edge loops, in the order of the source. *)
Definition edge_nodes (Un_p1 Un0 : addr) (h : heap) : heap :=
  bottom_nodes Un_p1 Un0 (top_nodes Un_p1 Un0
    (right_nodes Un_p1 Un0 (left_nodes Un_p1 Un0 h))).

(** "Simply average the corner values": four assignments in sequence. *)
Definition corner_nodes (Un_p1 : addr) (h : heap) : heap :=
  let h := store h Un_p1 0 0
             (fhalf * (load h Un_p1 1 0 + load h Un_p1 0 1)) in
  let h := store h Un_p1 (Nx cfg - 1) 0
             (fhalf * (load h Un_p1 (Nx cfg - 2) 0 + load h Un_p1 (Nx cfg - 1) 1)) in
  let h := store h Un_p1 (Nx cfg - 1) (Ny cfg - 1)
             (fhalf * (load h Un_p1 (Nx cfg - 2) (Ny cfg - 1)
                       + load h Un_p1 (Nx cfg - 1) (Ny cfg - 2))) in
  store h Un_p1 0 (Ny cfg - 1)
    (fhalf * (load h Un_p1 0 (Ny cfg - 2) + load h Un_p1 1 (Ny cfg - 1))).

(** ** The state of [main] *)

(** The heap, the three pointer variables, and what has been handed to
    [printWave] so far (one frame per call, oldest first). *)
Record state := {
  mem : heap;
  Un_p1 : addr;
  Un0 : addr;
  Un_m1 : addr;
  frames : list grid
}.

Definition with_mem (st : state) (h : heap) : state :=
  {| mem := h; Un_p1 := Un_p1 st; Un0 := Un0 st; Un_m1 := Un_m1 st;
     frames := frames st |}.

(** The passes of one iteration, as steps on the state. *)
Definition after_interior (st : state) : state :=
  with_mem st (interior_nodes (Un_p1 st) (Un0 st) (Un_m1 st) (mem st)).

Definition after_source (n : nat) (st : state) : state :=
  let st := after_interior st in
  with_mem st (source_node n (Un_p1 st) (mem st)).

Definition after_edges (n : nat) (st : state) : state :=
  let st := after_source n st in
  with_mem st (edge_nodes (Un_p1 st) (Un0 st) (mem st)).

Definition after_corners (n : nat) (st : state) : state :=
  let st := after_edges n st in
  with_mem st (corner_nodes (Un_p1 st) (mem st)).

(** [printWave(Un_p1, Nx, Ny)]: the grid is rendered to the terminal; the
    model records the grid that was rendered and leaves the rest alone. *)
Definition printWave (array : addr) (rows cols : nat) (st : state) : state :=
  {| mem := mem st; Un_p1 := Un_p1 st; Un0 := Un0 st; Un_m1 := Un_m1 st;
     frames := frames st ++ [default [] (mem st !! array)] |}.

(** "Swap references" *)
Definition swap_references (st : state) : state :=
  let temp := Un_m1 st in
  {| mem := mem st; Un_m1 := Un0 st; Un0 := Un_p1 st; Un_p1 := temp;
     frames := frames st |}.

(** The body of the time marching loop at step [n]. *)
Definition loop_body (n : nat) (st : state) : state :=
  let st := after_corners n st in
  let st := printWave (Un_p1 st) (Nx cfg) (Ny cfg) st in
  swap_references st.

(** [main] up to the loop: three allocations, three initialisations. *)
Definition startup : state :=
  let '(p1, h) := allocate2DArray (Nx cfg) (Ny cfg) ∅ in
  let '(p0, h) := allocate2DArray (Nx cfg) (Ny cfg) h in
  let '(m1, h) := allocate2DArray (Nx cfg) (Ny cfg) h in
  let h := initializeArray p1 (Nx cfg) (Ny cfg) h in
  let h := initializeArray p0 (Nx cfg) (Ny cfg) h in
  let h := initializeArray m1 (Nx cfg) (Ny cfg) h in
  {| mem := h; Un_p1 := p1; Un0 := p0; Un_m1 := m1; frames := [] |}.

(** The state when [k] iterations of the loop have completed, that is at
    the start of the iteration with [n = k]. *)
Definition run (k : nat) : state := for_loop 0 k loop_body startup.

(** [main]: the loop runs [n_stop] times, the grids are freed, and 0 is
    returned; the result is the exit status, the frames printed and the
    heap left behind. *)
Definition main : Z * list grid * heap :=
  let st := run (n_stop cfg) in
  let h := free2DArray (Un_p1 st) (Nx cfg) (mem st) in
  let h := free2DArray (Un0 st) (Nx cfg) h in
  let h := free2DArray (Un_m1 st) (Nx cfg) h in
  (0%Z, frames st, h).

End Step.
End Kernel.

(** * Reasoning about the embedding *)

(** ** Counted loops *)

Lemma for_loop_empty {S : Type} (lo hi : nat) (body : nat → S → S) (s : S) :
  hi ≤ lo → for_loop lo hi body s = s.
Proof.
  intros Hle. unfold for_loop.
  replace (hi - lo) with 0 by lia. reflexivity.
Qed.

Lemma for_loop_snoc {S : Type} (lo hi : nat) (body : nat → S → S) (s : S) :
  lo ≤ hi → for_loop lo (Datatypes.S hi) body s = body hi (for_loop lo hi body s).
Proof.
  intros Hle. unfold for_loop.
  replace (Datatypes.S hi - lo) with (Datatypes.S (hi - lo)) by lia.
  rewrite seq_S, fold_left_app. simpl.
  replace (lo + (hi - lo)) with hi by lia. reflexivity.
Qed.

(** The invariant rule: [Inv k] holds on entry to the iteration with index
    [k], and on exit from the loop with [k = hi]. *)
Lemma for_loop_invariant {S : Type} (Inv : nat → S → Prop)
    (lo hi : nat) (body : nat → S → S) (s : S) :
  lo ≤ hi →
  Inv lo s →
  (∀ k t, lo ≤ k < hi → Inv k t → Inv (Datatypes.S k) (body k t)) →
  Inv hi (for_loop lo hi body s).
Proof.
  intros Hle H0 Hstep.
  induction hi as [|hi IH].
  - replace lo with 0 in * by lia. exact H0.
  - destruct (decide (lo = Datatypes.S hi)) as [->|Hne].
    + rewrite for_loop_empty by lia. exact H0.
    + rewrite for_loop_snoc by lia.
      apply Hstep; [lia|]. apply IH; [lia|].
      intros k t Hk. apply Hstep. lia.
Qed.

Section Memory.
Context `{Sc : Scalar}.
Implicit Types (g : grid) (h : heap) (p q : nat) (i j : nat) (v : double).

(** ** Grids *)

Lemma set_shaped rows cols g i j v :
  shaped rows cols g → shaped rows cols (set g i j v).
Proof.
  intros [Hlen Hrow]. split.
  - unfold set. by rewrite length_alter.
  - intros i' row. unfold set. rewrite list_lookup_alter.
    case_decide as Hi.
    + subst i'. destruct (g !! i) as [r|] eqn:Hg; simpl; [|done].
      intros [= <-]. rewrite length_insert. eauto.
    + eauto.
Qed.

Lemma get_set_eq rows cols g i j v :
  shaped rows cols g → i < rows → j < cols → get (set g i j v) i j = v.
Proof.
  intros [Hlen Hrow] Hi Hj. unfold get, set.
  rewrite list_lookup_alter_eq.
  destruct (g !! i) as [r|] eqn:Hg; simpl.
  - rewrite list_lookup_insert_eq; [done|]. rewrite (Hrow i r Hg). lia.
  - apply lookup_ge_None in Hg. lia.
Qed.

Lemma get_set_ne g i j i' j' v :
  (i', j') ≠ (i, j) → get (set g i j v) i' j' = get g i' j'.
Proof.
  intros Hne. unfold get, set. rewrite list_lookup_alter.
  case_decide as Hi; [|done]. subst i'.
  destruct (g !! i) as [r|]; simpl; [|done].
  rewrite list_lookup_insert_ne; [done|]. congruence.
Qed.

Lemma get_outside rows cols g i j :
  shaped rows cols g → ¬ (i < rows ∧ j < cols) → get g i j = f0.
Proof.
  intros [Hlen Hrow] Hout. unfold get.
  destruct (g !! i) as [r|] eqn:Hg; [|done].
  apply lookup_lt_Some in Hg as Hi.
  destruct (r !! j) as [x|] eqn:Hr; [|done].
  apply lookup_lt_Some in Hr. rewrite (Hrow i r Hg) in Hr. lia.
Qed.

(** ** Loads and stores *)

Lemma store_lookup_ne h p q i j v :
  q ≠ p → store h p i j v !! q = h !! q.
Proof. intros Hne. unfold store. by rewrite lookup_alter_ne. Qed.

Lemma store_lookup_eq h p g i j v :
  h !! p = Some g → store h p i j v !! p = Some (set g i j v).
Proof. intros Hp. unfold store. by rewrite lookup_alter_eq, Hp. Qed.

Lemma store_dom h p i j v : dom (store h p i j v) = dom h.
Proof. unfold store. apply dom_alter_L. Qed.

Lemma load_lookup h h' p i j :
  h' !! p = h !! p → load h' p i j = load h p i j.
Proof. intros Heq. unfold load. by rewrite Heq. Qed.

(** A store either lands on the cell that is read, or is not seen. *)
Lemma load_store_cases h p q i j i' j' v :
  load (store h p i j v) q i' j' = v ∨
  load (store h p i j v) q i' j' = load h q i' j'.
Proof.
  unfold load, store. rewrite lookup_alter. case_decide as Hq; [|by right].
  subst q. destruct (h !! p) as [g|]; simpl; [|by right].
  destruct (decide ((i', j') = (i, j))) as [[= -> ->]|Hne].
  - unfold get, set. rewrite list_lookup_alter_eq.
    destruct (g !! i) as [r|]; simpl; [|by right].
    destruct (decide (j < length r)).
    + left. by rewrite list_lookup_insert_eq.
    + right. by rewrite list_insert_ge by lia.
  - right. by apply get_set_ne.
Qed.

End Memory.

(** ** What a pass writes

    Every pass of the loop body assigns cells of one grid.  [writes W val f]
    says that the heap transformer [f], run on a heap where the grid at [p]
    is allocated with the shape [rows] x [cols], assigns exactly the cells
    in [W] of that grid, the cell [(i, j)] receiving [val h i j] for the
    heap [h] it started from, and changes nothing else. *)

Section Writes.
Context `{Sc : Scalar}.
Variables (rows cols : nat) (p : nat).
Implicit Types (h : heap) (W : nat → nat → Prop) (f : heap → heap)
  (val : heap → nat → nat → double).

Definition allocated h : Prop :=
  ∃ g, h !! p = Some g ∧ shaped rows cols g.

Definition agree_off W h1 h2 : Prop :=
  (∀ q, q ≠ p → h1 !! q = h2 !! q) ∧
  (∀ i j, ¬ W i j → load h1 p i j = load h2 p i j).

Definition writes W val f : Prop :=
  ∀ h, allocated h →
    allocated (f h) ∧
    dom (f h) = dom h ∧
    (∀ q, q ≠ p → f h !! q = h !! q) ∧
    (∀ i j, W i j → load (f h) p i j = val h i j) ∧
    (∀ i j, ¬ W i j → load (f h) p i j = load h p i j).

(** [val] reads the heap only outside the cells in [W] of the grid at [p]. *)
Definition stable W val : Prop :=
  ∀ h1 h2 i j, W i j → agree_off W h1 h2 → val h1 i j = val h2 i j.

Lemma load_outside h i j :
  allocated h → ¬ (i < rows ∧ j < cols) → load h p i j = f0.
Proof.
  intros (g & Hp & Hg) Hout. unfold load. rewrite Hp.
  by eapply get_outside.
Qed.

Lemma writes_store i j (v : heap → double) :
  i < rows → j < cols →
  writes (λ i' j', i' = i ∧ j' = j) (λ h _ _, v h) (λ h, store h p i j (v h)).
Proof.
  intros Hi Hj h (g & Hp & Hg). split_and!.
  - exists (set g i j (v h)). split; [by apply store_lookup_eq|by apply set_shaped].
  - apply store_dom.
  - intros q Hq. by apply store_lookup_ne.
  - intros i' j' [-> ->]. unfold load.
    rewrite (store_lookup_eq _ _ g) by done. by eapply get_set_eq.
  - intros i' j' Hne. unfold load.
    rewrite (store_lookup_eq _ _ g), Hp by done.
    apply get_set_ne. intros [= -> ->]. by apply Hne.
Qed.

Lemma writes_ext W val val' f :
  (∀ h i j, W i j → val h i j = val' h i j) →
  writes W val f → writes W val' f.
Proof.
  intros Hext Hf h Hh. destruct (Hf h Hh) as (? & ? & ? & Hin & ?).
  split_and!; try done. intros i j Hw. rewrite <- Hext by done. by apply Hin.
Qed.

Lemma writes_iff W W' val f :
  (∀ i j, W i j ↔ W' i j) → writes W val f → writes W' val f.
Proof.
  intros Hiff Hf h Hh. destruct (Hf h Hh) as (? & ? & ? & Hin & Hout).
  split_and!; try done.
  - intros i j Hw. apply Hin. by apply Hiff.
  - intros i j Hw. apply Hout. by rewrite Hiff.
Qed.

(** A loop whose iterations assign pairwise disjoint sets of cells, all by
    the same rule, and never read a cell the loop assigns. *)
Lemma writes_for_loop (Wk : nat → nat → nat → Prop) val lo hi
    (body : nat → heap → heap) :
  (∀ k, lo ≤ k < hi → writes (Wk k) val (body k)) →
  (∀ k k' i j, lo ≤ k < hi → lo ≤ k' < hi → Wk k i j → Wk k' i j → k = k') →
  stable (λ i j, ∃ k, lo ≤ k < hi ∧ Wk k i j) val →
  writes (λ i j, ∃ k, lo ≤ k < hi ∧ Wk k i j) val (for_loop lo hi body).
Proof.
  intros Hbody Hdisj Hstable h0 Hh0.
  destruct (decide (lo ≤ hi)) as [Hle|Hgt]; cycle 1.
  { rewrite for_loop_empty by lia. split_and!; try done.
    intros i j (k & Hk & _). lia. }
  pose (Inv := λ (K : nat) (h : heap),
    allocated h ∧ dom h = dom h0 ∧
    (∀ q, q ≠ p → h !! q = h0 !! q) ∧
    (∀ i j, (∃ k, lo ≤ k < K ∧ Wk k i j) → load h p i j = val h0 i j) ∧
    (∀ i j, ¬ (∃ k, lo ≤ k < K ∧ Wk k i j) → load h p i j = load h0 p i j)).
  assert (Inv hi (for_loop lo hi body h0)) as HI.
  { apply for_loop_invariant; [done| |].
    - unfold Inv. split_and!; try done. intros i j (k & Hk & _). lia.
    - intros K h HK (Hal & Hdom & Hoth & Hin & Hout).
      destruct (Hbody K HK h Hal) as (Hal' & Hdom' & Hoth' & Hin' & Hout').
      unfold Inv. split_and!.
      + done.
      + congruence.
      + intros q Hq. rewrite Hoth' by done. by apply Hoth.
      + intros i j (k & Hk & Hw).
        destruct (decide (k = K)) as [->|Hne].
        * rewrite Hin' by done. apply Hstable; [by exists K|].
          split; [done|]. intros i' j' Hnw. apply Hout.
          intros (k' & Hk' & Hw'). apply Hnw. exists k'. split; [lia|done].
        * rewrite Hout'.
          -- apply Hin. exists k. split; [lia|done].
          -- intros HwK. apply Hne. eapply Hdisj; [| |exact Hw|exact HwK]; lia.
      + intros i j Hnw. rewrite Hout'.
        * apply Hout. intros (k & Hk & Hw). apply Hnw. exists k. split; [lia|done].
        * intros HwK. apply Hnw. exists K. split; [lia|done]. }
  destruct HI as (? & ? & ? & ? & ?). done.
Qed.

(** Two passes in sequence, under the same conditions. *)
Lemma writes_seq W1 W2 val f1' f2' :
  writes W1 val f1' → writes W2 val f2' →
  (∀ i j, W1 i j → W2 i j → False) →
  stable (λ i j, W1 i j ∨ W2 i j) val →
  writes (λ i j, W1 i j ∨ W2 i j) val (λ h, f2' (f1' h)).
Proof.
  intros H1 H2 Hdisj Hstable h Hh.
  destruct (H1 h Hh) as (Hal1 & Hdom1 & Hoth1 & Hin1 & Hout1).
  destruct (H2 _ Hal1) as (Hal2 & Hdom2 & Hoth2 & Hin2 & Hout2).
  split_and!.
  - done.
  - congruence.
  - intros q Hq. rewrite Hoth2 by done. by apply Hoth1.
  - intros i j [Hw|Hw].
    + rewrite Hout2 by (intros Hw2; by eapply Hdisj). by apply Hin1.
    + rewrite Hin2 by done. apply Hstable; [by right|].
      split; [done|]. intros i' j' Hnw. apply Hout1. tauto.
  - intros i j Hnw. rewrite Hout2 by tauto. apply Hout1. tauto.
Qed.

End Writes.

(** ** The passes of the loop body *)

Section Passes.
Context `{Sc : Scalar}.
Variable cfg : Config.
Variables (p1 p0 m1 : nat).
Hypothesis Hp10 : p1 ≠ p0.
Hypothesis Hp1m : p1 ≠ m1.
Implicit Types (h : heap) (i j : nat).

Local Open Scope double_scope.

(** The cells each pass assigns. *)
Definition interior_cell i j : Prop :=
  (1 ≤ i < Nx cfg - 1 ∧ 1 ≤ j < Ny cfg - 1)%nat.
Definition left_cell i j : Prop := (i = 0 ∧ 1 ≤ j < Ny cfg - 1)%nat.
Definition right_cell i j : Prop := (i = Nx cfg - 1 ∧ 1 ≤ j < Ny cfg - 1)%nat.
Definition top_cell i j : Prop := (1 ≤ i < Nx cfg - 1 ∧ j = Ny cfg - 1)%nat.
Definition bottom_cell i j : Prop := (1 ≤ i < Nx cfg - 1 ∧ j = 0)%nat.
Definition edge_cell i j : Prop :=
  left_cell i j ∨ right_cell i j ∨ top_cell i j ∨ bottom_cell i j.
Definition corner_cell i j : Prop :=
  ((i = 0 ∨ i = Nx cfg - 1) ∧ (j = 0 ∨ j = Ny cfg - 1))%nat.

(** The value an edge cell receives, read off the four edge loops. *)
Definition left_value h i j : double :=
  load h p0 (i + 1) j + Rx cfg * (load h p1 (i + 1) j - load h p0 i j).
Definition right_value h i j : double :=
  load h p0 (i - 1) j + Rx cfg * (load h p1 (i - 1) j - load h p0 i j).
Definition top_value h i j : double :=
  load h p0 i (j - 1) + Ry cfg * (load h p1 i (j - 1) - load h p0 i j).
Definition bottom_value h i j : double :=
  load h p0 i (j + 1) + Ry cfg * (load h p1 i (j + 1) - load h p0 i j).

Lemma agree_off_other W h1 h2 q i j :
  agree_off p1 W h1 h2 → q ≠ p1 → load h1 q i j = load h2 q i j.
Proof. intros [Hoth _] Hq. apply load_lookup. by apply Hoth. Qed.

Lemma agree_off_same W h1 h2 i j :
  agree_off p1 W h1 h2 → ¬ W i j → load h1 p1 i j = load h2 p1 i j.
Proof. intros [_ Hsame] Hw. by apply Hsame. Qed.

Lemma stencil_agree W h1 h2 i j :
  agree_off p1 W h1 h2 → stencil cfg h1 p0 m1 i j = stencil cfg h2 p0 m1 i j.
Proof.
  intros Hag. unfold stencil.
  by rewrite !(agree_off_other W h1 h2 p0), !(agree_off_other W h1 h2 m1).
Qed.

Lemma writes_interior_nodes :
  writes (Nx cfg) (Ny cfg) p1 interior_cell (λ h i j, stencil cfg h p0 m1 i j)
    (interior_nodes cfg p1 p0 m1).
Proof.
  unfold interior_nodes.
  eapply writes_iff; cycle 1.
  - apply (writes_for_loop _ _ _
      (λ jj i j, (1 ≤ i < Nx cfg - 1)%nat ∧ j = jj)).
    + intros jj Hjj.
      eapply writes_iff; cycle 1.
      * apply (writes_for_loop _ _ _ (λ ii i j, i = ii ∧ j = jj)).
        -- intros ii Hii.
           eapply writes_ext; cycle 1.
           ++ apply (writes_store _ _ _ ii jj
                (λ h, stencil cfg h p0 m1 ii jj)); lia.
           ++ by intros h i j [-> ->].
        -- intros k k' i j _ _ [-> _] [-> _]. done.
        -- intros h1 h2 i j _ Hag. by eapply stencil_agree.
      * intros i j. simpl. split.
        -- intros (k & Hk & -> & ->). done.
        -- intros [Hi ->]. exists i. done.
    + intros k k' i j _ _ [_ ->] [_ ->]. done.
    + intros h1 h2 i j _ Hag. by eapply stencil_agree.
  - intros i j. unfold interior_cell. split.
    + intros (k & Hk & Hi & ->). done.
    + intros [Hi Hj]. exists j. done.
Qed.

Lemma writes_source_node n :
  (xs1 cfg < Nx cfg)%nat → (ys1 cfg < Ny cfg)%nat →
  writes (Nx cfg) (Ny cfg) p1 (λ i j, i = xs1 cfg ∧ j = ys1 cfg)
    (λ _ _ _, source_value cfg n) (source_node cfg n p1).
Proof.
  intros Hx Hy. unfold source_node.
  by apply (writes_store _ _ _ _ _ (λ _, source_value cfg n)).
Qed.

Lemma writes_left_nodes :
  (2 ≤ Nx cfg)%nat →
  writes (Nx cfg) (Ny cfg) p1 left_cell left_value (left_nodes cfg p1 p0).
Proof.
  intros HNx. unfold left_nodes.
  eapply writes_iff; cycle 1.
  - apply (writes_for_loop _ _ _ (λ jj i j, i = 0%nat ∧ j = jj)).
    + intros jj Hjj. eapply writes_ext; cycle 1.
      * apply (writes_store _ _ _ 0 jj (λ h, left_value h 0 jj)); lia.
      * by intros h i j [-> ->].
    + intros k k' i j _ _ [_ ->] [_ ->]. done.
    + intros h1 h2 i j (k & Hk & -> & ->) Hag. unfold left_value.
      rewrite !(agree_off_other _ _ _ p0 _ _ Hag) by done.
      rewrite (agree_off_same _ _ _ (0 + 1) k Hag); [done|].
      intros (k' & _ & HH & _). lia.
  - intros i j. unfold left_cell. split.
    + intros (k & Hk & -> & ->). done.
    + intros [-> Hj]. exists j. done.
Qed.

Lemma writes_right_nodes :
  (2 ≤ Nx cfg)%nat →
  writes (Nx cfg) (Ny cfg) p1 right_cell right_value (right_nodes cfg p1 p0).
Proof.
  intros HNx. unfold right_nodes.
  eapply writes_iff; cycle 1.
  - apply (writes_for_loop _ _ _ (λ jj i j, i = (Nx cfg - 1)%nat ∧ j = jj)).
    + intros jj Hjj. eapply writes_ext; cycle 1.
      * apply (writes_store _ _ _ (Nx cfg - 1) jj
          (λ h, right_value h (Nx cfg - 1) jj)); lia.
      * by intros h i j [-> ->].
    + intros k k' i j _ _ [_ ->] [_ ->]. done.
    + intros h1 h2 i j (k & Hk & -> & ->) Hag. unfold right_value.
      rewrite !(agree_off_other _ _ _ p0 _ _ Hag) by done.
      rewrite (agree_off_same _ _ _ (Nx cfg - 1 - 1) k Hag); [done|].
      intros (k' & _ & HH & _). lia.
  - intros i j. unfold right_cell. split.
    + intros (k & Hk & -> & ->). done.
    + intros [-> Hj]. exists j. done.
Qed.

Lemma writes_top_nodes :
  (2 ≤ Ny cfg)%nat →
  writes (Nx cfg) (Ny cfg) p1 top_cell top_value (top_nodes cfg p1 p0).
Proof.
  intros HNy. unfold top_nodes.
  eapply writes_iff; cycle 1.
  - apply (writes_for_loop _ _ _ (λ ii i j, i = ii ∧ j = (Ny cfg - 1)%nat)).
    + intros ii Hii. eapply writes_ext; cycle 1.
      * apply (writes_store _ _ _ ii (Ny cfg - 1)
          (λ h, top_value h ii (Ny cfg - 1))); lia.
      * by intros h i j [-> ->].
    + intros k k' i j _ _ [-> _] [-> _]. done.
    + intros h1 h2 i j (k & Hk & -> & ->) Hag. unfold top_value.
      rewrite !(agree_off_other _ _ _ p0 _ _ Hag) by done.
      rewrite (agree_off_same _ _ _ k (Ny cfg - 1 - 1) Hag); [done|].
      intros (k' & _ & _ & HH). lia.
  - intros i j. unfold top_cell. split.
    + intros (k & Hk & -> & ->). done.
    + intros [Hi ->]. exists i. done.
Qed.

Lemma writes_bottom_nodes :
  (2 ≤ Ny cfg)%nat →
  writes (Nx cfg) (Ny cfg) p1 bottom_cell bottom_value (bottom_nodes cfg p1 p0).
Proof.
  intros HNy. unfold bottom_nodes.
  eapply writes_iff; cycle 1.
  - apply (writes_for_loop _ _ _ (λ ii i j, i = ii ∧ j = 0%nat)).
    + intros ii Hii. eapply writes_ext; cycle 1.
      * apply (writes_store _ _ _ ii 0 (λ h, bottom_value h ii 0)); lia.
      * by intros h i j [-> ->].
    + intros k k' i j _ _ [-> _] [-> _]. done.
    + intros h1 h2 i j (k & Hk & -> & ->) Hag. unfold bottom_value.
      rewrite !(agree_off_other _ _ _ p0 _ _ Hag) by done.
      rewrite (agree_off_same _ _ _ k (0 + 1) Hag); [done|].
      intros (k' & _ & _ & HH). lia.
  - intros i j. unfold bottom_cell. split.
    + intros (k & Hk & -> & ->). done.
    + intros [Hi ->]. exists i. done.
Qed.

#[local] Instance left_cell_dec i j : Decision (left_cell i j).
Proof. unfold left_cell. apply _. Defined.
#[local] Instance right_cell_dec i j : Decision (right_cell i j).
Proof. unfold right_cell. apply _. Defined.
#[local] Instance top_cell_dec i j : Decision (top_cell i j).
Proof. unfold top_cell. apply _. Defined.

(** The four edge loops together. *)
Definition edge_value h i j : double :=
  if decide (left_cell i j) then left_value h i j
  else if decide (right_cell i j) then right_value h i j
  else if decide (top_cell i j) then top_value h i j
  else bottom_value h i j.

Ltac cells :=
  unfold edge_cell, left_cell, right_cell, top_cell, bottom_cell,
    interior_cell, corner_cell in *.

Lemma edge_value_stable :
  (3 ≤ Nx cfg)%nat → (3 ≤ Ny cfg)%nat →
  ∀ W, (∀ i j, W i j → edge_cell i j) → stable p1 W edge_value.
Proof.
  intros HNx HNy W HW h1 h2 i j Hw Hag.
  assert (∀ i' j', interior_cell i' j' → load h1 p1 i' j' = load h2 p1 i' j')
    as Hint.
  { intros i' j' Hc. apply (agree_off_same _ _ _ _ _ Hag).
    intros Hw'. apply HW in Hw'. cells. lia. }
  apply HW in Hw. unfold edge_value.
  repeat case_decide;
    unfold left_value, right_value, top_value, bottom_value;
    rewrite !(agree_off_other _ _ _ p0 _ _ Hag) by done;
    (rewrite Hint; [done|]); cells; lia.
Qed.

Lemma writes_edge_nodes :
  (3 ≤ Nx cfg)%nat → (3 ≤ Ny cfg)%nat →
  writes (Nx cfg) (Ny cfg) p1 edge_cell edge_value (edge_nodes cfg p1 p0).
Proof.
  intros HNx HNy. unfold edge_nodes.
  eapply writes_iff; cycle 1.
  - apply (writes_seq _ _ _
      (λ i j, (left_cell i j ∨ right_cell i j) ∨ top_cell i j) bottom_cell
      edge_value
      (λ h, top_nodes cfg p1 p0 (right_nodes cfg p1 p0 (left_nodes cfg p1 p0 h)))
      (bottom_nodes cfg p1 p0)).
    + apply (writes_seq _ _ _
        (λ i j, left_cell i j ∨ right_cell i j) top_cell edge_value
        (λ h, right_nodes cfg p1 p0 (left_nodes cfg p1 p0 h))
        (top_nodes cfg p1 p0)).
      * apply (writes_seq _ _ _ left_cell right_cell edge_value
          (left_nodes cfg p1 p0) (right_nodes cfg p1 p0)).
        -- eapply writes_ext; [|apply writes_left_nodes; lia].
           intros h i j Hc. unfold edge_value. by rewrite decide_True.
        -- eapply writes_ext; [|apply writes_right_nodes; lia].
           intros h i j Hc. unfold edge_value.
           rewrite decide_False by (cells; lia). by rewrite decide_True.
        -- intros i j. cells. lia.
        -- apply edge_value_stable; [done..|]. intros i j. cells. tauto.
      * eapply writes_ext; [|apply writes_top_nodes; lia].
        intros h i j Hc. unfold edge_value.
        rewrite !decide_False by (cells; lia). by rewrite decide_True.
      * intros i j. cells. lia.
      * apply edge_value_stable; [done..|]. intros i j. cells. tauto.
    + eapply writes_ext; [|apply writes_bottom_nodes; lia].
      intros h i j Hc. unfold edge_value.
      by rewrite !decide_False by (cells; lia).
    + intros i j. cells. lia.
    + apply edge_value_stable; [done..|]. intros i j. cells. tauto.
  - intros i j. cells. tauto.
Qed.

(** The four corner assignments. *)
Definition corner_value h i j : double :=
  if decide (i = 0 ∧ j = 0)%nat then
    fhalf * (load h p1 1 0 + load h p1 0 1)
  else if decide (i = Nx cfg - 1 ∧ j = 0)%nat then
    fhalf * (load h p1 (Nx cfg - 2) 0 + load h p1 (Nx cfg - 1) 1)
  else if decide (i = Nx cfg - 1 ∧ j = Ny cfg - 1)%nat then
    fhalf * (load h p1 (Nx cfg - 2) (Ny cfg - 1)
             + load h p1 (Nx cfg - 1) (Ny cfg - 2))
  else
    fhalf * (load h p1 0 (Ny cfg - 2) + load h p1 1 (Ny cfg - 1)).

Lemma corner_value_stable :
  (3 ≤ Nx cfg)%nat → (3 ≤ Ny cfg)%nat →
  ∀ W, (∀ i j, W i j → corner_cell i j) → stable p1 W corner_value.
Proof.
  intros HNx HNy W HW h1 h2 i j Hw Hag.
  assert (∀ i' j', ¬ corner_cell i' j' → load h1 p1 i' j' = load h2 p1 i' j')
    as Hnc.
  { intros i' j' Hc. apply (agree_off_same _ _ _ _ _ Hag).
    intros Hw'. by apply HW in Hw'. }
  unfold corner_value.
  repeat case_decide; (rewrite !Hnc; [done|..]); cells; lia.
Qed.

Lemma writes_corner_nodes :
  (3 ≤ Nx cfg)%nat → (3 ≤ Ny cfg)%nat →
  writes (Nx cfg) (Ny cfg) p1 corner_cell corner_value (corner_nodes cfg p1).
Proof.
  intros HNx HNy.
  pose (s00 := λ h, store h p1 0 0 (corner_value h 0 0)).
  pose (sN0 := λ h, store h p1 (Nx cfg - 1) 0 (corner_value h (Nx cfg - 1) 0)).
  pose (sNN := λ h, store h p1 (Nx cfg - 1) (Ny cfg - 1)
                      (corner_value h (Nx cfg - 1) (Ny cfg - 1))).
  pose (s0N := λ h, store h p1 0 (Ny cfg - 1) (corner_value h 0 (Ny cfg - 1))).
  assert (∀ h, corner_nodes cfg p1 h = s0N (sNN (sN0 (s00 h)))) as Heq.
  { intros h. unfold corner_nodes, s00, sN0, sNN, s0N, corner_value.
    repeat (case_decide; try lia).
    reflexivity. }
  assert (∀ i j, (i < Nx cfg)%nat → (j < Ny cfg)%nat →
    writes (Nx cfg) (Ny cfg) p1 (λ i' j', i' = i ∧ j' = j) corner_value
      (λ h, store h p1 i j (corner_value h i j))) as Hone.
  { intros i j Hi Hj. eapply writes_ext; cycle 1.
    - by apply (writes_store _ _ _ i j (λ h, corner_value h i j)).
    - by intros h i' j' [-> ->]. }
  intros h Hh. rewrite Heq. revert h Hh.
  change (writes (Nx cfg) (Ny cfg) p1 corner_cell corner_value
            (λ h, s0N (sNN (sN0 (s00 h))))).
  eapply writes_iff; cycle 1.
  - eapply (writes_seq _ _ _ _ _ corner_value (λ h, sNN (sN0 (s00 h))) s0N).
    + eapply (writes_seq _ _ _ _ _ corner_value (λ h, sN0 (s00 h)) sNN).
      * eapply (writes_seq _ _ _ _ _ corner_value s00 sN0).
        -- apply Hone; lia.
        -- apply Hone; lia.
        -- simpl. lia.
        -- apply corner_value_stable; [done..|]. intros i j. cells. lia.
      * apply Hone; lia.
      * simpl. lia.
      * apply corner_value_stable; [done..|]. intros i j. cells. lia.
    + apply Hone; lia.
    + simpl. lia.
    + apply corner_value_stable; [done..|]. intros i j. cells. lia.
  - intros i j. cells. simpl. lia.
Qed.

End Passes.

(** ** What a pass leaves alone, whatever the configuration *)

Section Touches.
Context `{Sc : Scalar}.
Variables (rows cols : nat) (p : nat).
Implicit Types (h : heap) (f : heap → heap).

(** [f] keeps the set of allocated grids, keeps the grid at [p] allocated
    with its shape, and does not change any other grid. *)
Definition touches_only f : Prop :=
  ∀ h,
    dom (f h) = dom h ∧
    (∀ q, q ≠ p → f h !! q = h !! q) ∧
    (allocated rows cols p h → allocated rows cols p (f h)).

Lemma touches_store i j (v : heap → double) :
  touches_only (λ h, store h p i j (v h)).
Proof.
  intros h. split_and!.
  - apply store_dom.
  - intros q Hq. by apply store_lookup_ne.
  - intros (g & Hp & Hg). exists (set g i j (v h)).
    split; [by apply store_lookup_eq|by apply set_shaped].
Qed.

Lemma store_allocated h i j v :
  allocated rows cols p h → allocated rows cols p (store h p i j v).
Proof. apply (touches_store i j (λ _, v) h). Qed.

Lemma touches_comp f f' :
  touches_only f → touches_only f' → touches_only (λ h, f' (f h)).
Proof.
  intros Hf Hf' h.
  destruct (Hf h) as (Hd & Ho & Ha), (Hf' (f h)) as (Hd' & Ho' & Ha').
  split_and!.
  - congruence.
  - intros q Hq. rewrite Ho' by done. by apply Ho.
  - auto.
Qed.

Lemma touches_for_loop lo hi (body : nat → heap → heap) :
  (∀ k, touches_only (body k)) → touches_only (for_loop lo hi body).
Proof.
  intros Hbody h.
  destruct (decide (lo ≤ hi)) as [Hle|Hgt]; cycle 1.
  { by rewrite for_loop_empty by lia. }
  apply (for_loop_invariant (λ _ h',
    dom h' = dom h ∧ (∀ q, q ≠ p → h' !! q = h !! q) ∧
    (allocated rows cols p h → allocated rows cols p h'))); [done|done|].
  intros k t _ (Hd & Ho & Ha).
  destruct (Hbody k t) as (Hd' & Ho' & Ha'). split_and!.
  - congruence.
  - intros q Hq. rewrite Ho' by done. by apply Ho.
  - auto.
Qed.

End Touches.

Section TouchesPasses.
Context `{Sc : Scalar}.
Variable cfg : Config.
Variables (rows cols : nat) (p1 p0 m1 : nat).

Lemma touches_initializeArray :
  touches_only rows cols p1 (initializeArray p1 rows cols).
Proof.
  apply touches_for_loop. intros i. apply touches_for_loop. intros j.
  apply (touches_store _ _ _ i j (λ _, f0)).
Qed.

Lemma touches_interior_nodes :
  touches_only rows cols p1 (interior_nodes cfg p1 p0 m1).
Proof.
  apply touches_for_loop. intros jj. apply touches_for_loop. intros ii.
  apply (touches_store _ _ _ ii jj (λ h, stencil cfg h p0 m1 ii jj)).
Qed.

Lemma touches_source_node n :
  touches_only rows cols p1 (source_node cfg n p1).
Proof. apply (touches_store _ _ _ _ _ (λ _, source_value cfg n)). Qed.

Lemma touches_edge_nodes :
  touches_only rows cols p1 (edge_nodes cfg p1 p0).
Proof.
  unfold edge_nodes.
  apply (touches_comp _ _ _
    (λ h, top_nodes cfg p1 p0 (right_nodes cfg p1 p0 (left_nodes cfg p1 p0 h)))
    (bottom_nodes cfg p1 p0)).
  - apply (touches_comp _ _ _
      (λ h, right_nodes cfg p1 p0 (left_nodes cfg p1 p0 h))
      (top_nodes cfg p1 p0)).
    + apply (touches_comp _ _ _ (left_nodes cfg p1 p0) (right_nodes cfg p1 p0)).
      * apply touches_for_loop. intros jj.
        apply (touches_store _ _ _ _ _ (λ h, _)).
      * apply touches_for_loop. intros jj.
        apply (touches_store _ _ _ _ _ (λ h, _)).
    + apply touches_for_loop. intros ii.
      apply (touches_store _ _ _ _ _ (λ h, _)).
  - apply touches_for_loop. intros ii.
    apply (touches_store _ _ _ _ _ (λ h, _)).
Qed.

Lemma touches_corner_nodes :
  touches_only rows cols p1 (corner_nodes cfg p1).
Proof.
  intros h. unfold corner_nodes. cbv zeta. split_and!.
  - by rewrite !store_dom.
  - intros q Hq. by rewrite !store_lookup_ne by done.
  - intros Hal. by do 4 apply store_allocated.
Qed.

End TouchesPasses.

(** ** The states of [main] *)

Section Run.
Context `{Sc : Scalar}.
Variable cfg : Config.
Implicit Types (h : heap) (st : state).

(** The three grids, and only they, are allocated, each [Nx] x [Ny]. *)
Definition heap_ok h (p1 p0 m1 : nat) : Prop :=
  dom h = {[p1; p0; m1]} ∧
  ∀ q, q ∈ dom h → allocated (Nx cfg) (Ny cfg) q h.

(** The three pointer variables refer to three different grids. *)
Definition wf_state st : Prop :=
  Un_p1 st ≠ Un0 st ∧ Un_p1 st ≠ Un_m1 st ∧ Un0 st ≠ Un_m1 st ∧
  heap_ok (mem st) (Un_p1 st) (Un0 st) (Un_m1 st).

Lemma touches_heap_ok (f : heap → heap) p h p1 p0 m1 :
  touches_only (Nx cfg) (Ny cfg) p f →
  heap_ok h p1 p0 m1 → heap_ok (f h) p1 p0 m1.
Proof.
  intros Hf [Hdom Hall]. destruct (Hf h) as (Hd & Ho & Ha).
  split; [congruence|].
  intros q Hq. rewrite Hd in Hq. specialize (Hall q Hq).
  destruct (decide (q = p)) as [->|Hne]; [by apply Ha|].
  destruct Hall as (g & Hg & Hs). exists g. by rewrite Ho.
Qed.

Lemma wf_allocated st :
  wf_state st →
  allocated (Nx cfg) (Ny cfg) (Un_p1 st) (mem st) ∧
  allocated (Nx cfg) (Ny cfg) (Un0 st) (mem st) ∧
  allocated (Nx cfg) (Ny cfg) (Un_m1 st) (mem st).
Proof.
  intros (_ & _ & _ & Hdom & Hall).
  split_and!; apply Hall; rewrite Hdom; clear; set_solver.
Qed.

Lemma initializeArray_writes p :
  writes (Nx cfg) (Ny cfg) p (λ i j, i < Nx cfg ∧ j < Ny cfg) (λ _ _ _, f0)
    (initializeArray p (Nx cfg) (Ny cfg)).
Proof.
  unfold initializeArray.
  eapply writes_iff; cycle 1.
  - apply (writes_for_loop _ _ _ (λ ii i j, i = ii ∧ j < Ny cfg)).
    + intros ii Hii. eapply writes_iff; cycle 1.
      * apply (writes_for_loop _ _ _ (λ jj i j, i = ii ∧ j = jj)).
        -- intros jj Hjj.
           apply (writes_store _ _ _ ii jj (λ _, f0)); lia.
        -- intros k k' i j _ _ [_ ->] [_ ->]. done.
        -- by intros h1 h2 i j _ _.
      * intros i j. simpl. split.
        -- intros (k & Hk & -> & ->). lia.
        -- intros [-> Hj]. exists j. lia.
    + intros k k' i j _ _ [-> _] [-> _]. done.
    + by intros h1 h2 i j _ _.
  - intros i j. simpl. split.
    + intros (k & Hk & -> & Hj). lia.
    + intros [Hi Hj]. exists i. lia.
Qed.

(** After [initializeArray] every read of the grid gives [f0]. *)
Lemma initializeArray_zero p h i j :
  allocated (Nx cfg) (Ny cfg) p h →
  load (initializeArray p (Nx cfg) (Ny cfg) h) p i j = f0.
Proof.
  intros Hal.
  destruct (initializeArray_writes p h Hal) as (Hal' & _ & _ & Hin & _).
  destruct (decide (i < Nx cfg ∧ j < Ny cfg)) as [Hr|Hr].
  - by apply Hin.
  - by eapply load_outside.
Qed.

Lemma allocate2DArray_shaped rows cols :
  shaped rows cols (replicate rows (replicate cols indeterminate)).
Proof.
  split; [by rewrite length_replicate|].
  intros i row Hrow. apply lookup_replicate in Hrow as [-> _].
  by rewrite length_replicate.
Qed.

(** The three allocations give three different grids, and the three
    initialisations run on them. *)
Lemma startup_heap :
  ∃ (a1 a2 a3 : nat) (h3 : heap),
    a1 ≠ a2 ∧ a1 ≠ a3 ∧ a2 ≠ a3 ∧ heap_ok h3 a1 a2 a3 ∧
    startup cfg =
    {| mem := initializeArray a3 (Nx cfg) (Ny cfg)
                (initializeArray a2 (Nx cfg) (Ny cfg)
                   (initializeArray a1 (Nx cfg) (Ny cfg) h3));
       Un_p1 := a1; Un0 := a2; Un_m1 := a3; frames := [] |}.
Proof.
  unfold startup, allocate2DArray. cbv zeta.
  set (blank := replicate (Nx cfg) (replicate (Ny cfg) indeterminate)).
  set (a1 := fresh (dom (∅ : heap))).
  set (h1 := <[a1 := blank]> (∅ : heap)).
  set (a2 := fresh (dom h1)).
  set (h2 := <[a2 := blank]> h1).
  set (a3 := fresh (dom h2)).
  set (h3 := <[a3 := blank]> h2).
  assert (a2 ≠ a1) as H21.
  { intros Heq. apply (is_fresh (dom h1)). fold a2. rewrite Heq.
    unfold h1. rewrite dom_insert_L. set_solver. }
  assert (a3 ≠ a1 ∧ a3 ≠ a2) as [H31 H32].
  { split; intros Heq; apply (is_fresh (dom h2)); fold a3; rewrite Heq;
      unfold h2, h1; rewrite !dom_insert_L; set_solver. }
  exists a1, a2, a3, h3. split_and!; try done.
  split.
  - unfold h3, h2, h1. rewrite !dom_insert_L, dom_empty_L. set_solver.
  - intros q Hq. unfold allocated.
    unfold h3, h2, h1 in Hq |- *.
    destruct (decide (q = a3)) as [->|?].
    { exists blank. rewrite lookup_insert_eq.
      split; [done|apply allocate2DArray_shaped]. }
    rewrite lookup_insert_ne by done.
    destruct (decide (q = a2)) as [->|?].
    { exists blank. rewrite lookup_insert_eq.
      split; [done|apply allocate2DArray_shaped]. }
    rewrite lookup_insert_ne by done.
    destruct (decide (q = a1)) as [->|?].
    { exists blank. rewrite lookup_insert_eq.
      split; [done|apply allocate2DArray_shaped]. }
    exfalso. rewrite !dom_insert_L, dom_empty_L in Hq. set_solver.
Qed.

Lemma startup_wf : wf_state (startup cfg).
Proof.
  destruct startup_heap as (a1 & a2 & a3 & h3 & H12 & H13 & H23 & Hok & ->).
  unfold wf_state. simpl. split_and!; try done.
  do 3 (eapply touches_heap_ok; [apply touches_initializeArray|]). done.
Qed.

(** [main] enters its loop with every cell of every grid equal to 0.0. *)
Lemma startup_zero q i j : load (mem (startup cfg)) q i j = f0.
Proof.
  destruct startup_heap as (a1 & a2 & a3 & h3 & H12 & H13 & H23 & Hok & ->).
  simpl.
  set (k1 := initializeArray a1 (Nx cfg) (Ny cfg) h3).
  set (k2 := initializeArray a2 (Nx cfg) (Ny cfg) k1).
  assert (heap_ok k1 a1 a2 a3) as Hok1
    by (eapply touches_heap_ok; [apply touches_initializeArray|done]).
  assert (heap_ok k2 a1 a2 a3) as Hok2
    by (eapply touches_heap_ok; [apply touches_initializeArray|done]).
  assert (∀ a h, heap_ok h a1 a2 a3 → a ∈ ({[a1; a2; a3]} : gset nat) →
    allocated (Nx cfg) (Ny cfg) a h) as Hal.
  { intros a h [Hd Ha] Hin. apply Ha. by rewrite Hd. }
  pose proof (λ a h, proj1 (proj2 (touches_initializeArray
    (Nx cfg) (Ny cfg) a h))) as Hoth.
  destruct (decide (q = a3)) as [->|Hq3].
  { apply initializeArray_zero. apply Hal; [done|set_solver]. }
  rewrite (load_lookup k2) by (by apply Hoth).
  destruct (decide (q = a2)) as [->|Hq2].
  { apply initializeArray_zero. apply Hal; [done|set_solver]. }
  unfold k2. rewrite (load_lookup k1) by (by apply Hoth).
  destruct (decide (q = a1)) as [->|Hq1].
  { apply initializeArray_zero. apply Hal; [done|set_solver]. }
  unfold load. destruct Hok1 as [Hd _].
  assert (q ∉ dom k1) as Hnd by (rewrite Hd; set_solver).
  apply not_elem_of_dom in Hnd. by rewrite Hnd.
Qed.

Lemma touches_passes n p1 p0 m1 :
  touches_only (Nx cfg) (Ny cfg) p1 (λ h,
    corner_nodes cfg p1 (edge_nodes cfg p1 p0
      (source_node cfg n p1 (interior_nodes cfg p1 p0 m1 h)))).
Proof.
  apply (touches_comp _ _ _
    (λ h, edge_nodes cfg p1 p0
            (source_node cfg n p1 (interior_nodes cfg p1 p0 m1 h)))
    (corner_nodes cfg p1)); [|apply touches_corner_nodes].
  apply (touches_comp _ _ _
    (λ h, source_node cfg n p1 (interior_nodes cfg p1 p0 m1 h))
    (edge_nodes cfg p1 p0)); [|apply touches_edge_nodes].
  apply (touches_comp _ _ _ (interior_nodes cfg p1 p0 m1)
    (source_node cfg n p1));
    [apply touches_interior_nodes|apply touches_source_node].
Qed.

Lemma after_corners_wf n st : wf_state st → wf_state (after_corners cfg n st).
Proof.
  intros (H10 & H1m & H0m & Hok). unfold wf_state. simpl.
  split_and!; try done.
  by apply (touches_heap_ok _ _ _ _ _ _ (touches_passes n _ _ _)).
Qed.

Lemma swap_references_wf st : wf_state st → wf_state (swap_references st).
Proof.
  intros (H10 & H1m & H0m & Hdom & Hall). unfold wf_state. simpl.
  split_and!; try done.
  split; [|done]. rewrite Hdom. clear. set_solver.
Qed.

Lemma loop_body_wf n st : wf_state st → wf_state (loop_body cfg n st).
Proof.
  intros Hwf. unfold loop_body. apply swap_references_wf.
  by apply (after_corners_wf n) in Hwf.
Qed.

Lemma run_succ k : run cfg (S k) = loop_body cfg k (run cfg k).
Proof. unfold run. apply for_loop_snoc. lia. Qed.

Lemma run_wf k : wf_state (run cfg k).
Proof.
  induction k as [|k IH]; [apply startup_wf|].
  rewrite run_succ. by apply loop_body_wf.
Qed.

End Run.

(** ** One iteration, pass by pass *)

(** The source node lies strictly inside the grid. *)
Definition source_inside `{Sc : Scalar} (cfg : Config) : Prop :=
  0 < xs1 cfg < Nx cfg - 1 ∧ 0 < ys1 cfg < Ny cfg - 1.

Section Iteration.
Context `{Sc : Scalar}.
Variable cfg : Config.
Variable n : nat.
Variable st : state.
Hypothesis Hwf : wf_state cfg st.

(** The grids as the iteration finds them, and the new level after each
    pass. *)
Definition current (i j : nat) : double := load (mem st) (Un0 st) i j.
Definition previous (i j : nat) : double := load (mem st) (Un_m1 st) i j.
Definition next_interior (i j : nat) : double :=
  load (mem (after_interior cfg st)) (Un_p1 st) i j.
Definition next_source (i j : nat) : double :=
  load (mem (after_source cfg n st)) (Un_p1 st) i j.
Definition next_edges (i j : nat) : double :=
  load (mem (after_edges cfg n st)) (Un_p1 st) i j.
Definition next_corners (i j : nat) : double :=
  load (mem (after_corners cfg n st)) (Un_p1 st) i j.

Local Open Scope double_scope.

Lemma interior_pass i j :
  interior_cell cfg i j →
  next_interior i j = stencil cfg (mem st) (Un0 st) (Un_m1 st) i j.
Proof.
  intros Hc. destruct Hwf as (H10 & H1m & _).
  destruct (wf_allocated cfg st Hwf) as (Hal & _).
  destruct (writes_interior_nodes cfg _ _ _ H10 H1m _ Hal)
    as (_ & _ & _ & Hin & _).
  by apply Hin.
Qed.

(** The grids other than the new level are the same objects, with the same
    contents, after every pass. *)
Lemma passes_frame q :
  q ≠ Un_p1 st →
  mem (after_interior cfg st) !! q = mem st !! q ∧
  mem (after_source cfg n st) !! q = mem st !! q ∧
  mem (after_edges cfg n st) !! q = mem st !! q ∧
  mem (after_corners cfg n st) !! q = mem st !! q.
Proof.
  intros Hq. simpl.
  pose proof (touches_interior_nodes cfg (Nx cfg) (Ny cfg)
    (Un_p1 st) (Un0 st) (Un_m1 st)) as HI.
  pose proof (touches_source_node cfg (Nx cfg) (Ny cfg) (Un_p1 st) n) as HS.
  pose proof (touches_edge_nodes cfg (Nx cfg) (Ny cfg) (Un_p1 st) (Un0 st)) as HE.
  pose proof (touches_corner_nodes cfg (Nx cfg) (Ny cfg) (Un_p1 st)) as HC.
  set (hI := interior_nodes cfg (Un_p1 st) (Un0 st) (Un_m1 st) (mem st)).
  set (hS := source_node cfg n (Un_p1 st) hI).
  set (hE := edge_nodes cfg (Un_p1 st) (Un0 st) hS).
  destruct (HI (mem st)) as (_ & HoI & _). fold hI in HoI.
  destruct (HS hI) as (_ & HoS & _). fold hS in HoS.
  destruct (HE hS) as (_ & HoE & _). fold hE in HoE.
  destruct (HC hE) as (_ & HoC & _).
  rewrite HoC, HoE, HoS, HoI by done. done.
Qed.

(** The new level stays allocated through the passes. *)
Lemma passes_allocated :
  allocated (Nx cfg) (Ny cfg) (Un_p1 st) (mem (after_interior cfg st)) ∧
  allocated (Nx cfg) (Ny cfg) (Un_p1 st) (mem (after_source cfg n st)) ∧
  allocated (Nx cfg) (Ny cfg) (Un_p1 st) (mem (after_edges cfg n st)).
Proof.
  destruct (wf_allocated cfg st Hwf) as (Hal & _). simpl.
  pose proof (touches_interior_nodes cfg (Nx cfg) (Ny cfg)
    (Un_p1 st) (Un0 st) (Un_m1 st) (mem st)) as (_ & _ & HI).
  specialize (HI Hal).
  pose proof (touches_source_node cfg (Nx cfg) (Ny cfg) (Un_p1 st) n
    (interior_nodes cfg (Un_p1 st) (Un0 st) (Un_m1 st) (mem st)))
    as (_ & _ & HS).
  specialize (HS HI).
  pose proof (touches_edge_nodes cfg (Nx cfg) (Ny cfg) (Un_p1 st) (Un0 st)
    (source_node cfg n (Un_p1 st)
       (interior_nodes cfg (Un_p1 st) (Un0 st) (Un_m1 st) (mem st))))
    as (_ & _ & HE).
  specialize (HE HS). done.
Qed.

Lemma source_pass :
  xs1 cfg < Nx cfg → ys1 cfg < Ny cfg →
  next_source (xs1 cfg) (ys1 cfg) = source_value cfg n ∧
  ∀ i j, (i, j) ≠ (xs1 cfg, ys1 cfg) → next_source i j = next_interior i j.
Proof.
  intros Hx Hy. destruct passes_allocated as (HalI & _).
  destruct (writes_source_node cfg (Un_p1 st) n Hx Hy _ HalI)
    as (_ & _ & _ & Hin & Hout).
  split; [by apply Hin|].
  intros i j Hne. apply Hout. intros [-> ->]. done.
Qed.

(** Reads of the current level are the same after every pass. *)
Lemma current_after_source i j :
  load (mem (after_source cfg n st)) (Un0 st) i j = current i j.
Proof.
  destruct Hwf as (H10 & _).
  apply load_lookup. by apply passes_frame.
Qed.

Section Interior.
Hypothesis HNx : 3 ≤ Nx cfg.
Hypothesis HNy : 3 ≤ Ny cfg.

Lemma edge_pass i j :
  (edge_cell cfg i j →
   next_edges i j =
   edge_value cfg (Un_p1 st) (Un0 st) (mem (after_source cfg n st)) i j) ∧
  (¬ edge_cell cfg i j → next_edges i j = next_source i j).
Proof.
  destruct Hwf as (H10 & H1m & _).
  destruct passes_allocated as (_ & HalS & _).
  destruct (writes_edge_nodes cfg _ _ _ H10 H1m HNx HNy _ HalS)
    as (_ & _ & _ & Hin & Hout).
  split; [apply Hin|apply Hout].
Qed.

Lemma corner_pass i j :
  (corner_cell cfg i j →
   next_corners i j =
   corner_value cfg (Un_p1 st) (mem (after_edges cfg n st)) i j) ∧
  (¬ corner_cell cfg i j → next_corners i j = next_edges i j).
Proof.
  destruct Hwf as (H10 & H1m & _).
  destruct passes_allocated as (_ & _ & HalE).
  destruct (writes_corner_nodes cfg _ _ _ H10 H1m HNx HNy _ HalE)
    as (_ & _ & _ & Hin & Hout).
  split; [apply Hin|apply Hout].
Qed.

(** An interior cell holds at the end of the iteration what it held after
    the source node was set. *)
Lemma next_interior_kept i j :
  interior_cell cfg i j →
  next_edges i j = next_source i j ∧ next_corners i j = next_source i j.
Proof.
  intros Hc.
  assert (next_edges i j = next_source i j) as He.
  { apply edge_pass.
    unfold edge_cell, left_cell, right_cell, top_cell, bottom_cell,
      interior_cell in *; lia. }
  split; [done|]. rewrite <- He. apply corner_pass.
  unfold corner_cell, interior_cell in *; lia.
Qed.

(** An edge cell holds at the end of the iteration what the edge loops
    gave it. *)
Lemma next_edge_kept i j :
  edge_cell cfg i j → next_corners i j = next_edges i j.
Proof.
  intros Hc. apply corner_pass.
  unfold corner_cell, edge_cell, left_cell, right_cell, top_cell,
    bottom_cell in *. lia.
Qed.

(** The four edge rules, each reading the new level next to the edge as
    the interior and source passes left it. *)
Lemma left_edge_value j :
  1 ≤ j < Ny cfg - 1 →
  next_edges 0 j
  = current 1 j + Rx cfg * (next_source 1 j - current 0 j).
Proof.
  intros Hj.
  rewrite (proj1 (edge_pass 0 j)) by (left; unfold left_cell; lia).
  unfold edge_value. rewrite decide_True by (unfold left_cell; lia).
  unfold left_value. by rewrite !current_after_source.
Qed.

Lemma right_edge_value j :
  1 ≤ j < Ny cfg - 1 →
  next_edges (Nx cfg - 1) j
  = current (Nx cfg - 2) j
    + Rx cfg * (next_source (Nx cfg - 2) j - current (Nx cfg - 1) j).
Proof.
  intros Hj.
  rewrite (proj1 (edge_pass (Nx cfg - 1) j))
    by (right; left; unfold right_cell; lia).
  unfold edge_value.
  rewrite decide_False by (unfold left_cell; lia).
  rewrite decide_True by (unfold right_cell; lia).
  unfold right_value. rewrite !current_after_source.
  by replace (Nx cfg - 1 - 1)%nat with (Nx cfg - 2)%nat by lia.
Qed.

Lemma top_edge_value i :
  1 ≤ i < Nx cfg - 1 →
  next_edges i (Ny cfg - 1)
  = current i (Ny cfg - 2)
    + Ry cfg * (next_source i (Ny cfg - 2) - current i (Ny cfg - 1)).
Proof.
  intros Hi.
  rewrite (proj1 (edge_pass i (Ny cfg - 1)))
    by (right; right; left; unfold top_cell; lia).
  unfold edge_value.
  rewrite decide_False by (unfold left_cell; lia).
  rewrite decide_False by (unfold right_cell; lia).
  rewrite decide_True by (unfold top_cell; lia).
  unfold top_value. rewrite !current_after_source.
  by replace (Ny cfg - 1 - 1)%nat with (Ny cfg - 2)%nat by lia.
Qed.

Lemma bottom_edge_value i :
  1 ≤ i < Nx cfg - 1 →
  next_edges i 0
  = current i 1 + Ry cfg * (next_source i 1 - current i 0).
Proof.
  intros Hi.
  rewrite (proj1 (edge_pass i 0))
    by (right; right; right; unfold bottom_cell; lia).
  unfold edge_value.
  rewrite decide_False by (unfold left_cell; lia).
  rewrite decide_False by (unfold right_cell; lia).
  rewrite decide_False by (unfold top_cell; lia).
  unfold bottom_value. by rewrite !current_after_source.
Qed.

(** The four corner assignments, each reading the two edge cells next to
    the corner as the edge loops left them. *)
Lemma corner_values :
  next_corners 0 0 = fhalf * (next_edges 1 0 + next_edges 0 1) ∧
  next_corners (Nx cfg - 1) 0
  = fhalf * (next_edges (Nx cfg - 2) 0 + next_edges (Nx cfg - 1) 1) ∧
  next_corners (Nx cfg - 1) (Ny cfg - 1)
  = fhalf * (next_edges (Nx cfg - 2) (Ny cfg - 1)
             + next_edges (Nx cfg - 1) (Ny cfg - 2)) ∧
  next_corners 0 (Ny cfg - 1)
  = fhalf * (next_edges 0 (Ny cfg - 2) + next_edges 1 (Ny cfg - 1)).
Proof.
  split_and!.
  - rewrite (proj1 (corner_pass 0 0)) by (unfold corner_cell; lia).
    unfold corner_value. by rewrite decide_True by done.
  - rewrite (proj1 (corner_pass _ _)) by (unfold corner_cell; lia).
    unfold corner_value.
    rewrite decide_False by lia. by rewrite decide_True by done.
  - rewrite (proj1 (corner_pass _ _)) by (unfold corner_cell; lia).
    unfold corner_value.
    rewrite !decide_False by lia. by rewrite decide_True by done.
  - rewrite (proj1 (corner_pass _ _)) by (unfold corner_cell; lia).
    unfold corner_value.
    by rewrite !decide_False by lia.
Qed.

End Interior.

Section Inside.
Hypothesis Hsrc : source_inside cfg.

(** The new level at the end of the iteration, at an interior cell other
    than the source and at the source. *)
Lemma next_at_interior i j :
  interior_cell cfg i j → (i, j) ≠ (xs1 cfg, ys1 cfg) →
  next_corners i j = stencil cfg (mem st) (Un0 st) (Un_m1 st) i j.
Proof.
  intros Hc Hne. destruct Hsrc as [Hx Hy].
  rewrite (proj2 (next_interior_kept ltac:(lia) ltac:(lia) i j Hc)).
  rewrite (proj2 (source_pass ltac:(lia) ltac:(lia))) by done.
  by apply interior_pass.
Qed.

Lemma next_at_source :
  next_source (xs1 cfg) (ys1 cfg) = source_value cfg n ∧
  next_edges (xs1 cfg) (ys1 cfg) = source_value cfg n ∧
  next_corners (xs1 cfg) (ys1 cfg) = source_value cfg n.
Proof.
  destruct Hsrc as [Hx Hy].
  destruct (next_interior_kept ltac:(lia) ltac:(lia) (xs1 cfg) (ys1 cfg))
    as [He Hc]; [unfold interior_cell; lia|].
  rewrite He, Hc. split_and!; apply source_pass; lia.
Qed.

End Inside.
End Iteration.

(** * The program over the real numbers *)

(** The exact-arithmetic reading of [double]: every operation is the real
    one it rounds.  The program computes on binary64, not on the reals:
    this instance serves worked instances of the general theorems and the
    exact values of the counterexamples only, and no property of the
    program is proved for it alone. *)
#[export] Instance R_scalar : Scalar := {|
  double := R;
  f0 := 0%R;
  f1 := 1%R;
  fhalf := 0.5%R;
  M_PI := PI;
  of_int := IZR;
  fadd := Rplus;
  fsub := Rminus;
  fmul := Rmult;
  fdiv := Rdiv;
  fneg := Ropp;
  fsqrt := sqrt;
  fexp := exp;
  fsin := sin;
  fpow2 := λ x, (x ^ 2)%R;
  indeterminate := 1%R
|}.

(** The configuration the source is compiled with: the spacings, constants
    and source location of the macros, [Nx = Ny = 84] (what the [Nx] and
    [Ny] macros evaluate to on binary64, see [nodes_binary64]), and the
    literal factor [1] of the source term. *)
Definition wave_sim : Config := {|
  dx := 0.12e-6%R;
  dy := 0.12e-6%R;
  Nx := 84;
  Ny := 84;
  n_stop := 150;
  l := 1.0e-6%R;
  w := 18.0e-15%R;
  T0 := 4.0e-15%R;
  c := 299792458;
  xs1 := 50;
  ys1 := 50;
  amplitude := 1%R
|}.

Lemma wave_sim_source_inside : source_inside wave_sim.
Proof. unfold source_inside. simpl. lia. Qed.

(** * The laws of one time step *)

Section Laws.
Context `{Sc : Scalar}.
Variable cfg : Config.

Local Open Scope double_scope.

(** C1. At every time step, once the interior loops have run and before
    the source node is set, the new level at every interior node [(i, j)],
    [1 <= i <= Nx - 2] and [1 <= j <= Ny - 2], is
    [2*cur[i,j] + thx*(cur[i+1,j] - 2*cur[i,j] + cur[i-1,j])
     + thy*(cur[i,j+1] - 2*cur[i,j] + cur[i,j-1]) - prev[i,j]]
    where [thx] is the square of [c*dt/dx] and [thy] the square of
    [c*dt/dy]: a function of the current and the previous level as the
    step found them, and of nothing else.  The coefficients are written
    out here from [c], [dt] and the spacings; the code reaches them
    through its macros [Ox] and [Oy]. *)
Theorem interior_stencil_law (n i j : nat) :
  (1 ≤ i ≤ Nx cfg - 2)%nat → (1 ≤ j ≤ Ny cfg - 2)%nat →
  let st := run cfg n in
  let thx := ((of_int (c cfg) * dt cfg) / dx cfg)
             * ((of_int (c cfg) * dt cfg) / dx cfg) in
  let thy := ((of_int (c cfg) * dt cfg) / dy cfg)
             * ((of_int (c cfg) * dt cfg) / dy cfg) in
  next_interior cfg st i j
  = of_int 2 * current st i j
    + thx * (current st (i + 1) j - of_int 2 * current st i j
             + current st (i - 1) j)
    + thy * (current st i (j + 1) - of_int 2 * current st i j
             + current st i (j - 1))
    - previous st i j.
Proof.
  intros Hi Hj st thx thy.
  rewrite (interior_pass cfg st (run_wf cfg n)) by (unfold interior_cell; lia).
  reflexivity.
Qed.

(** C2. At every time step, once the four edge loops have run, the new
    level obeys on the right edge
    [next[Nx-1,j] = cur[Nx-2,j] + Rx*(next[Nx-2,j] - cur[Nx-1,j])],
    on the left edge the mirrored rule with [Rx], and on the top and
    bottom edges the mirrored rules with [Ry], for every interior [j]
    (resp. [i]); the new-level values the rules read are the interior
    ones as they stood before the edge loops. *)
Theorem edge_law (n i j : nat) :
  (1 ≤ i ≤ Nx cfg - 2)%nat → (1 ≤ j ≤ Ny cfg - 2)%nat →
  let st := run cfg n in
  let next := next_edges cfg n st in
  (next (Nx cfg - 1)%nat j
   = current st (Nx cfg - 2) j
     + Rx cfg * (next (Nx cfg - 2)%nat j - current st (Nx cfg - 1) j)) ∧
  (next 0%nat j
   = current st 1 j + Rx cfg * (next 1%nat j - current st 0 j)) ∧
  (next i (Ny cfg - 1)%nat
   = current st i (Ny cfg - 2)
     + Ry cfg * (next i (Ny cfg - 2)%nat - current st i (Ny cfg - 1))) ∧
  (next i 0%nat
   = current st i 1 + Ry cfg * (next i 1%nat - current st i 0)) ∧
  next (Nx cfg - 2)%nat j = next_source cfg n st (Nx cfg - 2) j ∧
  next 1%nat j = next_source cfg n st 1 j ∧
  next i (Ny cfg - 2)%nat = next_source cfg n st i (Ny cfg - 2) ∧
  next i 1%nat = next_source cfg n st i 1.
Proof.
  intros Hi Hj st next. unfold next.
  pose proof (run_wf cfg n) as Hwf. fold st in Hwf.
  assert (3 ≤ Nx cfg)%nat as HNx by lia.
  assert (3 ≤ Ny cfg)%nat as HNy by lia.
  assert (∀ i' j', interior_cell cfg i' j' →
    next_edges cfg n st i' j' = next_source cfg n st i' j') as Hkept.
  { intros i' j' Hc. by apply (next_interior_kept cfg n st Hwf HNx HNy). }
  rewrite (Hkept (Nx cfg - 2)%nat j), (Hkept 1%nat j),
    (Hkept i (Ny cfg - 2)%nat), (Hkept i 1%nat)
    by (unfold interior_cell; lia).
  split_and!; try done.
  - apply right_edge_value; [done..|lia].
  - apply left_edge_value; [done..|lia].
  - apply top_edge_value; [done..|lia].
  - apply bottom_edge_value; [done..|lia].
Qed.

(** C3. At every time step [n], counted from 0, the source node holds
    [amplitude * exp(-((n*dt - T0) / (w/2))^2) * sin((2*pi*c / l) * n*dt)]
    once it has been set, whatever the interior loops had put there, and
    still holds it after the edge loops and after the corner
    assignments. *)
Theorem source_law (n : nat) :
  source_inside cfg →
  let st := run cfg n in
  let forcing :=
    amplitude cfg
    * fexp (- fpow2 ((of_int (Z.of_nat n) * dt cfg - T0 cfg)
                     / (w cfg / of_int 2)))
    * fsin (((of_int 2 * M_PI * of_int (c cfg)) / l cfg)
            * (of_int (Z.of_nat n) * dt cfg)) in
  next_source cfg n st (xs1 cfg) (ys1 cfg) = forcing ∧
  next_edges cfg n st (xs1 cfg) (ys1 cfg) = forcing ∧
  next_corners cfg n st (xs1 cfg) (ys1 cfg) = forcing.
Proof.
  intros Hsrc st forcing.
  apply (next_at_source cfg n st (run_wf cfg n) Hsrc).
Qed.

(** C4. At every time step the corners are assigned after the four edge
    loops, and at the end of the step each corner is 0.5 times the sum of
    the two edge nodes next to it, which still hold what the edge loops
    gave them. *)
Theorem corner_law (n : nat) :
  (3 ≤ Nx cfg)%nat → (3 ≤ Ny cfg)%nat →
  let st := run cfg n in
  let next := next_corners cfg n st in
  let edge := next_edges cfg n st in
  let X := (Nx cfg - 1)%nat in
  let X' := (Nx cfg - 2)%nat in
  let Y := (Ny cfg - 1)%nat in
  let Y' := (Ny cfg - 2)%nat in
  next 0%nat 0%nat = fhalf * (next 1%nat 0%nat + next 0%nat 1%nat) ∧
  next X 0%nat = fhalf * (next X' 0%nat + next X 1%nat) ∧
  next X Y = fhalf * (next X' Y + next X Y') ∧
  next 0%nat Y = fhalf * (next 0%nat Y' + next 1%nat Y) ∧
  next 1%nat 0%nat = edge 1%nat 0%nat ∧ next 0%nat 1%nat = edge 0%nat 1%nat ∧
  next X' 0%nat = edge X' 0%nat ∧ next X 1%nat = edge X 1%nat ∧
  next X' Y = edge X' Y ∧ next X Y' = edge X Y' ∧
  next 0%nat Y' = edge 0%nat Y' ∧ next 1%nat Y = edge 1%nat Y.
Proof.
  intros HNx HNy st next edge X X' Y Y'. unfold next, edge, X, X', Y, Y'.
  pose proof (run_wf cfg n) as Hwf. fold st in Hwf.
  assert (∀ i j, edge_cell cfg i j →
    next_corners cfg n st i j = next_edges cfg n st i j) as Hkept.
  { intros i j Hc. by apply (next_edge_kept cfg n st Hwf HNx HNy). }
  rewrite (Hkept 1 0)%nat, (Hkept 0 1)%nat, (Hkept (Nx cfg - 2) 0)%nat,
    (Hkept (Nx cfg - 1) 1)%nat, (Hkept (Nx cfg - 2) (Ny cfg - 1))%nat,
    (Hkept (Nx cfg - 1) (Ny cfg - 2))%nat, (Hkept 0 (Ny cfg - 2))%nat,
    (Hkept 1 (Ny cfg - 1))%nat
    by (unfold edge_cell, left_cell, right_cell, top_cell, bottom_cell; lia).
  destruct (corner_values cfg n st Hwf HNx HNy) as (H1 & H2 & H3 & H4).
  split_and!; done.
Qed.

Lemma loop_body_pointers n st :
  Un0 (loop_body cfg n st) = Un_p1 st ∧
  Un_m1 (loop_body cfg n st) = Un0 st ∧
  Un_p1 (loop_body cfg n st) = Un_m1 st.
Proof. done. Qed.

Lemma loop_body_dom n st : dom (mem (loop_body cfg n st)) = dom (mem st).
Proof.
  simpl.
  apply (touches_passes cfg n (Un_p1 st) (Un0 st) (Un_m1 st) (mem st)).
Qed.

Lemma run_dom k : dom (mem (run cfg k)) = dom (mem (startup cfg)).
Proof.
  induction k as [|k IH]; [done|].
  by rewrite run_succ, loop_body_dom.
Qed.

(** C5. The swap at the end of a step only relabels the three grids: the
    heap is left as it is, the grid that was the previous level becomes
    the target of the next step, the current level becomes the previous
    one and the new level the current one.  Hence the same three distinct
    grids serve all the steps, and the current grid of a step is the grid
    that was the new level of the step before. *)
Theorem rotation_law :
  (∀ st, mem (swap_references st) = mem st ∧
         frames (swap_references st) = frames st ∧
         Un_p1 (swap_references st) = Un_m1 st ∧
         Un_m1 (swap_references st) = Un0 st ∧
         Un0 (swap_references st) = Un_p1 st) ∧
  (∀ k, let st := run cfg k in
        NoDup [Un_p1 st; Un0 st; Un_m1 st] ∧
        dom (mem st) = {[Un_p1 st; Un0 st; Un_m1 st]} ∧
        dom (mem st) = dom (mem (startup cfg)) ∧
        size (dom (mem st)) = 3%nat) ∧
  (∀ k, Un0 (run cfg (S k)) = Un_p1 (run cfg k) ∧
        Un_m1 (run cfg (S k)) = Un0 (run cfg k) ∧
        Un_p1 (run cfg (S k)) = Un_m1 (run cfg k)).
Proof.
  split_and!.
  - done.
  - intros k st. destruct (run_wf cfg k) as (H10 & H1m & H0m & Hdom & _).
    fold st in H10, H1m, H0m, Hdom. split_and!.
    + repeat constructor; set_solver.
    + done.
    + apply run_dom.
    + rewrite Hdom.
      rewrite !size_union, !size_singleton by set_solver. done.
  - intros k. rewrite run_succ. apply loop_body_pointers.
Qed.

(** C10. Within every iteration the interior loops, the source
    assignment, the edge loops and the corner assignments write the new
    level only: up to the swap, the grids holding the current and the
    previous level keep their contents, no grid appears or disappears, and
    the three pointers keep their values. *)
Theorem passes_write_next_only (n : nat) :
  let st := run cfg n in
  Un0 st ≠ Un_p1 st ∧ Un_m1 st ≠ Un_p1 st ∧
  Forall (λ st',
      mem st' !! Un0 st = mem st !! Un0 st ∧
      mem st' !! Un_m1 st = mem st !! Un_m1 st ∧
      dom (mem st') = dom (mem st) ∧
      Un_p1 st' = Un_p1 st ∧ Un0 st' = Un0 st ∧ Un_m1 st' = Un_m1 st)
    [after_interior cfg st; after_source cfg n st; after_edges cfg n st;
     after_corners cfg n st;
     printWave (Un_p1 st) (Nx cfg) (Ny cfg) (after_corners cfg n st)] ∧
  loop_body cfg n st
  = swap_references
      (printWave (Un_p1 st) (Nx cfg) (Ny cfg) (after_corners cfg n st)).
Proof.
  intros st. pose proof (run_wf cfg n) as Hwf. fold st in Hwf.
  destruct Hwf as (H10 & H1m & H0m & Hok).
  assert (Un0 st ≠ Un_p1 st) as H01 by done.
  assert (Un_m1 st ≠ Un_p1 st) as Hm1 by done.
  destruct (passes_frame cfg n st (Un0 st) H01) as (A1 & A2 & A3 & A4).
  destruct (passes_frame cfg n st (Un_m1 st) Hm1) as (B1 & B2 & B3 & B4).
  pose proof (touches_interior_nodes cfg (Nx cfg) (Ny cfg)
    (Un_p1 st) (Un0 st) (Un_m1 st) (mem st)) as (D1 & _).
  pose proof (touches_source_node cfg (Nx cfg) (Ny cfg) (Un_p1 st) n
    (mem (after_interior cfg st))) as (D2 & _).
  pose proof (touches_edge_nodes cfg (Nx cfg) (Ny cfg) (Un_p1 st) (Un0 st)
    (mem (after_source cfg n st))) as (D3 & _).
  pose proof (touches_corner_nodes cfg (Nx cfg) (Ny cfg) (Un_p1 st)
    (mem (after_edges cfg n st))) as (D4 & _).
  split_and!; try done.
  repeat constructor; simpl in *; congruence.
Qed.

End Laws.

(** Instances of the laws on the configuration the source is compiled
    with. *)

Lemma interior_stencil_law_wave_sim :
  let st := run wave_sim 7 in
  let thx := ((of_int (c wave_sim) * dt wave_sim) / dx wave_sim
              * ((of_int (c wave_sim) * dt wave_sim) / dx wave_sim))%D in
  let thy := ((of_int (c wave_sim) * dt wave_sim) / dy wave_sim
              * ((of_int (c wave_sim) * dt wave_sim) / dy wave_sim))%D in
  (next_interior wave_sim st 50 50
   = of_int 2 * current st 50 50
     + thx * (current st (50 + 1) 50 - of_int 2 * current st 50 50
              + current st (50 - 1) 50)
     + thy * (current st 50 (50 + 1) - of_int 2 * current st 50 50
              + current st 50 (50 - 1))
     - previous st 50 50)%D.
Proof.
  apply (interior_stencil_law wave_sim 7 50 50).
  - simpl. lia.
  - simpl. lia.
Defined.

Lemma edge_law_wave_sim :
  let st := run wave_sim 7 in
  let next := next_edges wave_sim 7 st in
  (next (Nx wave_sim - 1)%nat 50%nat
   = current st (Nx wave_sim - 2) 50
     + Rx wave_sim * (next (Nx wave_sim - 2)%nat 50%nat
                      - current st (Nx wave_sim - 1) 50))%D.
Proof.
  assert (1 ≤ 50 ≤ Nx wave_sim - 2) as Hi by (simpl; lia).
  assert (1 ≤ 50 ≤ Ny wave_sim - 2) as Hj by (simpl; lia).
  exact (proj1 (edge_law wave_sim 7 50 50 Hi Hj)).
Defined.

Lemma source_law_wave_sim :
  next_corners wave_sim 7 (run wave_sim 7) 50 50
  = (1 * exp (- ((7 * dt wave_sim - 4.0e-15) / (18.0e-15 / 2)) ^ 2)
     * sin (2 * PI * 299792458 / 1.0e-6 * (7 * dt wave_sim)))%R.
Proof.
  exact (proj2 (proj2 (source_law wave_sim 7 wave_sim_source_inside))).
Defined.

Lemma corner_law_wave_sim :
  let next := next_corners wave_sim 7 (run wave_sim 7) in
  (next 0%nat 0%nat = fhalf * (next 1%nat 0%nat + next 0%nat 1%nat))%D.
Proof.
  assert (3 ≤ Nx wave_sim) as HNx by (simpl; lia).
  assert (3 ≤ Ny wave_sim) as HNy by (simpl; lia).
  exact (proj1 (corner_law wave_sim 7 HNx HNy)).
Defined.

(** * Zeros and finite values *)

(** What the zero-field properties need of the arithmetic: which values
    are zero ([x == 0.0], that is +0.0 or -0.0), which are finite
    ([isfinite(x)]), and how zeros pass through the operations.  These are
    facts of IEEE-754 arithmetic (an infinite or NaN factor is what breaks
    [a * 0 == 0]) and of the C library ([sin] of a zero is that zero); the
    reals satisfy them with every value finite. *)
Class ZeroArith (Sc : Scalar) := {
  fzero : double → Prop;
  ffinite : double → Prop;
  fzero_f0 : fzero f0;
  fzero_add x y : fzero x → fzero y → fzero (x + y)%D;
  fzero_sub x y : fzero x → fzero y → fzero (x - y)%D;
  fzero_mul_l a x : ffinite a → fzero x → fzero (a * x)%D;
  fzero_mul_r x a : fzero x → ffinite a → fzero (x * a)%D;
  ffinite_two : ffinite (of_int 2);
  ffinite_half : ffinite fhalf;
  fzero_of_int_0 : fzero (of_int 0);
  fzero_sin x : fzero x → fzero (fsin x)
}.

Ltac to_R :=
  cbn [double f0 f1 fhalf M_PI of_int fadd fsub fmul fdiv fneg fsqrt fexp
       fsin fpow2 R_scalar] in *.

Section RealZeros.
Local Open Scope R_scope.

Lemma R_zero_add (x y : R) : x = 0 → y = 0 → x + y = 0.
Proof. lra. Qed.

Lemma R_zero_sub (x y : R) : x = 0 → y = 0 → x - y = 0.
Proof. lra. Qed.

Lemma R_zero_mul_l (a x : R) : True → x = 0 → a * x = 0.
Proof. intros _ ->. lra. Qed.

Lemma R_zero_mul_r (x a : R) : x = 0 → True → x * a = 0.
Proof. intros -> _. lra. Qed.

Lemma R_zero_sin (x : R) : x = 0 → sin x = 0.
Proof. intros ->. exact sin_0. Qed.

End RealZeros.

#[export] Instance R_zero : ZeroArith R_scalar := {|
  fzero := λ x : @double R_scalar, x = 0%R :> R;
  ffinite := λ _ : @double R_scalar, True;
  fzero_f0 := eq_refl;
  fzero_add := R_zero_add;
  fzero_sub := R_zero_sub;
  fzero_mul_l := R_zero_mul_l;
  fzero_mul_r := R_zero_mul_r;
  ffinite_two := I;
  ffinite_half := I;
  fzero_of_int_0 := eq_refl;
  fzero_sin := R_zero_sin
|}.

(** * Fields that are zero *)

Section Zero.
Context `{Sc : Scalar} `{ZA : !ZeroArith Sc}.
Variable cfg : Config.
Implicit Types (h : heap) (st : state) (A : nat → Prop).

Local Open Scope double_scope.

(** The coefficients of the interior assignment, and those of the edge
    loops, are finite numbers. *)
Definition finite_stencil : Prop :=
  ffinite (theta_x cfg) ∧ ffinite (theta_y cfg).
Definition finite_edges : Prop :=
  ffinite (Rx cfg) ∧ ffinite (Ry cfg).

(** The two factors of the source term that follow the leading one. *)
Definition envelope (n : nat) : double :=
  fexp (- fpow2 ((of_int (Z.of_nat n) * dt cfg - T0 cfg) / (w cfg / of_int 2))).
Definition carrier (n : nat) : double :=
  fsin (((of_int 2 * M_PI * of_int (c cfg)) / l cfg)
        * (of_int (Z.of_nat n) * dt cfg)).

Lemma source_value_factors n :
  source_value cfg n = amplitude cfg * envelope n * carrier n.
Proof. reflexivity. Qed.

(** What makes the source term of step 0 a zero: the time step, the
    angular frequency and the product in front of the sine are finite. *)
Definition finite_onset : Prop :=
  ffinite (dt cfg) ∧
  ffinite ((of_int 2 * M_PI * of_int (c cfg)) / l cfg) ∧
  ffinite (amplitude cfg * envelope 0).

(** The right-hand sides of the assignments, on operands that are zero. *)
Lemma stencil_form_zero (u e w' n s p : double) :
  finite_stencil →
  fzero u → fzero e → fzero w' → fzero n → fzero s → fzero p →
  fzero (of_int 2 * u + theta_x cfg * (e - of_int 2 * u + w')
         + theta_y cfg * (n - of_int 2 * u + s) - p).
Proof.
  intros [Hx Hy] Hu He Hw Hn Hs Hp.
  assert (fzero (of_int 2 * u)) as H2 by (apply fzero_mul_l; [apply ffinite_two|done]).
  apply fzero_sub; [|done].
  apply fzero_add; [apply fzero_add; [done|]|].
  - apply fzero_mul_l; [done|]. apply fzero_add; [|done]. by apply fzero_sub.
  - apply fzero_mul_l; [done|]. apply fzero_add; [|done]. by apply fzero_sub.
Qed.

Lemma edge_form_zero (r a b d : double) :
  ffinite r → fzero a → fzero b → fzero d → fzero (a + r * (b - d)).
Proof.
  intros Hr Ha Hb Hd. apply fzero_add; [done|].
  apply fzero_mul_l; [done|]. by apply fzero_sub.
Qed.

Lemma corner_form_zero (a b : double) :
  fzero a → fzero b → fzero (fhalf * (a + b)).
Proof.
  intros Ha Hb. apply fzero_mul_l; [apply ffinite_half|]. by apply fzero_add.
Qed.

(** With a zero leading factor and finite other factors the source term
    is a zero. *)
Lemma source_value_quiet n :
  fzero (amplitude cfg) → ffinite (envelope n) → ffinite (carrier n) →
  fzero (source_value cfg n).
Proof.
  intros Ha He Hc. rewrite source_value_factors.
  apply fzero_mul_r; [|done]. by apply fzero_mul_r.
Qed.

(** At step 0 the source term is a zero: its sine factor is the sine of a
    zero. *)
Lemma source_value_0 : finite_onset → fzero (source_value cfg 0).
Proof.
  intros (Hdt & Hom & Hae). rewrite source_value_factors.
  apply fzero_mul_l; [done|]. unfold carrier. apply fzero_sin.
  apply fzero_mul_l; [done|].
  apply fzero_mul_r; [apply fzero_of_int_0|done].
Qed.

(** Every read of the grids at the addresses in [A] gives a zero. *)
Definition zero_on A h : Prop := ∀ q i j, A q → fzero (load h q i j).

(** The three time levels of a state are zero at every node. *)
Definition levels_zero st : Prop :=
  zero_on (λ q, q = Un_p1 st ∨ q = Un0 st ∨ q = Un_m1 st) (mem st).

Lemma zero_on_store A h p i j (v : double) :
  zero_on A h → fzero v → zero_on A (store h p i j v).
Proof.
  intros Hz Hv q i' j' Hq.
  destruct (load_store_cases h p q i j i' j' v) as [->| ->]; [done|by apply Hz].
Qed.

Lemma zero_on_for_loop A lo hi (body : nat → heap → heap) h :
  (∀ k t, zero_on A t → zero_on A (body k t)) →
  zero_on A h → zero_on A (for_loop lo hi body h).
Proof.
  intros Hbody Hz.
  destruct (decide (lo ≤ hi)%nat) as [Hle|Hgt]; cycle 1.
  { by rewrite for_loop_empty by lia. }
  apply (for_loop_invariant (λ _ t, zero_on A t)); [done|done|].
  intros k t _. apply Hbody.
Qed.

Lemma zero_on_interior_nodes A p1 p0 m1 h :
  finite_stencil →
  A p0 → A m1 → zero_on A h → zero_on A (interior_nodes cfg p1 p0 m1 h).
Proof.
  intros Hfin H0 Hm Hz. unfold interior_nodes.
  apply zero_on_for_loop; [|done]. intros jj t Ht.
  apply zero_on_for_loop; [|done]. intros ii t' Ht'.
  apply zero_on_store; [done|].
  apply stencil_form_zero; first done; by apply Ht'.
Qed.

Lemma zero_on_edge_nodes A p1 p0 h :
  finite_edges →
  A p1 → A p0 → zero_on A h → zero_on A (edge_nodes cfg p1 p0 h).
Proof.
  intros [Hrx Hry] H1 H0 Hz. unfold edge_nodes.
  unfold bottom_nodes, top_nodes, right_nodes, left_nodes. cbv zeta.
  repeat (apply zero_on_for_loop;
    [intros k t Ht; apply zero_on_store; [done|];
     apply edge_form_zero; first [exact Hrx | exact Hry | by apply Ht]|]).
  done.
Qed.

Lemma zero_on_corner_nodes A p1 h :
  A p1 → zero_on A h → zero_on A (corner_nodes cfg p1 h).
Proof.
  intros H1 Hz. unfold corner_nodes. cbv zeta.
  repeat (match goal with
          | |- zero_on _ (store ?t _ _ _ _) =>
              assert (zero_on A t) as Ht;
              [|apply zero_on_store;
                [exact Ht|apply corner_form_zero; by apply Ht]]
          end).
  done.
Qed.

(** One full step whose source term is a zero keeps the three levels
    zero. *)
Lemma levels_zero_loop_body n st :
  finite_stencil → finite_edges →
  fzero (source_value cfg n) → levels_zero st →
  levels_zero (loop_body cfg n st).
Proof.
  intros Hfs Hfe Hsv Hz. unfold levels_zero in *. simpl.
  set (A := λ q, q = Un_p1 st ∨ q = Un0 st ∨ q = Un_m1 st) in Hz.
  assert (zero_on A (corner_nodes cfg (Un_p1 st) (edge_nodes cfg (Un_p1 st) (Un0 st)
    (source_node cfg n (Un_p1 st)
      (interior_nodes cfg (Un_p1 st) (Un0 st) (Un_m1 st) (mem st)))))) as HA.
  { apply zero_on_corner_nodes; [by left|].
    apply zero_on_edge_nodes; [done|by left|by right; left|].
    apply zero_on_store; [|done].
    apply zero_on_interior_nodes; [done|by right; left|by right; right|done]. }
  intros q i j Hq. apply HA. unfold A. tauto.
Qed.

Lemma startup_zero_on A : zero_on A (mem (startup cfg)).
Proof. intros q i j _. rewrite (startup_zero cfg q i j). apply fzero_f0. Qed.

Lemma startup_levels_zero : levels_zero (startup cfg).
Proof. apply startup_zero_on. Qed.

(** With a zero amplitude the levels of [main] are zero at every step. *)
Lemma levels_zero_run :
  fzero (amplitude cfg) →
  finite_stencil → finite_edges →
  (∀ n, ffinite (envelope n)) → (∀ n, ffinite (carrier n)) →
  ∀ k, levels_zero (run cfg k).
Proof.
  intros Ha Hfs Hfe Henv Hcar.
  induction k as [|k IH]; [apply startup_levels_zero|].
  rewrite run_succ. apply levels_zero_loop_body; [done..| |done].
  by apply source_value_quiet.
Qed.

(** C6, as the code has it.  With a source amplitude that is zero, and
    with finite coefficients and finite exponential and sine factors of
    the source term, a state whose three time levels are zero at every
    node is taken by one full step (interior, source, edges, corners,
    swap) to a state whose three time levels are zero at every node;
    [main] starts from such a state, so its three levels are zero after
    any number of steps. *)
Theorem zero_source_invariant :
  fzero (amplitude cfg) →
  finite_stencil → finite_edges →
  (∀ n, ffinite (envelope n)) → (∀ n, ffinite (carrier n)) →
  (∀ n st, levels_zero st → levels_zero (loop_body cfg n st)) ∧
  (∀ k i j,
     let st := run cfg k in
     fzero (load (mem st) (Un_p1 st) i j) ∧
     fzero (current st i j) ∧ fzero (previous st i j)).
Proof.
  intros Ha Hfs Hfe Henv Hcar.
  split.
  - intros n st. apply levels_zero_loop_body; [done..|].
    by apply source_value_quiet.
  - intros k i j st. unfold current, previous.
    pose proof (levels_zero_run Ha Hfs Hfe Henv Hcar k) as Hrun.
    split_and!; apply Hrun; tauto.
Qed.

End Zero.

(** The shipped configuration with the source switched off. *)
Definition quiet : Config := {|
  dx := dx wave_sim; dy := dy wave_sim; Nx := 84; Ny := 84; n_stop := 150;
  l := l wave_sim; w := w wave_sim; T0 := T0 wave_sim; c := c wave_sim;
  xs1 := 50; ys1 := 50;
  amplitude := 0%R
|}.

Lemma zero_source_invariant_quiet :
  current (run quiet 150) 50 50 = 0%R.
Proof.
  assert (@finite_stencil R_scalar R_zero quiet) as Hfs by (by split).
  assert (@finite_edges R_scalar R_zero quiet) as Hfe by (by split).
  exact (proj1 (proj2 (proj2 (zero_source_invariant quiet eq_refl Hfs Hfe
    (λ _, I) (λ _, I)) 150 50 50))).
Defined.

(** * The program with every array access checked

    Reading or writing [array[i][j]] outside the allocation is undefined
    in C; [get] reads 0.0 there and [set] does nothing.  The checked
    program takes the steps of [main] and stops, with [None], at the first
    access that C leaves undefined: before each assignment it looks up
    every cell the assignment reads or writes, with the indices computed
    on [int] as the source computes them.  Where it does not stop, the C
    program is defined and does what [main] does. *)

Section Checked.
Context `{Sc : Scalar}.
Implicit Types (h : heap) (st : state).

(** The cell [array[i][j]] for [int] indices: [None] when no grid is
    allocated at [array] or an index is outside it. *)
Definition cell h (array : addr) (i j : Z) : option double :=
  g ← h !! array;
  row ← (if decide (0 ≤ i)%Z then g !! Z.to_nat i else None);
  if decide (0 ≤ j)%Z then row !! Z.to_nat j else None.

(** [a], provided every cell of [cells] exists. *)
Definition guard {A : Type} h (cells : list (addr * Z * Z)) (a : A) : option A :=
  if decide (Forall (λ x, is_Some (cell h x.1.1 x.1.2 x.2)) cells)
  then Some a else None.

(** The counted loop whose body may stop. *)
Definition for_loop_checked {S : Type} (lo hi : nat)
    (body : nat → S → option S) (s : S) : option S :=
  fold_left (λ acc k, acc ≫= body k) (seq lo (hi - lo)) (Some s).

(** [initializeArray] *)
Definition initializeArray_checked (array : addr) (rows cols : nat) h
    : option heap :=
  for_loop_checked 0 rows (λ i h,
    for_loop_checked 0 cols (λ j h,
      guard h [(array, Z.of_nat i, Z.of_nat j)]
        (store h array i j f0)) h) h.

(** [free2DArray]: the [rows] row blocks, then the block of row pointers. *)
Definition free2DArray_checked (array : addr) (rows : nat) h : option heap :=
  g ← h !! array;
  if decide (length g = rows) then Some (free2DArray array rows h) else None.

Variable cfg : Config.

Local Open Scope double_scope.

Definition interior_nodes_checked (Un_p1 Un0 Un_m1 : addr) h : option heap :=
  for_loop_checked 1 (Ny cfg - 1) (λ jj h,
    for_loop_checked 1 (Nx cfg - 1) (λ ii h,
      let i := Z.of_nat ii in
      let j := Z.of_nat jj in
      guard h [(Un_p1, i, j); (Un0, i, j); (Un0, i + 1, j); (Un0, i - 1, j);
               (Un0, i, j + 1); (Un0, i, j - 1); (Un_m1, i, j)]%Z
        (store h Un_p1 ii jj (stencil cfg h Un0 Un_m1 ii jj))) h) h.

Definition source_node_checked (n : nat) (Un_p1 : addr) h : option heap :=
  guard h [(Un_p1, Z.of_nat (xs1 cfg), Z.of_nat (ys1 cfg))]
    (store h Un_p1 (xs1 cfg) (ys1 cfg) (source_value cfg n)).

Definition left_nodes_checked (Un_p1 Un0 : addr) h : option heap :=
  let ii := 0%nat in
  for_loop_checked 1 (Ny cfg - 1) (λ jj h,
    let i := 0%Z in
    let j := Z.of_nat jj in
    guard h [(Un_p1, i, j); (Un0, i + 1, j); (Un_p1, i + 1, j); (Un0, i, j)]%Z
      (store h Un_p1 ii jj
         (load h Un0 (ii + 1) jj
          + (((of_int (c cfg) * dt cfg - dx cfg)
              / (of_int (c cfg) * dt cfg + dx cfg))
             * (load h Un_p1 (ii + 1) jj - load h Un0 ii jj))))) h.

Definition right_nodes_checked (Un_p1 Un0 : addr) h : option heap :=
  let ii := (Nx cfg - 1)%nat in
  for_loop_checked 1 (Ny cfg - 1) (λ jj h,
    let i := (Z.of_nat (Nx cfg) - 1)%Z in
    let j := Z.of_nat jj in
    guard h [(Un_p1, i, j); (Un0, i - 1, j); (Un_p1, i - 1, j); (Un0, i, j)]%Z
      (store h Un_p1 ii jj
         (load h Un0 (ii - 1) jj
          + (((of_int (c cfg) * dt cfg - dx cfg)
              / (of_int (c cfg) * dt cfg + dx cfg))
             * (load h Un_p1 (ii - 1) jj - load h Un0 ii jj))))) h.

Definition top_nodes_checked (Un_p1 Un0 : addr) h : option heap :=
  let jj := (Ny cfg - 1)%nat in
  for_loop_checked 1 (Nx cfg - 1) (λ ii h,
    let i := Z.of_nat ii in
    let j := (Z.of_nat (Ny cfg) - 1)%Z in
    guard h [(Un_p1, i, j); (Un0, i, j - 1); (Un_p1, i, j - 1); (Un0, i, j)]%Z
      (store h Un_p1 ii jj
         (load h Un0 ii (jj - 1)
          + (((of_int (c cfg) * dt cfg - dy cfg)
              / (of_int (c cfg) * dt cfg + dy cfg))
             * (load h Un_p1 ii (jj - 1) - load h Un0 ii jj))))) h.

Definition bottom_nodes_checked (Un_p1 Un0 : addr) h : option heap :=
  let jj := 0%nat in
  for_loop_checked 1 (Nx cfg - 1) (λ ii h,
    let i := Z.of_nat ii in
    let j := 0%Z in
    guard h [(Un_p1, i, j); (Un0, i, j + 1); (Un_p1, i, j + 1); (Un0, i, j)]%Z
      (store h Un_p1 ii jj
         (load h Un0 ii (jj + 1)
          + (((of_int (c cfg) * dt cfg - dy cfg)
              / (of_int (c cfg) * dt cfg + dy cfg))
             * (load h Un_p1 ii (jj + 1) - load h Un0 ii jj))))) h.

Definition edge_nodes_checked (Un_p1 Un0 : addr) h : option heap :=
  h ← left_nodes_checked Un_p1 Un0 h;
  h ← right_nodes_checked Un_p1 Un0 h;
  h ← top_nodes_checked Un_p1 Un0 h;
  bottom_nodes_checked Un_p1 Un0 h.

Definition corner_nodes_checked (Un_p1 : addr) h : option heap :=
  let X := Z.of_nat (Nx cfg) in
  let Y := Z.of_nat (Ny cfg) in
  h ← guard h [(Un_p1, 0, 0); (Un_p1, 1, 0); (Un_p1, 0, 1)]%Z
        (store h Un_p1 0 0
           (fhalf * (load h Un_p1 1 0 + load h Un_p1 0 1)));
  h ← guard h [(Un_p1, X - 1, 0); (Un_p1, X - 2, 0); (Un_p1, X - 1, 1)]%Z
        (store h Un_p1 (Nx cfg - 1) 0
           (fhalf * (load h Un_p1 (Nx cfg - 2) 0
                     + load h Un_p1 (Nx cfg - 1) 1)));
  h ← guard h [(Un_p1, X - 1, Y - 1); (Un_p1, X - 2, Y - 1);
               (Un_p1, X - 1, Y - 2)]%Z
        (store h Un_p1 (Nx cfg - 1) (Ny cfg - 1)
           (fhalf * (load h Un_p1 (Nx cfg - 2) (Ny cfg - 1)
                     + load h Un_p1 (Nx cfg - 1) (Ny cfg - 2))));
  guard h [(Un_p1, 0, Y - 1); (Un_p1, 0, Y - 2); (Un_p1, 1, Y - 1)]%Z
    (store h Un_p1 0 (Ny cfg - 1)
       (fhalf * (load h Un_p1 0 (Ny cfg - 2) + load h Un_p1 1 (Ny cfg - 1)))).

(** [printWave] reads every cell of the grid it is handed. *)
Definition printWave_checked (array : addr) (rows cols : nat) st
    : option state :=
  _ ← for_loop_checked 0 rows (λ i u,
        for_loop_checked 0 cols (λ j u,
          guard (mem st) [(array, Z.of_nat i, Z.of_nat j)] u) u) tt;
  Some (printWave array rows cols st).

Definition loop_body_checked (n : nat) st : option state :=
  h ← interior_nodes_checked (Un_p1 st) (Un0 st) (Un_m1 st) (mem st);
  h ← source_node_checked n (Un_p1 st) h;
  h ← edge_nodes_checked (Un_p1 st) (Un0 st) h;
  h ← corner_nodes_checked (Un_p1 st) h;
  st ← printWave_checked (Un_p1 st) (Nx cfg) (Ny cfg) (with_mem st h);
  Some (swap_references st).

Definition startup_checked : option state :=
  let '(p1, h) := allocate2DArray (Nx cfg) (Ny cfg) ∅ in
  let '(p0, h) := allocate2DArray (Nx cfg) (Ny cfg) h in
  let '(m1, h) := allocate2DArray (Nx cfg) (Ny cfg) h in
  h ← initializeArray_checked p1 (Nx cfg) (Ny cfg) h;
  h ← initializeArray_checked p0 (Nx cfg) (Ny cfg) h;
  h ← initializeArray_checked m1 (Nx cfg) (Ny cfg) h;
  Some {| mem := h; Un_p1 := p1; Un0 := p0; Un_m1 := m1; frames := [] |}.

Definition main_checked : option (Z * list grid * heap) :=
  st ← startup_checked;
  st ← for_loop_checked 0 (n_stop cfg) loop_body_checked st;
  h ← free2DArray_checked (Un_p1 st) (Nx cfg) (mem st);
  h ← free2DArray_checked (Un0 st) (Nx cfg) h;
  h ← free2DArray_checked (Un_m1 st) (Nx cfg) h;
  Some (0%Z, frames st, h).

End Checked.

Section CheckedLoops.
Context `{Sc : Scalar}.
Implicit Types (h : heap).

Lemma cell_defined rows cols p h i j :
  allocated rows cols p h →
  (0 ≤ i < Z.of_nat rows)%Z → (0 ≤ j < Z.of_nat cols)%Z →
  is_Some (cell h p i j).
Proof.
  intros (g & Hp & Hlen & Hrows) Hi Hj. unfold cell. rewrite Hp. simpl.
  rewrite decide_True by lia.
  destruct (lookup_lt_is_Some_2 g (Z.to_nat i)) as [row Hrow]; [lia|].
  rewrite Hrow. simpl. rewrite decide_True by lia.
  apply lookup_lt_is_Some_2. rewrite (Hrows _ _ Hrow). lia.
Qed.

Lemma cell_undefined rows cols p h i j :
  allocated rows cols p h →
  ¬ ((0 ≤ i < Z.of_nat rows)%Z ∧ (0 ≤ j < Z.of_nat cols)%Z) →
  cell h p i j = None.
Proof.
  intros (g & Hp & Hlen & Hrows) Hout. unfold cell. rewrite Hp. simpl.
  destruct (decide (0 ≤ i)%Z) as [Hi|Hi]; [|done].
  destruct (g !! Z.to_nat i) as [row|] eqn:Hrow; [|done]. simpl.
  destruct (decide (0 ≤ j)%Z) as [Hj|Hj]; [|done].
  apply lookup_ge_None. rewrite (Hrows _ _ Hrow).
  apply lookup_lt_Some in Hrow. lia.
Qed.

Lemma guard_ok {A : Type} h cells (a : A) :
  Forall (λ x, is_Some (cell h x.1.1 x.1.2 x.2)) cells →
  guard h cells a = Some a.
Proof. intros H. unfold guard. by rewrite decide_True. Qed.

Lemma guard_fails {A : Type} h cells (a : A) p i j :
  (p, i, j) ∈ cells → cell h p i j = None → guard h cells a = None.
Proof.
  intros Hin Hnone. unfold guard. rewrite decide_False; [done|].
  intros Hall. rewrite Forall_forall in Hall.
  specialize (Hall _ Hin). simpl in Hall. rewrite Hnone in Hall.
  by destruct Hall.
Qed.

Lemma guard_Some {A : Type} h cells (a b : A) :
  guard h cells a = Some b → b = a.
Proof. unfold guard. case_decide; congruence. Qed.

(** A checked loop whose every iteration passes its checks makes the
    steps of the unchecked loop. *)
Lemma for_loop_checked_ok {S : Type} (Inv : S → Prop) (lo hi : nat)
    (body : nat → S → S) (bodyc : nat → S → option S) (s : S) :
  Inv s →
  (∀ k t, lo ≤ k < hi → Inv t → bodyc k t = Some (body k t) ∧ Inv (body k t)) →
  for_loop_checked lo hi bodyc s = Some (for_loop lo hi body s) ∧
  Inv (for_loop lo hi body s).
Proof.
  intros Hs Hbody. unfold for_loop_checked, for_loop.
  assert (∀ k, k ∈ seq lo (hi - lo) → lo ≤ k < hi) as Hran.
  { intros k Hk. apply elem_of_seq in Hk. lia. }
  revert s Hs Hran. generalize (seq lo (hi - lo)).
  intros ks. induction ks as [|k ks IH]; intros s Hs Hran; [done|].
  simpl. destruct (Hbody k s) as [-> Hi]; [apply Hran; left|done|].
  apply IH; [done|]. intros k' Hk'. apply Hran. by right.
Qed.

(** Once a check has failed the loop is over. *)
Lemma for_loop_checked_stops {S : Type} (lo hi : nat)
    (bodyc : nat → S → option S) (s : S) :
  lo < hi → bodyc lo s = None → for_loop_checked lo hi bodyc s = None.
Proof.
  intros Hlt Hnone. unfold for_loop_checked.
  replace (hi - lo) with (Datatypes.S (hi - lo - 1)) by lia.
  simpl. rewrite Hnone. generalize (seq (Datatypes.S lo) (hi - lo - 1)).
  intros ks. by induction ks.
Qed.

(** Whatever a checked loop returns, the unchecked loop computes. *)
Lemma for_loop_checked_Some {S : Type} (lo hi : nat)
    (body : nat → S → S) (bodyc : nat → S → option S) (s r : S) :
  (∀ k t u, bodyc k t = Some u → u = body k t) →
  for_loop_checked lo hi bodyc s = Some r → r = for_loop lo hi body s.
Proof.
  intros Hbody. unfold for_loop_checked, for_loop.
  revert s. generalize (seq lo (hi - lo)).
  intros ks. induction ks as [|k ks IH]; intros s; simpl; [congruence|].
  destruct (bodyc k s) as [u|] eqn:Hk.
  - rewrite (Hbody _ _ _ Hk). apply IH.
  - intros Hr. exfalso. revert Hr. clear. induction ks; simpl; [done|auto].
Qed.

End CheckedLoops.

Section CheckedPasses.
Context `{Sc : Scalar}.
Variable cfg : Config.
Variables (p1 p0 m1 : nat).
Implicit Types (h : heap).

Hypothesis HNx : 2 ≤ Nx cfg.
Hypothesis HNy : 2 ≤ Ny cfg.

Lemma heap_ok_allocated h :
  heap_ok cfg h p1 p0 m1 →
  allocated (Nx cfg) (Ny cfg) p1 h ∧ allocated (Nx cfg) (Ny cfg) p0 h ∧
  allocated (Nx cfg) (Ny cfg) m1 h.
Proof.
  intros [Hdom Hall]. split_and!; apply Hall; rewrite Hdom; clear; set_solver.
Qed.

Lemma heap_ok_store h i j v :
  heap_ok cfg h p1 p0 m1 → heap_ok cfg (store h p1 i j v) p1 p0 m1.
Proof.
  apply (touches_heap_ok cfg (λ h, store h p1 i j v) p1).
  apply (touches_store _ _ _ i j (λ _, v)).
Qed.

(** The cells of a guard exist: the three grids are allocated and the
    indices are in range. *)
Ltac cells_exist Hok :=
  let H1 := fresh in let H0 := fresh in let Hm := fresh in
  destruct (heap_ok_allocated _ Hok) as (H1 & H0 & Hm);
  repeat constructor; simpl;
  apply (cell_defined (Nx cfg) (Ny cfg)); first [assumption | lia].

Ltac in_range Hok := apply guard_ok; cells_exist Hok.

Lemma initializeArray_checked_ok p h :
  p = p1 ∨ p = p0 ∨ p = m1 →
  heap_ok cfg h p1 p0 m1 →
  initializeArray_checked p (Nx cfg) (Ny cfg) h
  = Some (initializeArray p (Nx cfg) (Ny cfg) h).
Proof.
  intros Hp Hok.
  apply (for_loop_checked_ok (λ t, heap_ok cfg t p1 p0 m1)); [done|].
  intros i t Hi Ht.
  apply (for_loop_checked_ok (λ t, heap_ok cfg t p1 p0 m1)); [done|].
  intros j u Hj Hu. split.
  - apply guard_ok.
    destruct (heap_ok_allocated _ Hu) as (H1 & H0 & Hm).
    repeat constructor; simpl.
    apply (cell_defined (Nx cfg) (Ny cfg)); [|lia..].
    by destruct Hp as [->|[->| ->]].
  - apply (touches_heap_ok cfg (λ h, store h p i j f0) p); [|done].
    apply (touches_store _ _ _ i j (λ _, f0)).
Qed.

Lemma interior_nodes_checked_ok h :
  heap_ok cfg h p1 p0 m1 →
  interior_nodes_checked cfg p1 p0 m1 h = Some (interior_nodes cfg p1 p0 m1 h).
Proof.
  intros Hok.
  apply (for_loop_checked_ok (λ t, heap_ok cfg t p1 p0 m1)); [done|].
  intros jj t Hjj Ht.
  apply (for_loop_checked_ok (λ t, heap_ok cfg t p1 p0 m1)); [done|].
  intros ii u Hii Hu. split; [in_range Hu|by apply heap_ok_store].
Qed.

Lemma source_node_checked_ok n h :
  xs1 cfg < Nx cfg → ys1 cfg < Ny cfg →
  heap_ok cfg h p1 p0 m1 →
  source_node_checked cfg n p1 h = Some (source_node cfg n p1 h).
Proof. intros Hx Hy Hok. unfold source_node_checked. in_range Hok. Qed.

Lemma left_nodes_checked_ok h :
  heap_ok cfg h p1 p0 m1 →
  left_nodes_checked cfg p1 p0 h = Some (left_nodes cfg p1 p0 h) ∧
  heap_ok cfg (left_nodes cfg p1 p0 h) p1 p0 m1.
Proof.
  intros Hok.
  apply (for_loop_checked_ok (λ t, heap_ok cfg t p1 p0 m1)); [done|].
  intros jj u Hjj Hu. split; [in_range Hu|by apply heap_ok_store].
Qed.

Lemma right_nodes_checked_ok h :
  heap_ok cfg h p1 p0 m1 →
  right_nodes_checked cfg p1 p0 h = Some (right_nodes cfg p1 p0 h) ∧
  heap_ok cfg (right_nodes cfg p1 p0 h) p1 p0 m1.
Proof.
  intros Hok.
  apply (for_loop_checked_ok (λ t, heap_ok cfg t p1 p0 m1)); [done|].
  intros jj u Hjj Hu. split; [in_range Hu|by apply heap_ok_store].
Qed.

Lemma top_nodes_checked_ok h :
  heap_ok cfg h p1 p0 m1 →
  top_nodes_checked cfg p1 p0 h = Some (top_nodes cfg p1 p0 h) ∧
  heap_ok cfg (top_nodes cfg p1 p0 h) p1 p0 m1.
Proof.
  intros Hok.
  apply (for_loop_checked_ok (λ t, heap_ok cfg t p1 p0 m1)); [done|].
  intros ii u Hii Hu. split; [in_range Hu|by apply heap_ok_store].
Qed.

Lemma bottom_nodes_checked_ok h :
  heap_ok cfg h p1 p0 m1 →
  bottom_nodes_checked cfg p1 p0 h = Some (bottom_nodes cfg p1 p0 h) ∧
  heap_ok cfg (bottom_nodes cfg p1 p0 h) p1 p0 m1.
Proof.
  intros Hok.
  apply (for_loop_checked_ok (λ t, heap_ok cfg t p1 p0 m1)); [done|].
  intros ii u Hii Hu. split; [in_range Hu|by apply heap_ok_store].
Qed.

Lemma edge_nodes_checked_ok h :
  heap_ok cfg h p1 p0 m1 →
  edge_nodes_checked cfg p1 p0 h = Some (edge_nodes cfg p1 p0 h).
Proof.
  intros Hok. unfold edge_nodes_checked, edge_nodes.
  destruct (left_nodes_checked_ok h Hok) as [-> Hl]. simpl.
  destruct (right_nodes_checked_ok _ Hl) as [-> Hr]. simpl.
  destruct (top_nodes_checked_ok _ Hr) as [-> Ht]. simpl.
  apply (bottom_nodes_checked_ok _ Ht).
Qed.

Lemma corner_nodes_checked_ok h :
  heap_ok cfg h p1 p0 m1 →
  corner_nodes_checked cfg p1 h = Some (corner_nodes cfg p1 h).
Proof.
  intros Hok. unfold corner_nodes_checked, corner_nodes. cbv zeta.
  rewrite guard_ok by (cells_exist Hok). simpl.
  apply heap_ok_store with (i := 0) (j := 0)
    (v := (fhalf * (load h p1 1 0 + load h p1 0 1))%D) in Hok.
  rewrite guard_ok by (cells_exist Hok). simpl.
  match goal with |- context [guard ?t _ _] =>
    assert (heap_ok cfg t p1 p0 m1) as Hok2 by (by apply heap_ok_store) end.
  rewrite guard_ok by (cells_exist Hok2). simpl.
  match goal with |- context [guard ?t _ _] =>
    assert (heap_ok cfg t p1 p0 m1) as Hok3 by (by apply heap_ok_store) end.
  by rewrite guard_ok by (cells_exist Hok3).
Qed.

Lemma printWave_checked_ok (st : state) p :
  p = p1 ∨ p = p0 ∨ p = m1 →
  heap_ok cfg (mem st) p1 p0 m1 →
  printWave_checked p (Nx cfg) (Ny cfg) st
  = Some (printWave p (Nx cfg) (Ny cfg) st).
Proof.
  intros Hp Hok. unfold printWave_checked.
  assert (∀ lo hi (bodyc : nat → unit → option unit),
    (∀ k, lo ≤ k < hi → bodyc k tt = Some tt) →
    for_loop_checked lo hi bodyc tt = Some tt) as Hunit.
  { intros lo hi bodyc Hb.
    destruct (for_loop_checked_ok (λ _ : unit, True) lo hi
      (λ (_ : nat) (u : unit), u) bodyc tt I) as [-> _].
    - intros k [] Hk _. split; [by apply Hb|done].
    - by destruct (for_loop lo hi (λ (_ : nat) (u : unit), u) tt). }
  rewrite Hunit; [done|].
  intros i Hi. apply Hunit. intros j Hj. apply guard_ok.
  destruct (heap_ok_allocated _ Hok) as (H1 & H0 & Hm).
  repeat constructor; simpl.
  apply (cell_defined (Nx cfg) (Ny cfg)); [|lia..].
  by destruct Hp as [->|[->| ->]].
Qed.

End CheckedPasses.

Section CheckedMain.
Context `{Sc : Scalar}.
Variable cfg : Config.
Implicit Types (h : heap) (st : state).

Hypothesis HNx : 2 ≤ Nx cfg.
Hypothesis HNy : 2 ≤ Ny cfg.

Lemma loop_body_checked_ok n st :
  xs1 cfg < Nx cfg → ys1 cfg < Ny cfg →
  wf_state cfg st → loop_body_checked cfg n st = Some (loop_body cfg n st).
Proof.
  intros Hxs Hys (H10 & H1m & H0m & Hok). unfold loop_body_checked.
  erewrite interior_nodes_checked_ok; [|done..]. simpl.
  apply (touches_heap_ok cfg _ _ _ _ _ _
    (touches_interior_nodes cfg _ _ (Un_p1 st) (Un0 st) (Un_m1 st))) in Hok.
  erewrite source_node_checked_ok; [|done..]. simpl.
  apply (touches_heap_ok cfg _ _ _ _ _ _
    (touches_source_node cfg _ _ (Un_p1 st) n)) in Hok.
  erewrite edge_nodes_checked_ok; [|done..]. simpl.
  apply (touches_heap_ok cfg _ _ _ _ _ _
    (touches_edge_nodes cfg _ _ (Un_p1 st) (Un0 st))) in Hok.
  erewrite corner_nodes_checked_ok; [|done..]. simpl.
  apply (touches_heap_ok cfg _ _ _ _ _ _
    (touches_corner_nodes cfg _ _ (Un_p1 st))) in Hok.
  erewrite printWave_checked_ok; first [done | by left | exact Hok].
Qed.

Lemma startup_checked_ok : startup_checked cfg = Some (startup cfg).
Proof.
  unfold startup_checked, startup, allocate2DArray. cbv zeta.
  set (blank := replicate (Nx cfg) (replicate (Ny cfg) indeterminate)).
  set (a1 := fresh (dom (∅ : heap))).
  set (h1 := <[a1 := blank]> (∅ : heap)).
  set (a2 := fresh (dom h1)).
  set (h2 := <[a2 := blank]> h1).
  set (a3 := fresh (dom h2)).
  set (h3 := <[a3 := blank]> h2).
  assert (heap_ok cfg h3 a1 a2 a3) as Hok.
  { split.
    - unfold h3, h2, h1. rewrite !dom_insert_L, dom_empty_L. set_solver.
    - intros q Hq. unfold allocated. unfold h3, h2, h1 in Hq |- *.
      rewrite !dom_insert_L, dom_empty_L in Hq.
      destruct (decide (q = a3)) as [->|?].
      { exists blank. rewrite lookup_insert_eq.
        split; [done|apply allocate2DArray_shaped]. }
      rewrite lookup_insert_ne by done.
      destruct (decide (q = a2)) as [->|?].
      { exists blank. rewrite lookup_insert_eq.
        split; [done|apply allocate2DArray_shaped]. }
      rewrite lookup_insert_ne by done.
      destruct (decide (q = a1)) as [->|?].
      { exists blank. rewrite lookup_insert_eq.
        split; [done|apply allocate2DArray_shaped]. }
      exfalso. set_solver. }
  erewrite initializeArray_checked_ok; [|first [done | by left | exact Hok]..]. simpl.
  apply (touches_heap_ok cfg _ _ _ _ _ _
    (touches_initializeArray (Nx cfg) (Ny cfg) a1)) in Hok.
  erewrite initializeArray_checked_ok;
    [|first [done | by right; left | exact Hok]..]. simpl.
  apply (touches_heap_ok cfg _ _ _ _ _ _
    (touches_initializeArray (Nx cfg) (Ny cfg) a2)) in Hok.
  erewrite initializeArray_checked_ok;
    first [done | by right; right | exact Hok].
Qed.

Lemma free2DArray_checked_ok p h :
  allocated (Nx cfg) (Ny cfg) p h →
  free2DArray_checked p (Nx cfg) h = Some (free2DArray p (Nx cfg) h).
Proof.
  intros (g & Hp & Hlen & _). unfold free2DArray_checked. rewrite Hp. simpl.
  by rewrite decide_True.
Qed.

(** With at least 2 x 2 nodes, [main] stays inside the allocation as long
    as its loop body does: the start-up and the three releases always
    do. *)
Lemma main_checked_loop :
  (∀ n st, n < n_stop cfg → wf_state cfg st →
     loop_body_checked cfg n st = Some (loop_body cfg n st)) →
  main_checked cfg = Some (main cfg).
Proof.
  intros Hbody.
  unfold main_checked. rewrite startup_checked_ok. simpl.
  destruct (for_loop_checked_ok (wf_state cfg) 0 (n_stop cfg)
    (loop_body cfg) (loop_body_checked cfg) (startup cfg) (startup_wf cfg))
    as [-> Hwf].
  { intros n st Hn Hst. split; [apply Hbody; [lia|done]|].
    by apply loop_body_wf. }
  fold (run cfg (n_stop cfg)) in Hwf |- *. simpl.
  set (st := run cfg (n_stop cfg)) in *.
  destruct (wf_allocated cfg st Hwf) as (A1 & A0 & Am).
  destruct Hwf as (H10 & H1m & H0m & _).
  rewrite (free2DArray_checked_ok _ _ A1). simpl.
  assert (∀ q p h, q ≠ p → allocated (Nx cfg) (Ny cfg) q h →
    allocated (Nx cfg) (Ny cfg) q (free2DArray p (Nx cfg) h)) as Hkeep.
  { intros q p h Hne (g & Hq & Hs). exists g.
    unfold free2DArray. by rewrite lookup_delete_ne. }
  rewrite free2DArray_checked_ok by (apply Hkeep; done). simpl.
  rewrite free2DArray_checked_ok by (do 2 (apply Hkeep; [done|]); done).
  done.
Qed.

(** The first iteration stops at the source assignment when the source
    node is off the grid. *)
Lemma loop_body_checked_off_grid n st :
  wf_state cfg st → ¬ (xs1 cfg < Nx cfg ∧ ys1 cfg < Ny cfg) →
  loop_body_checked cfg n st = None.
Proof.
  intros (H10 & H1m & H0m & Hok) Hoff. unfold loop_body_checked.
  erewrite interior_nodes_checked_ok; [|done..]. simpl.
  apply (touches_heap_ok cfg _ _ _ _ _ _
    (touches_interior_nodes cfg _ _ (Un_p1 st) (Un0 st) (Un_m1 st))) in Hok.
  unfold source_node_checked.
  erewrite guard_fails; [done|by left|].
  destruct (heap_ok_allocated cfg _ _ _ _ Hok) as (A1 & _).
  apply (cell_undefined (Nx cfg) (Ny cfg)); [done|lia].
Qed.

End CheckedMain.

(** * Configurations are never rejected *)

Section Unchecked.
Context `{Sc : Scalar}.
Variable cfg : Config.

Lemma startup_frames : frames (startup cfg) = [].
Proof. reflexivity. Qed.

Lemma run_frames_length k : length (frames (run cfg k)) = k.
Proof.
  induction k as [|k IH]; [done|].
  rewrite run_succ. simpl. rewrite length_app. simpl. lia.
Qed.

Hypothesis HNx : 2 ≤ Nx cfg.
Hypothesis HNy : 2 ≤ Ny cfg.

(** With the source on the grid no access is outside the allocation. *)
Lemma main_checked_ok :
  xs1 cfg < Nx cfg → ys1 cfg < Ny cfg → main_checked cfg = Some (main cfg).
Proof.
  intros Hxs Hys. apply main_checked_loop; [done..|].
  intros n st _ Hst. by apply loop_body_checked_ok.
Qed.

(** C8, as the code has it.  [main] has no check of its configuration.
    With the source on the rim of the grid (on the grid, outside the
    strict interior) and at least 2 x 2 nodes, every array access is
    inside the allocation, so the run is defined; the loop runs all its
    [n_stop] steps, each storing the source term at the source node, one
    frame is printed per step, and the exit status is 0. *)
Theorem rim_source_not_rejected :
  xs1 cfg < Nx cfg → ys1 cfg < Ny cfg →
  ¬ source_inside cfg →
  main_checked cfg = Some (main cfg) ∧
  fst (fst (main cfg)) = 0%Z ∧
  length (snd (fst (main cfg))) = n_stop cfg ∧
  ∀ n, n < n_stop cfg →
    next_source cfg n (run cfg n) (xs1 cfg) (ys1 cfg) = source_value cfg n.
Proof.
  intros Hxs Hys _. split_and!.
  - by apply main_checked_ok.
  - done.
  - unfold main. simpl. apply run_frames_length.
  - intros n _.
    exact (proj1 (source_pass cfg n (run cfg n) (run_wf cfg n) Hxs Hys)).
Qed.

(** X18. For grids of at least 2 x 2 nodes, the accesses of [main] are
    all inside the allocation exactly when the source node is on the grid
    or no step is made at all: then the checked program goes through and
    is [main]; otherwise it stops at the source assignment of the first
    step, where the C program is undefined. *)
Theorem main_accesses_in_range :
  main_checked cfg = Some (main cfg)
  ↔ n_stop cfg = 0 ∨ (xs1 cfg < Nx cfg ∧ ys1 cfg < Ny cfg).
Proof.
  split.
  - intros Hsome.
    destruct (decide (n_stop cfg = 0)) as [?|Hn]; [by left|right].
    destruct (decide (xs1 cfg < Nx cfg ∧ ys1 cfg < Ny cfg)) as [?|Hoff];
      [done|exfalso].
    revert Hsome. unfold main_checked.
    rewrite startup_checked_ok by done. simpl.
    rewrite for_loop_checked_stops; [done|lia|].
    apply loop_body_checked_off_grid; [done..|apply startup_wf|done].
  - intros [Hn|[Hxs Hys]]; [|by apply main_checked_ok].
    apply main_checked_loop; [done..|]. intros n st Hlt. lia.
Qed.

End Unchecked.

(** The shipped configuration with the source moved onto the left edge. *)
Definition source_on_edge : Config := {|
  dx := dx wave_sim; dy := dy wave_sim; Nx := 84; Ny := 84; n_stop := 150;
  l := l wave_sim; w := w wave_sim; T0 := T0 wave_sim; c := c wave_sim;
  xs1 := 0; ys1 := 50;
  amplitude := 1%R
|}.

(** C8 fails: the source of [source_on_edge] is not strictly inside the
    grid, and [main] still runs its 150 steps and prints 150 frames,
    without an access outside the allocation. *)
Lemma source_on_edge_not_rejected :
  ¬ (0 < xs1 source_on_edge < Nx source_on_edge - 1 ∧
     0 < ys1 source_on_edge < Ny source_on_edge - 1) ∧
  main_checked source_on_edge = Some (main source_on_edge) ∧
  length (snd (fst (main source_on_edge))) = 150.
Proof.
  split_and!.
  - simpl. lia.
  - apply main_checked_ok; simpl; lia.
  - unfold main. simpl. apply (run_frames_length source_on_edge 150).
Qed.

Lemma main_accesses_in_range_wave_sim :
  main_checked wave_sim = Some (main wave_sim).
Proof.
  assert (2 ≤ Nx wave_sim) as HNx by (simpl; lia).
  assert (2 ≤ Ny wave_sim) as HNy by (simpl; lia).
  assert (xs1 wave_sim < Nx wave_sim ∧ ys1 wave_sim < Ny wave_sim) as Hon
    by (simpl; lia).
  exact (proj2 (main_accesses_in_range wave_sim HNx HNy) (or_intror Hon)).
Defined.

Lemma rim_source_not_rejected_on_edge :
  main_checked source_on_edge = Some (main source_on_edge) ∧
  length (snd (fst (main source_on_edge))) = n_stop source_on_edge.
Proof.
  assert (2 ≤ Nx source_on_edge) as HNx by (simpl; lia).
  assert (2 ≤ Ny source_on_edge) as HNy by (simpl; lia).
  assert (xs1 source_on_edge < Nx source_on_edge) as Hxs by (simpl; lia).
  assert (ys1 source_on_edge < Ny source_on_edge) as Hys by (simpl; lia).
  assert (¬ source_inside source_on_edge) as Hrim
    by (unfold source_inside; simpl; lia).
  destruct (rim_source_not_rejected source_on_edge HNx HNy Hxs Hys Hrim)
    as (Hc & _ & Hl & _).
  exact (conj Hc Hl).
Defined.

(** * The first step *)

Section FirstStep.
Context `{Sc : Scalar} `{ZA : !ZeroArith Sc}.
Variable cfg : Config.

Local Open Scope double_scope.

Lemma run_0 : run cfg 0 = startup cfg.
Proof. reflexivity. Qed.

Lemma first_interior_zero i j :
  finite_stencil cfg → fzero (next_interior cfg (run cfg 0) i j).
Proof.
  intros Hfs. unfold next_interior. rewrite run_0.
  change (fzero (load
    (interior_nodes cfg (Un_p1 (startup cfg)) (Un0 (startup cfg))
       (Un_m1 (startup cfg)) (mem (startup cfg)))
    (Un_p1 (startup cfg)) i j)).
  apply (zero_on_interior_nodes cfg (λ _, True)); [done..| |done].
  apply startup_zero_on.
Qed.

(** After the interior loops and the source assignment of step 0, every
    node other than the source is a zero, and the source holds the source
    term at [n = 0], which is a zero as well. *)
Lemma first_source_pass :
  source_inside cfg → finite_stencil cfg → finite_onset cfg →
  (∀ i j, (i, j) ≠ (xs1 cfg, ys1 cfg) →
     fzero (next_source cfg 0 (run cfg 0) i j)) ∧
  next_source cfg 0 (run cfg 0) (xs1 cfg) (ys1 cfg) = source_value cfg 0 ∧
  fzero (next_source cfg 0 (run cfg 0) (xs1 cfg) (ys1 cfg)).
Proof.
  intros [Hx Hy] Hfs Hon.
  destruct (source_pass cfg 0 (run cfg 0) (run_wf cfg 0)
    ltac:(lia) ltac:(lia)) as [Hs Ho].
  split_and!.
  - intros i j Hne. rewrite Ho by done. by apply first_interior_zero.
  - done.
  - rewrite Hs. by apply source_value_0.
Qed.

(** C7, as the code has it.  On a 7 x 7 grid with the source at (3,3),
    with finite stencil coefficients, time step, angular frequency and
    product in front of the sine, after the interior loops and the source
    assignment of the first step from all-zero levels, every node other
    than (3,3) is zero and node (3,3) holds the source term at [n = 0];
    that term is zero, so the whole new level is zero. *)
Theorem first_step_scenario :
  Nx cfg = 7 → Ny cfg = 7 → xs1 cfg = 3 → ys1 cfg = 3 →
  finite_stencil cfg → finite_onset cfg →
  let next := next_source cfg 0 (run cfg 0) in
  (∀ i j, (i, j) ≠ (3, 3) → fzero (next i j)) ∧
  next 3 3
  = amplitude cfg
    * fexp (- fpow2 ((of_int 0 * dt cfg - T0 cfg) / (w cfg / of_int 2)))
    * fsin (((of_int 2 * M_PI * of_int (c cfg)) / l cfg)
            * (of_int 0 * dt cfg)) ∧
  fzero (next 3 3).
Proof.
  intros HNx HNy Hxs Hys Hfs Hon next. unfold next.
  assert (source_inside cfg) as Hsrc by (unfold source_inside; lia).
  destruct (first_source_pass Hsrc Hfs Hon) as (Ho & Hs & Hz).
  rewrite Hxs, Hys in *. done.
Qed.

End FirstStep.

(** The scenario grid: 7 x 7 nodes, the source at the centre node, and
    the spacings and constants of the shipped configuration. *)
Definition scenario7 : Config := {|
  dx := dx wave_sim; dy := dy wave_sim; Nx := 7; Ny := 7; n_stop := 150;
  l := l wave_sim; w := w wave_sim; T0 := T0 wave_sim; c := c wave_sim;
  xs1 := 3; ys1 := 3;
  amplitude := 1%R
|}.

Lemma scenario7_source_inside : source_inside scenario7.
Proof. unfold source_inside. simpl. lia. Qed.

Lemma scenario7_finite :
  finite_stencil scenario7 ∧ finite_edges scenario7 ∧ finite_onset scenario7.
Proof. by repeat split. Qed.

Lemma first_step_scenario7 :
  (∀ i j, (i, j) ≠ (3, 3) →
     next_source scenario7 0 (run scenario7 0) i j = 0%R) ∧
  next_source scenario7 0 (run scenario7 0) 3 3 = 0%R.
Proof.
  destruct scenario7_finite as (Hfs & _ & Hon).
  destruct (first_step_scenario scenario7 eq_refl eq_refl eq_refl eq_refl
    Hfs Hon) as (Ho & _ & Hz).
  exact (conj Ho Hz).
Defined.

(** On the 7 x 7 grid with the source at (3,3) and the shipped constants,
    after the interior and source passes of the first step node (3,3)
    holds 0, so it is not a nonzero node, let alone the only one. *)
Lemma scenario7_first_step_zero :
  next_source scenario7 0 (run scenario7 0) 3 3 = 0%R ∧
  ¬ (∀ i j, next_source scenario7 0 (run scenario7 0) i j ≠ 0%R
            ↔ (i, j) = (3, 3)).
Proof.
  assert (next_source scenario7 0 (run scenario7 0) 3 3 = 0%R) as H0
    by (destruct scenario7_finite as (Hfs & _ & Hon);
        apply (first_source_pass scenario7 scenario7_source_inside Hfs Hon)).
  split; [done|].
  intros Hiff. by apply (Hiff 3 3).
Qed.

(** * How far the pulse has travelled *)

Section Causality.
Context `{Sc : Scalar} `{ZA : !ZeroArith Sc}.
Variable cfg : Config.

(** Distances from the source node, in nodes. *)
Definition dist (a b : nat) : nat := (a - b) + (b - a).
Definition manhattan (i j : nat) : nat := dist i (xs1 cfg) + dist j (ys1 cfg).
Definition chebyshev (i j : nat) : nat :=
  Nat.max (dist i (xs1 cfg)) (dist j (ys1 cfg)).

(** How many of the two coordinates of a node lie on the rim of the grid:
    0 for an interior node, 1 on an edge, 2 at a corner. *)
Definition rim (i j : nat) : nat :=
  (if decide (i = 0 ∨ i = Nx cfg - 1) then 1 else 0)
  + (if decide (j = 0 ∨ j = Ny cfg - 1) then 1 else 0).

(** The level computed by step [k], as handed to [printWave]. *)
Definition level (k : nat) (i j : nat) : double :=
  next_corners cfg k (run cfg k) i j.

Local Open Scope double_scope.

Lemma stencil_levels st i j :
  stencil cfg (mem st) (Un0 st) (Un_m1 st) i j
  = of_int 2 * current st i j
    + theta_x cfg * (current st (i + 1) j - of_int 2 * current st i j
                     + current st (i - 1) j)
    + theta_y cfg * (current st i (j + 1) - of_int 2 * current st i j
                     + current st i (j - 1))
    - previous st i j.
Proof. reflexivity. Qed.

(** The level a step computes is the current level of the next step, and
    the current level of a step is the previous level of the next. *)
Lemma current_succ k i j : current (run cfg (S k)) i j = level k i j.
Proof. rewrite run_succ. reflexivity. Qed.

Lemma previous_succ k i j :
  previous (run cfg (S k)) i j = current (run cfg k) i j.
Proof.
  rewrite run_succ. unfold previous, current. simpl.
  apply load_lookup.
  destruct (run_wf cfg k) as (H10 & _).
  by apply (passes_frame cfg k (run cfg k)).
Qed.

Lemma level_outside k i j :
  ¬ (i < Nx cfg ∧ j < Ny cfg)%nat → level k i j = f0.
Proof.
  intros Hout. unfold level, next_corners.
  destruct (wf_allocated cfg _ (after_corners_wf cfg k _ (run_wf cfg k)))
    as (Hal & _).
  by apply (load_outside (Nx cfg) (Ny cfg) _ _ i j Hal).
Qed.

Hypothesis Hsrc : source_inside cfg.
Hypothesis Hfs : finite_stencil cfg.
Hypothesis Hfe : finite_edges cfg.
Hypothesis Hon : finite_onset cfg.

Ltac geometry :=
  unfold rim, manhattan, chebyshev, dist, interior_cell, edge_cell, left_cell,
    right_cell, top_cell, bottom_cell, corner_cell, source_inside in *;
  repeat case_decide; lia.

(** The front of the pulse.  At the start of step [k] the current level is
    zero at every node whose distance from the source, counted along the
    grid lines, is at least [k - 1] plus its rim count, and the previous
    level wherever that distance is at least [k - 2] plus the rim count. *)
Lemma front_invariant k :
  (∀ i j, (i < Nx cfg)%nat → (j < Ny cfg)%nat →
     (k + rim i j ≤ manhattan i j + 1)%nat → fzero (current (run cfg k) i j)) ∧
  (∀ i j, (i < Nx cfg)%nat → (j < Ny cfg)%nat →
     (k + rim i j ≤ manhattan i j + 2)%nat → fzero (previous (run cfg k) i j)).
Proof.
  induction k as [|k [IHc IHp]].
  { split; intros i j _ _ _; unfold current, previous;
      rewrite (startup_zero cfg _ i j); apply fzero_f0. }
  pose proof (run_wf cfg k) as Hwf.
  assert (3 ≤ Nx cfg)%nat as HNx by geometry.
  assert (3 ≤ Ny cfg)%nat as HNy by geometry.
  destruct Hfe as [Hrx Hry].
  set (st := run cfg k) in *.
  assert (∀ i j, interior_cell cfg i j → (k ≤ manhattan i j)%nat →
    fzero (level k i j)) as Hint.
  { intros i j Hc Hm. unfold level. fold st.
    destruct (decide ((i, j) = (xs1 cfg, ys1 cfg))) as [[= -> ->]|Hne].
    - rewrite (proj2 (proj2 (next_at_source cfg k st Hwf Hsrc))).
      replace k with 0%nat by geometry. by apply source_value_0.
    - rewrite (next_at_interior cfg k st Hwf Hsrc i j Hc Hne), stencil_levels.
      apply stencil_form_zero; [done|..];
        first [apply IHc; geometry | apply IHp; geometry]. }
  assert (∀ i j, interior_cell cfg i j → (k ≤ manhattan i j)%nat →
    fzero (next_source cfg k st i j)) as Hsrcpass.
  { intros i j Hc Hm.
    rewrite <- (proj2 (next_interior_kept cfg k st Hwf HNx HNy i j Hc)).
    by apply Hint. }
  assert (∀ i j, edge_cell cfg i j → (k + 1 ≤ manhattan i j)%nat →
    fzero (next_edges cfg k st i j)) as Hedge.
  { intros i j Hc Hm. destruct Hc as [Hc|[Hc|[Hc|Hc]]].
    - destruct Hc as [-> Hj].
      rewrite (left_edge_value cfg k st Hwf HNx HNy j Hj).
      apply edge_form_zero; [done|..];
        first [apply IHc; geometry | apply Hsrcpass; geometry].
    - destruct Hc as [-> Hj].
      rewrite (right_edge_value cfg k st Hwf HNx HNy j Hj).
      apply edge_form_zero; [done|..];
        first [apply IHc; geometry | apply Hsrcpass; geometry].
    - destruct Hc as [Hi ->].
      rewrite (top_edge_value cfg k st Hwf HNx HNy i Hi).
      apply edge_form_zero; [done|..];
        first [apply IHc; geometry | apply Hsrcpass; geometry].
    - destruct Hc as [Hi ->].
      rewrite (bottom_edge_value cfg k st Hwf HNx HNy i Hi).
      apply edge_form_zero; [done|..];
        first [apply IHc; geometry | apply Hsrcpass; geometry]. }
  assert (∀ i j, corner_cell cfg i j → (k + 2 ≤ manhattan i j)%nat →
    fzero (level k i j)) as Hcorner.
  { intros i j Hc Hm. unfold level. fold st.
    destruct (corner_values cfg k st Hwf HNx HNy) as (C1 & C2 & C3 & C4).
    destruct Hc as [[-> | ->] [-> | ->]].
    - rewrite C1. apply corner_form_zero; apply Hedge; geometry.
    - rewrite C4. apply corner_form_zero; apply Hedge; geometry.
    - rewrite C2. apply corner_form_zero; apply Hedge; geometry.
    - rewrite C3. apply corner_form_zero; apply Hedge; geometry. }
  split.
  - intros i j Hi Hj Hm. rewrite current_succ.
    destruct (decide (interior_cell cfg i j)) as [Hc|Hnc];
      [apply Hint; [done|geometry]|].
    destruct (decide (corner_cell cfg i j)) as [Hc|Hncc];
      [apply Hcorner; [done|geometry]|].
    assert (edge_cell cfg i j) as Hc by geometry.
    unfold level. fold st.
    rewrite (next_edge_kept cfg k st Hwf HNx HNy i j Hc).
    apply Hedge; [done|geometry].
  - intros i j Hi Hj Hm. rewrite previous_succ.
    apply IHc; [done..|lia].
Qed.

(** Ahead of the front: in the level computed by step [m] a node farther
    than [m] from the source, in Chebyshev distance, is zero. *)
Lemma level_before_front m i j :
  m < chebyshev i j → fzero (level m i j).
Proof.
  intros Hm.
  destruct (decide (i < Nx cfg ∧ j < Ny cfg)) as [[Hi Hj]|Hout];
    [|rewrite level_outside by done; apply fzero_f0].
  rewrite <- current_succ.
  apply (front_invariant (S m)); [done..|].
  unfold rim, manhattan, chebyshev, dist, source_inside in *.
  repeat case_decide; lia.
Qed.

(** C9, as the code has it.  With the source strictly inside the grid,
    the all-zero levels [main] starts from, and finite coefficients, time
    step, angular frequency and product in front of the sine, a node at
    Chebyshev distance [d] from the source is exactly zero in the level
    computed by step [n] (counted from 0) for every [n < d]; so it is in
    the current level that step [n] starts from, and in the current level
    of step [n + 1], which is the level step [n] computed. *)
Theorem pulse_front (n i j : nat) :
  n < chebyshev i j →
  fzero (level n i j) ∧
  fzero (current (run cfg n) i j) ∧
  fzero (current (run cfg (S n)) i j).
Proof.
  intros Hd.
  split_and!.
  - by apply level_before_front.
  - destruct n as [|m];
      [unfold current; rewrite (startup_zero cfg _ i j); apply fzero_f0|].
    rewrite current_succ. apply level_before_front. lia.
  - rewrite current_succ. by apply level_before_front.
Qed.

End Causality.

Lemma wave_sim_finite :
  finite_stencil wave_sim ∧ finite_edges wave_sim ∧ finite_onset wave_sim.
Proof. by repeat split. Qed.

Lemma pulse_front_wave_sim :
  level wave_sim 9 60 50 = 0%R.
Proof.
  assert (9 < chebyshev wave_sim 60 50) as Hd
    by (unfold chebyshev, dist; simpl; lia).
  destruct wave_sim_finite as (Hfs & Hfe & Hon).
  exact (proj1 (pulse_front wave_sim wave_sim_source_inside Hfs Hfe Hon
    9 60 50 Hd)).
Defined.

(** ** The pulse on the scenario grid *)

Section Scenario.

Local Open Scope R_scope.

(** [sqrt(1/dx^2 + 1/dy^2)] for the shipped spacings, and its product
    with [dx], which is the square root of 2. *)
Definition scenario7_S : R :=
  sqrt (1 / (dx scenario7 * dx scenario7) + 1 / (dy scenario7 * dy scenario7)).
Definition scenario7_D : R := dx scenario7 * scenario7_S.

Lemma scenario7_D_sqrt2 : 0 < scenario7_D ∧ scenario7_D * scenario7_D = 2.
Proof.
  assert (0 < 1 / (dx scenario7 * dx scenario7)
              + 1 / (dy scenario7 * dy scenario7)) as Hpos by (simpl; lra).
  assert (0 < scenario7_S) as HS by (by apply sqrt_lt_R0).
  assert (scenario7_S * scenario7_S
          = 1 / (dx scenario7 * dx scenario7)
            + 1 / (dy scenario7 * dy scenario7)) as HSS
    by (apply sqrt_sqrt; lra).
  unfold scenario7_D. split.
  - apply Rmult_lt_0_compat; [simpl; lra|done].
  - replace (dx scenario7 * scenario7_S * (dx scenario7 * scenario7_S))
      with (dx scenario7 * dx scenario7 * (scenario7_S * scenario7_S)) by ring.
    rewrite HSS. simpl. lra.
Qed.

(** [c * dt] is [dx / D]. *)
Lemma scenario7_cdt :
  IZR (c scenario7) * dt scenario7 = dx scenario7 / scenario7_D.
Proof.
  destruct scenario7_D_sqrt2 as [HD _].
  unfold dt. to_R. fold scenario7_S. unfold scenario7_D in *.
  assert (0 < scenario7_S) as HS.
  { apply Rmult_lt_reg_l with (dx scenario7); [simpl; lra|]. lra. }
  simpl. field. split; lra.
Qed.

Lemma scenario7_theta_x : theta_x scenario7 = 1 / 2.
Proof.
  destruct scenario7_D_sqrt2 as [HD HDD].
  unfold theta_x, Ox. to_R. rewrite scenario7_cdt.
  replace (dx scenario7 / scenario7_D / dx scenario7
           * (dx scenario7 / scenario7_D / dx scenario7))
    with (1 / (scenario7_D * scenario7_D))
    by (simpl; field; lra).
  by rewrite HDD.
Qed.

Lemma scenario7_Rx : Rx scenario7 ≠ 0.
Proof.
  destruct scenario7_D_sqrt2 as [HD HDD].
  unfold Rx. to_R. rewrite scenario7_cdt.
  replace ((dx scenario7 / scenario7_D - dx scenario7)
           / (dx scenario7 / scenario7_D + dx scenario7))
    with ((1 - scenario7_D) / (1 + scenario7_D))
    by (simpl; field; lra).
  intros Heq.
  apply Rmult_eq_compat_r with (r := 1 + scenario7_D) in Heq.
  unfold Rdiv in Heq. rewrite Rmult_assoc, Rinv_l in Heq by lra.
  nra.
Qed.

(** The source term of step 1 is not 0. *)
Lemma scenario7_source_value_1 : source_value scenario7 1 ≠ 0.
Proof.
  destruct scenario7_D_sqrt2 as [HD HDD].
  unfold source_value. to_R. change (IZR (Z.of_nat 1)) with 1.
  replace (2 * PI * IZR (c scenario7) / l scenario7 * (1 * dt scenario7))
    with (2 * PI / l scenario7 * (IZR (c scenario7) * dt scenario7))
    by (field; simpl; lra).
  rewrite scenario7_cdt.
  set (x := 2 * PI / l scenario7 * (dx scenario7 / scenario7_D)).
  assert (x = PI * (0.24 / scenario7_D)) as Hx
    by (unfold x; simpl; lra).
  pose proof PI_RGT_0 as Hpi.
  assert (0 < 0.24 / scenario7_D < 1) as [Ht0 Ht1].
  { split.
    - apply Rdiv_lt_0_compat; lra.
    - apply Rmult_lt_reg_r with scenario7_D; [done|].
      unfold Rdiv. rewrite Rmult_assoc, Rinv_l by lra. nra. }
  assert (0 < sin x) as Hsin.
  { apply sin_gt_0; rewrite Hx; nra. }
  pose proof (exp_pos (- ((1 * dt scenario7 - T0 scenario7)
                          / (w scenario7 / 2)) ^ 2)) as Hexp.
  simpl amplitude. nra.
Qed.

End Scenario.

Section ScenarioLevels.

Local Open Scope R_scope.

Ltac geometry7 :=
  unfold rim, manhattan, dist, interior_cell, edge_cell, right_cell;
  cbn [Nx Ny xs1 ys1 scenario7]; repeat case_decide; lia.

Lemma scenario7_current_zero k i j :
  (i < 7)%nat → (j < 7)%nat →
  (k + rim scenario7 i j ≤ manhattan scenario7 i j + 1)%nat →
  current (run scenario7 k) i j = 0.
Proof.
  destruct scenario7_finite as (Hfs & Hfe & Hon).
  exact (proj1 (front_invariant scenario7 scenario7_source_inside Hfs Hfe Hon
    k) i j).
Qed.

Lemma scenario7_previous_zero k i j :
  (i < 7)%nat → (j < 7)%nat →
  (k + rim scenario7 i j ≤ manhattan scenario7 i j + 2)%nat →
  previous (run scenario7 k) i j = 0.
Proof.
  destruct scenario7_finite as (Hfs & Hfe & Hon).
  exact (proj2 (front_invariant scenario7 scenario7_source_inside Hfs Hfe Hon
    k) i j).
Qed.

(** Step 1 puts the source term at the centre node. *)
Lemma scenario7_level_1 : level scenario7 1 3 3 = source_value scenario7 1.
Proof.
  exact (proj2 (proj2 (next_at_source scenario7 1 (run scenario7 1)
    (run_wf _ _) scenario7_source_inside))).
Qed.

(** Step 2 carries it one node to the right. *)
Lemma scenario7_level_2 :
  level scenario7 2 4 3 = theta_x scenario7 * source_value scenario7 1.
Proof.
  unfold level.
  assert (interior_cell scenario7 4 3) as Hc by geometry7.
  assert ((4, 3) ≠ (xs1 scenario7, ys1 scenario7))%nat as Hne by (by intros [=]).
  rewrite (next_at_interior scenario7 2 (run scenario7 2) (run_wf _ _)
    scenario7_source_inside 4 3 Hc Hne).
  rewrite stencil_levels. cbn [Nat.add Nat.sub].
  rewrite (current_succ scenario7 1 3 3), scenario7_level_1.
  rewrite (scenario7_current_zero 2 4 3), (scenario7_current_zero 2 5 3),
    (scenario7_current_zero 2 4 4), (scenario7_current_zero 2 4 2),
    (scenario7_previous_zero 2 4 3) by geometry7.
  to_R. lra.
Qed.

(** Step 3 carries it one node further, next to the right edge. *)
Lemma scenario7_level_3 :
  level scenario7 3 5 3
  = theta_x scenario7 * (theta_x scenario7 * source_value scenario7 1).
Proof.
  unfold level.
  assert (interior_cell scenario7 5 3) as Hc by geometry7.
  assert ((5, 3) ≠ (xs1 scenario7, ys1 scenario7))%nat as Hne by (by intros [=]).
  rewrite (next_at_interior scenario7 3 (run scenario7 3) (run_wf _ _)
    scenario7_source_inside 5 3 Hc Hne).
  rewrite stencil_levels. cbn [Nat.add Nat.sub].
  rewrite (current_succ scenario7 2 4 3), scenario7_level_2.
  rewrite (scenario7_current_zero 3 5 3), (scenario7_current_zero 3 6 3),
    (scenario7_current_zero 3 5 4), (scenario7_current_zero 3 5 2),
    (scenario7_previous_zero 3 5 3) by geometry7.
  to_R. lra.
Qed.

(** The right edge loop of the same step 3 passes it on to the edge. *)
Lemma scenario7_right_edge_3 :
  level scenario7 3 6 3
  = current (run scenario7 3) 5 3
    + Rx scenario7 * (level scenario7 3 5 3 - current (run scenario7 3) 6 3).
Proof.
  pose proof (run_wf scenario7 3) as Hwf.
  assert (3 ≤ Nx scenario7)%nat as HNx by (simpl; lia).
  assert (3 ≤ Ny scenario7)%nat as HNy by (simpl; lia).
  assert (edge_cell scenario7 6 3) as He by (right; left; geometry7).
  assert (interior_cell scenario7 5 3) as Hc by geometry7.
  unfold level.
  rewrite (next_edge_kept scenario7 3 _ Hwf HNx HNy 6 3 He).
  pose proof (right_edge_value scenario7 3 _ Hwf HNx HNy 3) as Hr.
  cbn [Nx Ny scenario7 Nat.sub] in Hr. rewrite Hr by lia. clear Hr.
  rewrite <- (proj2 (next_interior_kept scenario7 3 _ Hwf HNx HNy 5 3 Hc)).
  reflexivity.
Qed.

Lemma scenario7_level_3_edge :
  level scenario7 3 6 3
  = Rx scenario7
    * (theta_x scenario7 * (theta_x scenario7 * source_value scenario7 1)).
Proof.
  rewrite scenario7_right_edge_3, scenario7_level_3.
  rewrite (scenario7_current_zero 3 5 3), (scenario7_current_zero 3 6 3)
    by geometry7.
  to_R. ring.
Qed.

End ScenarioLevels.

(** On the 7 x 7 grid with the source at the centre node (3,3) and the
    shipped spacings, node (6,3) is at Chebyshev distance 3, and
    [d * min(dx,dy) / (c*dt)] is [3 * sqrt 2], above 4; yet the level
    computed by step 3, which is the current level once 4 steps have
    completed, is not 0 at (6,3). *)
Lemma scenario7_edge_early :
  chebyshev scenario7 6 3 = 3 ∧
  (INR 3 < INR (chebyshev scenario7 6 3)
           * Rmin (dx scenario7) (dy scenario7)
           / (IZR (c scenario7) * dt scenario7))%R ∧
  (INR 4 < INR (chebyshev scenario7 6 3)
           * Rmin (dx scenario7) (dy scenario7)
           / (IZR (c scenario7) * dt scenario7))%R ∧
  level scenario7 3 6 3 ≠ 0%R ∧
  current (run scenario7 4) 6 3 ≠ 0%R.
Proof.
  destruct scenario7_D_sqrt2 as [HD HDD].
  assert (chebyshev scenario7 6 3 = 3) as Hd by reflexivity.
  assert (INR (chebyshev scenario7 6 3)
          * Rmin (dx scenario7) (dy scenario7)
          / (IZR (c scenario7) * dt scenario7) = 3 * scenario7_D)%R as HB.
  { rewrite Hd, scenario7_cdt.
    replace (Rmin (dx scenario7) (dy scenario7)) with (dx scenario7)
      by (symmetry; apply Rmin_left; simpl; lra).
    change (INR 3) with (1 + 1 + 1)%R.
    field. split; [lra|simpl; lra]. }
  assert (level scenario7 3 6 3 ≠ 0%R) as Hne.
  { rewrite scenario7_level_3_edge, scenario7_theta_x.
    pose proof scenario7_Rx as HRx.
    pose proof scenario7_source_value_1 as HF.
    intros Heq. apply Rmult_integral in Heq as [Heq|Heq]; [exact (HRx Heq)|].
    apply HF. lra. }
  split; [exact Hd|]. rewrite HB.
  split; [change (INR 3) with (1 + 1 + 1)%R; nra|].
  split; [change (INR 4) with (1 + 1 + 1 + 1)%R; nra|].
  split; [exact Hne|].
  rewrite current_succ. exact Hne.
Qed.

(** * The program over binary64

    The kernel run on IEEE-754 binary64, the [double] of the platforms the
    program is built for.  [exp], [sin] and [pow] come from the C library
    and are parameters; everything else computes. *)

Section Binary64.
Import Floats.

Variables (libm_exp libm_sin : float → float) (libm_pow : float → float → float).
Variable garbage : float.

(** Conversion of an [int] to [double]; exact below 2^53. *)
Definition int_to_double (z : Z) : float :=
  if (z <? 0)%Z then PrimFloat.opp (PrimFloat.of_uint63 (Uint63.of_Z (- z)))
  else PrimFloat.of_uint63 (Uint63.of_Z z).

(** [(int) x] for a finite [x]: the integer part, toward zero. *)
Definition double_to_int (x : float) : Z :=
  match Prim2SF x with
  | S754_finite s m e =>
      let v := if (e <? 0)%Z then Z.shiftr (Z.pos m) (- e)
               else Z.shiftl (Z.pos m) e in
      if s then (- v)%Z else v
  | _ => 0%Z
  end.

Definition binary64 : Scalar :=
  Build_Scalar float 0%float 1%float 0.5%float 0x1.921fb54442d18p+1%float
    int_to_double PrimFloat.add PrimFloat.sub PrimFloat.mul PrimFloat.div
    PrimFloat.opp PrimFloat.sqrt libm_exp libm_sin
    (λ x, libm_pow x 2%float) garbage.

(** The configuration the source is compiled with. *)
Definition wave_sim64 : @Config binary64 :=
  @Build_Config binary64 0.12e-6%float 0.12e-6%float 84 84 150
    1.0e-6%float 18.0e-15%float 4.0e-15%float 299792458 50 50
    (int_to_double 1).

(** [Nx] and [Ny] as the macros compute them. *)
Example nodes_binary64 :
  Z.to_nat (double_to_int (10e-6 / 0.12e-6)%float + 1) = 84.
Proof. vm_compute. reflexivity. Qed.

(** The time step and the coefficients of the stencil and of the edges. *)
Example dt_binary64 : dt wave_sim64 = 2.8303852040996207e-16%float.
Proof. vm_compute. reflexivity. Qed.

Example theta_x_binary64 : theta_x wave_sim64 = 0.50000000000000011%float.
Proof. vm_compute. reflexivity. Qed.

Example Rx_binary64 : Rx wave_sim64 = (-0.17157287525380985)%float.
Proof. vm_compute. reflexivity. Qed.

(** A 5 x 5 grid with unit spacings and unit speed; the new level at
    address 0, the current level at address 1 with a single 1.0 at the
    centre, the previous level at address 2. *)
Definition unit5 : @Config binary64 :=
  @Build_Config binary64 1%float 1%float 5 5 1 1%float 1%float 0%float 1
    2 2 1%float.

Definition zeros5 : list (list float) := replicate 5 (replicate 5 0%float).

Definition heap5 : gmap nat (list (list float)) :=
  <[0 := zeros5]> (<[1 := @set binary64 zeros5 2 2 1%float]> (<[2 := zeros5]> ∅)).

(** The interior loops spread the 1.0 to its four neighbours. *)
Example interior_nodes_unit5 :
  @interior_nodes binary64 unit5 0 1 2 heap5 !! 0
  = Some
      [[0; 0; 0; 0; 0];
       [0; 0; 0.49999999999999989; 0; 0];
       [0; 0.49999999999999989; 4.4408920985006262e-16; 0.49999999999999989; 0];
       [0; 0; 0.49999999999999989; 0; 0];
       [0; 0; 0; 0; 0]]%float.
Proof. vm_compute. reflexivity. Qed.

(** The edge loops and the corner assignments of the same step. *)
Example boundary_unit5 :
  @corner_nodes binary64 unit5 0
    (@edge_nodes binary64 unit5 0 1
       (@interior_nodes binary64 unit5 0 1 2 heap5)) !! 0
  = Some
      [[0; 0; -0.085786437626904966; 0; 0];
       [0; 0; 0.49999999999999989; 0; 0];
       [-0.085786437626904966; 0.49999999999999989; 4.4408920985006262e-16;
        0.49999999999999989; -0.085786437626904966];
       [0; 0; 0.49999999999999989; 0; 0];
       [0; 0; -0.085786437626904966; 0; 0]]%float.
Proof. vm_compute. reflexivity. Qed.

(** On all-zero levels the three passes leave the new level all +0.0,
    the negative edge coefficient notwithstanding. *)
Example quiet_unit5 :
  let h := <[0 := zeros5]> (<[1 := zeros5]> (<[2 := zeros5]> ∅)) in
  @corner_nodes binary64 unit5 0
    (@edge_nodes binary64 unit5 0 1
       (@interior_nodes binary64 unit5 0 1 2 h)) !! 0
  = Some zeros5.
Proof. vm_compute. reflexivity. Qed.

(** The three grids of [main] get the addresses 0, 1 and 2, and all their
    cells are 0.0 when the loop is entered. *)
Example startup_unit5 :
  let st := @startup binary64 unit5 in
  (Un_p1 st, Un0 st, Un_m1 st) = (0, 1, 2) ∧
  mem st = <[0 := zeros5]> (<[1 := zeros5]> (<[2 := zeros5]> ∅)).
Proof. vm_compute. split; reflexivity. Qed.

End Binary64.

(** ** Zeros and finite values of binary64 *)

Section Binary64Zeros.
Import Floats.

(** [x == 0.0], [isfinite(x)] and [isnan(x)] on the IEEE-754 reading of a
    [double]. *)
Definition zero64 (x : float) : Prop := ∃ s, Prim2SF x = S754_zero s.
Definition finite64 (x : float) : Prop :=
  match Prim2SF x with
  | S754_zero _ | S754_finite _ _ _ => True
  | _ => False
  end.
Definition nan64 (x : float) : Prop := Prim2SF x = S754_nan.

Lemma zero64_eqb (x : float) : zero64 x ↔ PrimFloat.eqb x 0 = true.
Proof.
  rewrite eqb_spec. unfold zero64.
  change (Prim2SF 0) with (S754_zero false).
  destruct (Prim2SF x) as [s|s| |s m e]; simpl.
  - split; [done|by eexists].
  - split; [by intros [? ?]|by destruct s].
  - split; [by intros [? ?]|done].
  - split; [by intros [? ?]|by destruct s].
Qed.

Lemma nan64_not_zero (x : float) : nan64 x → ¬ zero64 x.
Proof. unfold nan64. intros Hx [s Hs]. congruence. Qed.

Lemma zero64_finite (x : float) : zero64 x → finite64 x.
Proof. intros [s Hs]. unfold finite64. by rewrite Hs. Qed.

Lemma zero64_add (x y : float) : zero64 x → zero64 y → zero64 (x + y).
Proof.
  intros [sx Hx] [sy Hy]. unfold zero64. rewrite add_spec, Hx, Hy.
  destruct sx, sy; by eexists.
Qed.

Lemma zero64_sub (x y : float) : zero64 x → zero64 y → zero64 (x - y).
Proof.
  intros [sx Hx] [sy Hy]. unfold zero64. rewrite sub_spec, Hx, Hy.
  destruct sx, sy; by eexists.
Qed.

Lemma zero64_mul_l (a x : float) : finite64 a → zero64 x → zero64 (a * x).
Proof.
  unfold finite64, zero64. intros Ha [sx Hx]. rewrite mul_spec, Hx.
  destruct (Prim2SF a) as [s|s| |s m e]; try done; by eexists.
Qed.

Lemma zero64_mul_r (x a : float) : zero64 x → finite64 a → zero64 (x * a).
Proof.
  unfold finite64, zero64. intros [sx Hx] Ha. rewrite mul_spec, Hx.
  destruct (Prim2SF a) as [s|s| |s m e]; try done; by eexists.
Qed.

Variables (libm_exp libm_sin : float → float) (libm_pow : float → float → float).
Variable garbage : float.

(** Annex F of the C standard: [sin] of a zero is that zero. *)
Hypothesis libm_sin_zero : ∀ x, zero64 x → zero64 (libm_sin x).

Definition binary64_zero :
    ZeroArith (binary64 libm_exp libm_sin libm_pow garbage) :=
  Build_ZeroArith (binary64 libm_exp libm_sin libm_pow garbage)
    zero64 finite64 (ex_intro _ false eq_refl)
    zero64_add zero64_sub zero64_mul_l zero64_mul_r I I
    (ex_intro _ false eq_refl) libm_sin_zero.

End Binary64Zeros.

(** ** Where the coefficients overflow *)

Section Binary64Overflow.
Import Floats.

Variables (libm_exp libm_sin : float → float) (libm_pow : float → float → float).
Variable garbage : float.

Let b64 : Scalar := binary64 libm_exp libm_sin libm_pow garbage.

(** The coefficients, the time step and the angular frequency of the
    configuration the source is compiled with are finite doubles. *)
Example wave_sim64_finite :
  let cfg := wave_sim64 libm_exp libm_sin libm_pow garbage in
  finite64 (theta_x cfg) ∧ finite64 (theta_y cfg) ∧
  finite64 (Rx cfg) ∧ finite64 (Ry cfg) ∧ finite64 (dt cfg) ∧
  finite64 ((of_int 2 * M_PI * of_int (c cfg)) / l cfg)%D.
Proof. unfold finite64. vm_compute. done. Qed.

(** A 7 x 7 grid with the source at the centre node and the constants of
    the shipped configuration, except for spacings of 1e200: [dx * dx]
    overflows, the time step and the Courant numbers are infinite. *)
Definition huge7 : @Config b64 :=
  @Build_Config b64 1e200%float 1e200%float 7 7 150
    1.0e-6%float 18.0e-15%float 4.0e-15%float 299792458 3 3
    (int_to_double 1).

(** The same with the source switched off. *)
Definition huge7_quiet : @Config b64 :=
  @Build_Config b64 1e200%float 1e200%float 7 7 150
    1.0e-6%float 18.0e-15%float 4.0e-15%float 299792458 3 3
    0%float.

Lemma huge7_coefficients :
  Prim2SF (dt huge7) = S754_infinity false ∧
  Prim2SF (theta_x huge7) = S754_infinity false ∧
  Prim2SF (theta_y huge7) = S754_infinity false ∧
  nan64 (Rx huge7) ∧ nan64 (Ry huge7).
Proof. unfold nan64. vm_compute. done. Qed.

(** The interior assignment of the first step multiplies an infinite
    coefficient by zero. *)
Lemma huge7_first_step : nan64 (next_source huge7 0 (run huge7 0) 1 1).
Proof. unfold nan64. vm_compute. reflexivity. Qed.

Lemma huge7_level_0 :
  chebyshev huge7 1 1 = 2 ∧ nan64 (level huge7 0 1 1).
Proof. unfold nan64. vm_compute. done. Qed.

Lemma huge7_quiet_step : nan64 (current (run huge7_quiet 1) 1 1).
Proof. unfold nan64. vm_compute. reflexivity. Qed.

(** The checked program on a 5 x 5 grid with unit spacings: it goes
    through with the source at the centre, and stops when the source is
    one row below the grid. *)
Definition unit5_off : @Config b64 :=
  @Build_Config b64 1%float 1%float 5 5 1 1%float 1%float 0%float 1
    5 2 1%float.

Example main_checked_unit5 :
  main_checked (unit5 libm_exp libm_sin libm_pow garbage)
  = Some (main (unit5 libm_exp libm_sin libm_pow garbage)) ∧
  main_checked unit5_off = None.
Proof. split; vm_compute; reflexivity. Qed.

End Binary64Overflow.

(** ** The zero-field properties on binary64

    The general theorems at the binary64 arithmetic and the constants the
    source is compiled with.  The coefficients are finite by computation;
    what the C library returns is a parameter, and enters through the
    hypotheses. *)

Section Binary64Fields.
Import Floats.

Variables (libm_exp libm_sin : float → float) (libm_pow : float → float → float).
Variable garbage : float.
Hypothesis libm_sin_zero : ∀ x, zero64 x → zero64 (libm_sin x).

Let b64 : Scalar := binary64 libm_exp libm_sin libm_pow garbage.
Let b64_zero : ZeroArith b64 :=
  binary64_zero libm_exp libm_sin libm_pow garbage libm_sin_zero.

(** The shipped configuration with the source switched off, and on the
    7 x 7 scenario grid. *)
Definition quiet64 : @Config b64 :=
  @Build_Config b64 0.12e-6%float 0.12e-6%float 84 84 150
    1.0e-6%float 18.0e-15%float 4.0e-15%float 299792458 50 50
    0%float.
Definition scenario7_64 : @Config b64 :=
  @Build_Config b64 0.12e-6%float 0.12e-6%float 7 7 150
    1.0e-6%float 18.0e-15%float 4.0e-15%float 299792458 3 3
    (int_to_double 1).

Lemma shipped_coefficients_finite :
  @finite_stencil b64 b64_zero quiet64 ∧ @finite_edges b64 b64_zero quiet64 ∧
  @finite_stencil b64 b64_zero scenario7_64 ∧
  @finite_edges b64 b64_zero scenario7_64 ∧
  @finite_stencil b64 b64_zero
    (wave_sim64 libm_exp libm_sin libm_pow garbage) ∧
  @finite_edges b64 b64_zero
    (wave_sim64 libm_exp libm_sin libm_pow garbage).
Proof.
  unfold finite_stencil, finite_edges. cbn [ffinite b64_zero binary64_zero].
  unfold finite64. vm_compute. done.
Qed.

(** With the source switched off and a C library that returns finite
    values in the source term, the field of the shipped configuration is
    zero at every step. *)
Lemma zero_source_binary64 :
  (∀ n, finite64 (envelope quiet64 n)) →
  (∀ n, finite64 (carrier quiet64 n)) →
  ∀ k i j, zero64 (current (run quiet64 k) i j) ∧
           zero64 (previous (run quiet64 k) i j).
Proof.
  intros Henv Hcar k i j.
  destruct shipped_coefficients_finite as (Hfs & Hfe & _).
  assert (@fzero b64 b64_zero (amplitude quiet64)) as Ha by (by exists false).
  pose proof (@levels_zero_run b64 b64_zero quiet64 Ha Hfs Hfe Henv Hcar k)
    as Hrun.
  split; apply Hrun; tauto.
Qed.

(** With a C library whose exponential is finite at the onset, the first
    step on the scenario grid leaves zeros, and on the shipped grid a node
    at Chebyshev distance [d] from the source is zero in the level of
    every step [n < d]. *)
Lemma first_step_binary64 :
  finite64 (amplitude scenario7_64 * envelope scenario7_64 0)%D →
  ∀ i j, zero64 (next_source scenario7_64 0 (run scenario7_64 0) i j).
Proof.
  intros Hexp i j.
  destruct shipped_coefficients_finite as (_ & _ & Hfs & _).
  assert (@finite_onset b64 b64_zero scenario7_64) as Hon.
  { split_and!; [| |exact Hexp];
      cbn [ffinite b64_zero binary64_zero]; unfold finite64;
      vm_compute; done. }
  assert (source_inside scenario7_64) as Hsrc
    by (unfold source_inside; simpl; lia).
  destruct (@first_source_pass b64 b64_zero scenario7_64 Hsrc Hfs Hon)
    as (Ho & _ & Hz).
  destruct (decide ((i, j) = (3, 3))) as [[= -> ->]|Hne]; [exact Hz|].
  by apply Ho.
Qed.

Lemma pulse_front_binary64 :
  let cfg := wave_sim64 libm_exp libm_sin libm_pow garbage in
  finite64 (amplitude cfg * envelope cfg 0)%D →
  ∀ n i j, n < chebyshev cfg i j → zero64 (level cfg n i j).
Proof.
  intros cfg Hexp n i j Hd.
  destruct shipped_coefficients_finite as (_ & _ & _ & _ & Hfs & Hfe).
  assert (@finite_onset b64 b64_zero cfg) as Hon.
  { split_and!; [| |exact Hexp];
      cbn [ffinite b64_zero binary64_zero]; unfold finite64;
      vm_compute; done. }
  assert (source_inside cfg) as Hsrc by (unfold source_inside; simpl; lia).
  exact (@level_before_front b64 b64_zero cfg Hsrc Hfs Hfe Hon n i j Hd).
Qed.

End Binary64Fields.

(** C6 fails where the coefficients overflow.  On binary64, with spacings
    of 1e200 and the source amplitude 0.0, the levels [main] starts from
    are zero and after one full step node (1,1) of the current level is a
    NaN, whatever the C library computes. *)
Lemma zero_source_overflow :
  ∃ i j : nat, ∀ libm_exp libm_sin libm_pow garbage,
    let cfg := huge7_quiet libm_exp libm_sin libm_pow garbage in
    zero64 (amplitude cfg) ∧
    (∀ q i' j', zero64 (load (mem (run cfg 0)) q i' j')) ∧
    nan64 (current (run cfg 1) i j) ∧
    ¬ zero64 (current (run cfg 1) i j).
Proof.
  exists 1, 1. intros libm_exp libm_sin libm_pow garbage cfg.
  pose proof (huge7_quiet_step libm_exp libm_sin libm_pow garbage) as Hnan.
  split_and!.
  - by exists false.
  - intros q i' j'. unfold cfg. rewrite run_0, startup_zero. by exists false.
  - exact Hnan.
  - by apply nan64_not_zero.
Qed.

(** C7 fails.  With the shipped constants, on the 7 x 7 grid with the
    source at (3,3), node (3,3) holds 0 after the interior and source
    passes of the first step: it is not a nonzero node.  And where the
    stencil coefficients overflow (binary64, spacings of 1e200) node (1,1)
    is a NaN after those passes, whatever the C library computes: the
    other nodes are zero only for finite coefficients. *)
Lemma first_step_source_node_is_zero :
  (next_source scenario7 0 (run scenario7 0) 3 3 = 0%R ∧
   ¬ (∀ i j, next_source scenario7 0 (run scenario7 0) i j ≠ 0%R
             ↔ (i, j) = (3, 3))) ∧
  (∀ libm_exp libm_sin libm_pow garbage,
     let cfg := huge7 libm_exp libm_sin libm_pow garbage in
     nan64 (next_source cfg 0 (run cfg 0) 1 1)).
Proof. split; [exact scenario7_first_step_zero|exact huge7_first_step]. Qed.

(** C9 fails.  With the shipped constants, on the 7 x 7 grid with the
    source at the centre node (3,3), node (6,3) is at Chebyshev distance 3
    and [d * min(dx,dy) / (c*dt)] is above 4, yet the level computed by
    step 3 is not 0 there.  And where the coefficients overflow (binary64,
    spacings of 1e200) node (1,1), at distance 2, is a NaN in the level
    computed by step 0, whatever the C library computes: the front moves
    one node per step only for finite coefficients. *)
Lemma pulse_reaches_edge_early :
  (chebyshev scenario7 6 3 = 3 ∧
   (INR 3 < INR (chebyshev scenario7 6 3)
            * Rmin (dx scenario7) (dy scenario7)
            / (IZR (c scenario7) * dt scenario7))%R ∧
   (INR 4 < INR (chebyshev scenario7 6 3)
            * Rmin (dx scenario7) (dy scenario7)
            / (IZR (c scenario7) * dt scenario7))%R ∧
   level scenario7 3 6 3 ≠ 0%R ∧
   current (run scenario7 4) 6 3 ≠ 0%R) ∧
  (∀ libm_exp libm_sin libm_pow garbage,
     let cfg := huge7 libm_exp libm_sin libm_pow garbage in
     chebyshev cfg 1 1 = 2 ∧ nan64 (level cfg 0 1 1)).
Proof. split; [exact scenario7_edge_early|exact huge7_level_0]. Qed.

(** * The life of the grids: allocation, initialisation, release *)

Section Lifecycle.
Context `{Sc : Scalar}.
Implicit Types (g : grid) (h : heap).

(** Two grids of the same shape with the same cells are the same grid. *)
Lemma grid_ext rows cols g1 g2 :
  shaped rows cols g1 → shaped rows cols g2 →
  (∀ i j, i < rows → j < cols → get g1 i j = get g2 i j) → g1 = g2.
Proof.
  intros [Hl1 Hr1] [Hl2 Hr2] Hget. apply list_eq. intros i.
  destruct (g1 !! i) as [r1|] eqn:E1, (g2 !! i) as [r2|] eqn:E2.
  - f_equal. apply list_eq. intros j.
    pose proof (Hr1 _ _ E1) as Hc1. pose proof (Hr2 _ _ E2) as Hc2.
    apply lookup_lt_Some in E1 as Hi. rewrite Hl1 in Hi.
    destruct (decide (j < cols)) as [Hj|Hj].
    + specialize (Hget i j Hi Hj). unfold get in Hget. rewrite E1, E2 in Hget.
      destruct (lookup_lt_is_Some_2 r1 j ltac:(lia)) as [x1 Hx1].
      destruct (lookup_lt_is_Some_2 r2 j ltac:(lia)) as [x2 Hx2].
      rewrite Hx1, Hx2 in Hget |- *. simpl in Hget. by subst.
    + rewrite !(proj2 (lookup_ge_None _ _)) by lia. done.
  - apply lookup_lt_Some in E1. apply lookup_ge_None in E2. lia.
  - apply lookup_lt_Some in E2. apply lookup_ge_None in E1. lia.
  - done.
Qed.

(** Two heaps with the same grids elsewhere, and at [p] grids of the same
    shape with the same cells, are the same heap. *)
Lemma heap_ext rows cols p h1 h2 :
  allocated rows cols p h1 → allocated rows cols p h2 →
  (∀ q, q ≠ p → h1 !! q = h2 !! q) →
  (∀ i j, load h1 p i j = load h2 p i j) → h1 = h2.
Proof.
  intros (g1 & Hp1 & Hs1) (g2 & Hp2 & Hs2) Hoth Hload.
  apply map_eq. intros q. destruct (decide (q = p)) as [->|Hq]; [|by apply Hoth].
  rewrite Hp1, Hp2. f_equal. apply (grid_ext rows cols); [done..|].
  intros i j _ _. specialize (Hload i j). unfold load in Hload.
  by rewrite Hp1, Hp2 in Hload.
Qed.

Lemma zero_grid_shaped rows cols :
  shaped rows cols (replicate rows (replicate cols f0)).
Proof.
  split; [by rewrite length_replicate|].
  intros i row Hrow. apply lookup_replicate in Hrow as [-> _].
  by rewrite length_replicate.
Qed.

Lemma zero_grid_get rows cols i j :
  get (replicate rows (replicate cols f0)) i j = f0.
Proof.
  unfold get.
  destruct (replicate rows (replicate cols f0) !! i) as [row|] eqn:E; [|done].
  apply lookup_replicate in E as [-> _].
  destruct (replicate cols f0 !! j) as [x|] eqn:E'; [|done].
  by apply lookup_replicate in E' as [-> _].
Qed.

Lemma initializeArray_writes_gen rows cols p :
  writes rows cols p (λ i j, i < rows ∧ j < cols) (λ _ _ _, f0)
    (initializeArray p rows cols).
Proof.
  unfold initializeArray.
  eapply writes_iff; cycle 1.
  - apply (writes_for_loop _ _ _ (λ ii i j, i = ii ∧ j < cols)).
    + intros ii Hii. eapply writes_iff; cycle 1.
      * apply (writes_for_loop _ _ _ (λ jj i j, i = ii ∧ j = jj)).
        -- intros jj Hjj.
           apply (writes_store _ _ _ ii jj (λ _, f0)); lia.
        -- intros k k' i j _ _ [_ ->] [_ ->]. done.
        -- by intros h1 h2 i j _ _.
      * intros i j. simpl. split.
        -- intros (k & Hk & -> & ->). lia.
        -- intros [-> Hj]. exists j. lia.
    + intros k k' i j _ _ [-> _] [-> _]. done.
    + by intros h1 h2 i j _ _.
  - intros i j. simpl. split.
    + intros (k & Hk & -> & Hj). lia.
    + intros [Hi Hj]. exists i. lia.
Qed.

(** The heap [initializeArray] leaves. *)
Lemma initializeArray_fills (rows cols : nat) (p : nat) h :
  allocated rows cols p h →
  initializeArray p rows cols h
  = <[p := replicate rows (replicate cols f0)]> h.
Proof.
  intros Hal.
  destruct (initializeArray_writes_gen rows cols p h Hal)
    as (Hal' & Hdom & Hoth & Hin & Hout).
  apply (heap_ext rows cols p); [done| | |].
  - eexists. rewrite lookup_insert_eq. split; [done|apply zero_grid_shaped].
  - intros q Hq. rewrite lookup_insert_ne by done. by apply Hoth.
  - intros i j. unfold load at 2. rewrite lookup_insert_eq, zero_grid_get.
    destruct (decide (i < rows ∧ j < cols)) as [Hr|Hr]; [by apply Hin|].
    by eapply load_outside.
Qed.

(** X2. [initializeArray], run on an allocated [rows] x [cols] grid,
    leaves there the grid of [rows] rows of [cols] cells all equal to 0.0,
    whatever the grid held before, and changes no other grid. *)
Theorem initializeArray_zeroes (rows cols : nat) (p : nat) h :
  allocated rows cols p h →
  initializeArray p rows cols h
  = <[p := replicate rows (replicate cols f0)]> h.
Proof. apply initializeArray_fills. Qed.

End Lifecycle.

Section MainLifecycle.
Context `{Sc : Scalar}.
Variable cfg : Config.
Implicit Types (g : grid) (h : heap) (st : state).

(** X3. When [main] enters its loop the three pointers refer to three
    different grids, these are the only grids on the heap, each has [Nx]
    rows of [Ny] cells, every cell is 0.0, and nothing has been printed. *)
Theorem startup_state :
  let st := startup cfg in
  let zero := replicate (Nx cfg) (replicate (Ny cfg) f0) in
  NoDup [Un_p1 st; Un0 st; Un_m1 st] ∧
  dom (mem st) = {[Un_p1 st; Un0 st; Un_m1 st]} ∧
  mem st !! Un_p1 st = Some zero ∧
  mem st !! Un0 st = Some zero ∧
  mem st !! Un_m1 st = Some zero ∧
  frames st = [].
Proof.
  destruct (startup_heap cfg)
    as (a1 & a2 & a3 & h3 & H12 & H13 & H23 & Hok & Heq).
  rewrite Heq. simpl.
  assert (∀ a h, heap_ok cfg h a1 a2 a3 → a ∈ ({[a1; a2; a3]} : gset nat) →
    allocated (Nx cfg) (Ny cfg) a h) as Hal.
  { intros a h [Hd Ha] Hin. apply Ha. by rewrite Hd. }
  set (k1 := initializeArray a1 (Nx cfg) (Ny cfg) h3).
  set (k2 := initializeArray a2 (Nx cfg) (Ny cfg) k1).
  assert (heap_ok cfg k1 a1 a2 a3) as Hok1
    by (eapply touches_heap_ok; [apply touches_initializeArray|done]).
  assert (heap_ok cfg k2 a1 a2 a3) as Hok2
    by (eapply touches_heap_ok; [apply touches_initializeArray|done]).
  rewrite (initializeArray_fills _ _ a3 k2) by (apply Hal; [done|set_solver]).
  unfold k2.
  rewrite (initializeArray_fills _ _ a2 k1) by (apply Hal; [done|set_solver]).
  unfold k1.
  rewrite (initializeArray_fills _ _ a1 h3) by (apply Hal; [done|set_solver]).
  destruct Hok as [Hdom _].
  split_and!.
  - repeat constructor; set_solver.
  - rewrite !dom_insert_L, Hdom. set_solver.
  - rewrite lookup_insert_ne, lookup_insert_ne, lookup_insert_eq by done. done.
  - rewrite lookup_insert_ne, lookup_insert_eq by done. done.
  - by rewrite lookup_insert_eq.
  - done.
Qed.

(** X4. At the end of [main] each of the three [free2DArray] calls
    releases a grid that is still allocated, the three grids released are
    different, and nothing is left on the heap. *)
Theorem main_frees_everything :
  let st := run cfg (n_stop cfg) in
  let h1 := free2DArray (Un_p1 st) (Nx cfg) (mem st) in
  let h2 := free2DArray (Un0 st) (Nx cfg) h1 in
  Un_p1 st ∈ dom (mem st) ∧ Un0 st ∈ dom h1 ∧ Un_m1 st ∈ dom h2 ∧
  snd (main cfg) = ∅.
Proof.
  intros st h1 h2.
  destruct (run_wf cfg (n_stop cfg)) as (H10 & H1m & H0m & Hdom & _).
  fold st in H10, H1m, H0m, Hdom.
  unfold main. fold st. simpl. unfold h2, h1, free2DArray.
  split_and!.
  - rewrite Hdom. set_solver.
  - rewrite dom_delete_L, Hdom. set_solver.
  - rewrite !dom_delete_L, Hdom. set_solver.
  - apply dom_empty_iff_L. rewrite !dom_delete_L, Hdom. set_solver.
Qed.

(** The grid handed to [printWave] at step [n]. *)
Lemma run_frames_snoc n :
  frames (run cfg (S n))
  = frames (run cfg n)
    ++ [default [] (mem (after_corners cfg n (run cfg n)) !! Un_p1 (run cfg n))].
Proof. rewrite run_succ. reflexivity. Qed.

Lemma run_frames_prefix n k :
  n ≤ k → take n (frames (run cfg k)) = frames (run cfg n).
Proof.
  induction 1 as [|k Hle IH].
  - rewrite firstn_all2; [done|]. by rewrite run_frames_length.
  - rewrite run_frames_snoc, take_app_le; [done|].
    rewrite run_frames_length. lia.
Qed.

(** X5. The frame printed at step [n] is the finished new level of that
    step: it has [Nx] rows of [Ny] cells, its cells are the values the
    corner assignments left, and it is the very grid that the next step
    uses as its current level. *)
Theorem printed_frame (k n : nat) :
  n < k →
  ∃ g,
    frames (run cfg k) !! n = Some g ∧
    shaped (Nx cfg) (Ny cfg) g ∧
    (∀ i j, get g i j = next_corners cfg n (run cfg n) i j) ∧
    mem (run cfg (S n)) !! Un0 (run cfg (S n)) = Some g.
Proof.
  intros Hn.
  destruct (wf_allocated cfg _ (after_corners_wf cfg n _ (run_wf cfg n)))
    as ((g & Hg & Hs) & _).
  simpl in Hg.
  exists g. split_and!.
  - rewrite <- (lookup_take_lt _ (S n)) by lia.
    rewrite (run_frames_prefix (S n) k) by lia.
    rewrite run_frames_snoc, lookup_app_r by (rewrite run_frames_length; lia).
    rewrite run_frames_length, Nat.sub_diag. simpl. by rewrite Hg.
  - done.
  - intros i j. unfold next_corners, load. simpl. by rewrite Hg.
  - rewrite run_succ. simpl. done.
Qed.

End MainLifecycle.

(** A 2 x 2 grid of reals at address 0. *)
Definition used2 : gmap nat (list (list R)) :=
  {[ 0 := [[1%R; 2%R]; [3%R; 4%R]] ]}.

Lemma initializeArray_zeroes_used2 :
  initializeArray 0 2 2 used2 = <[0 := replicate 2 (replicate 2 0%R)]> used2.
Proof.
  assert (allocated 2 2 0 used2) as Hal.
  { exists [[1%R; 2%R]; [3%R; 4%R]]. split; [reflexivity|]. split; [reflexivity|].
    intros [|[|i]] row Hrow; simpl in Hrow; by inversion Hrow. }
  exact (@initializeArray_zeroes R_scalar 2 2 0 used2 Hal).
Defined.

Lemma printed_frame_wave_sim :
  ∃ g,
    frames (run wave_sim 2) !! 1 = Some g ∧
    shaped (Nx wave_sim) (Ny wave_sim) g ∧
    (∀ i j, get g i j = next_corners wave_sim 1 (run wave_sim 1) i j) ∧
    mem (run wave_sim 2) !! Un0 (run wave_sim 2) = Some g.
Proof.
  assert (1 < 2) as H by lia.
  exact (printed_frame wave_sim 2 1 H).
Defined.

(** * The order of the edge loops *)

(** Passes run one after the other, first to last. *)
Definition run_passes `{Sc : Scalar} (fs : list (heap → heap)) (h : heap) : heap :=
  fold_left (λ acc f, f acc) fs h.

Section PassOrder.
Context `{Sc : Scalar}.
Variables (rows cols : nat) (p : nat).
Implicit Types (h : heap) (W : nat → nat → Prop) (f : heap → heap)
  (val : heap → nat → nat → double)
  (ps : list ((nat → nat → Prop) * (heap → heap))).

Lemma stable_subset W W' val :
  (∀ i j, W' i j → W i j) → stable p W val → stable p W' val.
Proof.
  intros Hsub Hst h1 h2 i j Hw [Hoth Hsame]. apply Hst; [by apply Hsub|].
  split; [done|]. intros i' j' Hnw. apply Hsame. intros Hw'. apply Hnw.
  by apply Hsub.
Qed.

Lemma writes_nothing val : writes rows cols p (λ _ _, False) val (λ h, h).
Proof. intros h Hh. split_and!; done. Qed.

Lemma writes_pointwise W f f' val :
  (∀ h, f' h = f h) → writes rows cols p W val f → writes rows cols p W val f'.
Proof. intros Heq Hf h Hh. rewrite Heq. by apply Hf. Qed.

(** Passes that assign pairwise disjoint sets of cells by one rule that
    reads none of these cells assign the union of the sets by that rule,
    in whatever order the list has them. *)
Lemma writes_run_passes val ps :
  NoDup ps →
  (∀ a b, a ∈ ps → b ∈ ps → a ≠ b → ∀ i j, a.1 i j → b.1 i j → False) →
  (∀ a, a ∈ ps → writes rows cols p a.1 val a.2) →
  stable p (λ i j, ∃ a, a ∈ ps ∧ a.1 i j) val →
  writes rows cols p (λ i j, ∃ a, a ∈ ps ∧ a.1 i j) val
    (run_passes (map snd ps)).
Proof.
  induction ps as [|a qs IH] using rev_ind; intros Hnd Hdisj Hwr Hst.
  - eapply writes_iff; [|apply writes_nothing].
    intros i j. split; [done|]. intros (a & Ha & _). by apply elem_of_nil in Ha.
  - apply NoDup_app in Hnd as (Hndq & Hnotin & _).
    assert (writes rows cols p (λ i j, ∃ b, b ∈ qs ∧ b.1 i j) val
              (run_passes (map snd qs))) as Hq.
    { apply IH; [done| | |].
      - intros b b' Hb Hb'. apply Hdisj; apply elem_of_app; by left.
      - intros b Hb. apply Hwr. apply elem_of_app. by left.
      - eapply stable_subset; [|exact Hst].
        intros i j (b & Hb & Hw). exists b. split; [|done].
        apply elem_of_app. by left. }
    assert (a ∈ qs ++ [a]) as Hain by (apply elem_of_app; right; by left).
    eapply writes_iff; cycle 1.
    + apply (writes_pointwise _ (λ h, a.2 (run_passes (map snd qs) h))).
      * intros h. unfold run_passes. by rewrite map_app, fold_left_app.
      * apply (writes_seq _ _ _ _ a.1 val _ a.2 Hq (Hwr a Hain)).
        -- intros i j (b & Hb & Hwb) Hwa.
           refine (Hdisj b a _ Hain _ i j Hwb Hwa).
           ++ apply elem_of_app. by left.
           ++ intros ->. apply (Hnotin a); [done|by left].
        -- eapply stable_subset; [|exact Hst].
           intros i j [(b & Hb & Hw)|Hw].
           ++ exists b. split; [apply elem_of_app; by left|done].
           ++ by exists a.
    + intros i j. split.
      * intros [(b & Hb & Hw)|Hw].
        -- exists b. split; [apply elem_of_app; by left|done].
        -- by exists a.
      * intros (b & Hb & Hw). apply elem_of_app in Hb as [Hb|Hb].
        -- left. by exists b.
        -- apply list_elem_of_singleton in Hb as ->. by right.
Qed.

(** Two passes that assign the same cells by the same rule give the same
    heap. *)
Lemma writes_determined W val f f' h :
  writes rows cols p W val f → writes rows cols p W val f' →
  allocated rows cols p h →
  (∀ i j, W i j ∨ ¬ W i j) →
  f h = f' h.
Proof.
  intros Hf Hf' Hh Hdec.
  destruct (Hf h Hh) as (Hal & _ & Hoth & Hin & Hout).
  destruct (Hf' h Hh) as (Hal' & _ & Hoth' & Hin' & Hout').
  apply (heap_ext rows cols p); [done..| |].
  - intros q Hq. by rewrite Hoth, Hoth'.
  - intros i j. destruct (Hdec i j) as [Hw|Hw].
    + by rewrite Hin, Hin'.
    + by rewrite Hout, Hout'.
Qed.

End PassOrder.

Section EdgeOrder.
Context `{Sc : Scalar}.
Variable cfg : Config.
Variables (p1 p0 : nat).
Hypothesis Hp10 : p1 ≠ p0.
Hypothesis HNx : 3 ≤ Nx cfg.
Hypothesis HNy : 3 ≤ Ny cfg.

(** The four edge loops, each with the cells it assigns. *)
Definition edge_loops : list ((nat → nat → Prop) * (heap → heap)) :=
  [(left_cell cfg, left_nodes cfg p1 p0);
   (right_cell cfg, right_nodes cfg p1 p0);
   (top_cell cfg, top_nodes cfg p1 p0);
   (bottom_cell cfg, bottom_nodes cfg p1 p0)].

Ltac cells :=
  unfold edge_cell, left_cell, right_cell, top_cell, bottom_cell in *.

Ltac members :=
  repeat match goal with
         | H : _ ∈ _ :: _ |- _ => apply elem_of_cons in H as [->|H]
         | H : _ ∈ [] |- _ => by apply elem_of_nil in H
         end.

Lemma edge_loops_cells a i j : a ∈ edge_loops → a.1 i j → edge_cell cfg i j.
Proof.
  unfold edge_loops. intros Ha. members; simpl; cells; tauto.
Qed.

Lemma edge_loops_disjoint a b i j :
  a ∈ edge_loops → b ∈ edge_loops → a ≠ b → a.1 i j → b.1 i j → False.
Proof.
  unfold edge_loops. intros Ha Hb Hne. members; simpl;
    try (exfalso; by apply Hne); cells; lia.
Qed.

Lemma edge_loops_NoDup : NoDup edge_loops.
Proof.
  assert (left_cell cfg 0 1) as HL by (cells; lia).
  assert (right_cell cfg (Nx cfg - 1) 1) as HR by (cells; lia).
  assert (top_cell cfg 1 (Ny cfg - 1)) as HT by (cells; lia).
  assert (∀ W W' : nat → nat → Prop, ∀ i j, W i j → ¬ W' i j →
    ∀ f f' : heap → heap, (W, f) ≠ (W', f')) as Hdiff.
  { intros W W' i j Hw Hnw f f' [= -> _]. done. }
  unfold edge_loops. repeat constructor;
    rewrite ?elem_of_cons, ?elem_of_nil; intros Hin;
    repeat destruct Hin as [Hin|Hin]; try done; revert Hin.
  - apply (Hdiff _ _ 0 1 HL). cells. lia.
  - apply (Hdiff _ _ 0 1 HL). cells. lia.
  - apply (Hdiff _ _ 0 1 HL). cells. lia.
  - apply (Hdiff _ _ _ _ HR). cells. lia.
  - apply (Hdiff _ _ _ _ HR). cells. lia.
  - apply (Hdiff _ _ _ _ HT). cells. lia.
Qed.

Lemma edge_loops_write a :
  a ∈ edge_loops →
  writes (Nx cfg) (Ny cfg) p1 a.1 (edge_value cfg p1 p0) a.2.
Proof.
  assert (p1 ≠ S p1) as Hm by lia.
  unfold edge_loops. intros Ha. members; simpl.
  - eapply writes_ext; [|apply (writes_left_nodes cfg p1 p0 _ Hp10 Hm); lia].
    intros h i j Hc. unfold edge_value. by rewrite decide_True.
  - eapply writes_ext; [|apply (writes_right_nodes cfg p1 p0 _ Hp10 Hm); lia].
    intros h i j Hc. unfold edge_value.
    rewrite decide_False by (cells; lia). by rewrite decide_True.
  - eapply writes_ext; [|apply (writes_top_nodes cfg p1 p0 _ Hp10 Hm); lia].
    intros h i j Hc. unfold edge_value.
    rewrite !decide_False by (cells; lia). by rewrite decide_True.
  - eapply writes_ext; [|apply (writes_bottom_nodes cfg p1 p0 _ Hp10 Hm); lia].
    intros h i j Hc. unfold edge_value.
    by rewrite !decide_False by (cells; lia).
Qed.

(** X6. The four edge loops can run in any order: on a grid with an
    interior, whatever permutation of the left, right, top and bottom
    loops is run, the heap they leave is the one the order of the source
    leaves. *)
Theorem edge_loops_any_order (fs : list (heap → heap)) (h : heap) :
  allocated (Nx cfg) (Ny cfg) p1 h →
  fs ≡ₚ [left_nodes cfg p1 p0; right_nodes cfg p1 p0;
         top_nodes cfg p1 p0; bottom_nodes cfg p1 p0] →
  run_passes fs h = edge_nodes cfg p1 p0 h.
Proof.
  intros Hal Hperm.
  change [left_nodes cfg p1 p0; right_nodes cfg p1 p0;
          top_nodes cfg p1 p0; bottom_nodes cfg p1 p0]
    with (map snd edge_loops) in Hperm.
  apply Permutation_map_inv in Hperm as (ps & -> & Hps).
  assert (p1 ≠ S p1) as Hm by lia.
  apply (writes_determined (Nx cfg) (Ny cfg) p1 (edge_cell cfg)
    (edge_value cfg p1 p0)); [| |done|].
  - eapply writes_iff; cycle 1.
    + apply writes_run_passes.
      * rewrite <- Hps. apply edge_loops_NoDup.
      * intros a b Ha Hb. rewrite <- Hps in Ha, Hb.
        intros Hne i j. by apply edge_loops_disjoint.
      * intros a Ha. rewrite <- Hps in Ha. by apply edge_loops_write.
      * apply (edge_value_stable cfg p1 p0 _ Hp10 Hm HNx HNy).
        intros i j (a & Ha & Hw). rewrite <- Hps in Ha.
        by eapply edge_loops_cells.
    + intros i j. split.
      * intros (a & Ha & Hw). rewrite <- Hps in Ha. by eapply edge_loops_cells.
      * intros Hc.
        assert (∀ a, a ∈ edge_loops → a.1 i j → ∃ a, a ∈ ps ∧ a.1 i j) as Hex.
        { intros a Ha Hw. exists a. by rewrite <- Hps. }
        unfold edge_loops in Hex.
        destruct Hc as [Hc|[Hc|[Hc|Hc]]].
        -- apply (Hex (left_cell cfg, left_nodes cfg p1 p0)); [|done].
           repeat constructor.
        -- apply (Hex (right_cell cfg, right_nodes cfg p1 p0)); [|done].
           repeat constructor.
        -- apply (Hex (top_cell cfg, top_nodes cfg p1 p0)); [|done].
           repeat constructor.
        -- apply (Hex (bottom_cell cfg, bottom_nodes cfg p1 p0)); [|done].
           repeat constructor.
  - apply (writes_edge_nodes cfg p1 p0 _ Hp10 Hm HNx HNy).
  - intros i j. destruct (decide (left_cell cfg i j)); [left; by left|].
    destruct (decide (right_cell cfg i j)); [left; right; by left|].
    destruct (decide (top_cell cfg i j)); [left; right; right; by left|].
    assert (Decision (bottom_cell cfg i j)) as [?|?]
      by (unfold bottom_cell; apply _).
    + left. right. right. by right.
    + right. unfold edge_cell. tauto.
Qed.

End EdgeOrder.

Lemma edge_loops_any_order_wave_sim :
  let st := run wave_sim 1 in
  run_passes
    [bottom_nodes wave_sim (Un_p1 st) (Un0 st);
     top_nodes wave_sim (Un_p1 st) (Un0 st);
     right_nodes wave_sim (Un_p1 st) (Un0 st);
     left_nodes wave_sim (Un_p1 st) (Un0 st)] (mem st)
  = edge_nodes wave_sim (Un_p1 st) (Un0 st) (mem st).
Proof.
  intros st.
  pose proof (run_wf wave_sim 1) as Hwf.
  destruct (wf_allocated wave_sim _ Hwf) as (Hal & _).
  destruct Hwf as (H10 & _).
  assert (3 ≤ Nx wave_sim) as HNx by (simpl; lia).
  assert (3 ≤ Ny wave_sim) as HNy by (simpl; lia).
  refine (edge_loops_any_order wave_sim (Un_p1 st) (Un0 st) H10 HNx HNy
    _ (mem st) Hal _).
  symmetry. apply (Permutation_rev
    [left_nodes wave_sim (Un_p1 st) (Un0 st);
     right_nodes wave_sim (Un_p1 st) (Un0 st);
     top_nodes wave_sim (Un_p1 st) (Un0 st);
     bottom_nodes wave_sim (Un_p1 st) (Un0 st)]).
Defined.

(** * A source on the rim of the grid *)

Section RimSource.
Context `{Sc : Scalar} `{ZA : !ZeroArith Sc}.
Variable cfg : Config.
Hypothesis HNx : 3 ≤ Nx cfg.
Hypothesis HNy : 3 ≤ Ny cfg.
Hypothesis Hxs : xs1 cfg < Nx cfg.
Hypothesis Hys : ys1 cfg < Ny cfg.
Hypothesis Hrim : ¬ (0 < xs1 cfg < Nx cfg - 1 ∧ 0 < ys1 cfg < Ny cfg - 1).
Hypothesis Hfs : finite_stencil cfg.
Hypothesis Hfe : finite_edges cfg.

Ltac cells :=
  unfold edge_cell, left_cell, right_cell, top_cell, bottom_cell,
    interior_cell, corner_cell in *.

(** The edge loops and the corner assignments overwrite the source value,
    whatever it is: a full step keeps all-zero levels all zero. *)
Lemma rim_loop_body n st :
  wf_state cfg st → levels_zero st → levels_zero (loop_body cfg n st).
Proof.
  intros Hwf Hz.
  destruct (passes_allocated cfg n st Hwf) as (HalI & HalS & HalE).
  destruct (Hwf) as (H10 & H1m & H0m & _).
  destruct Hfe as [Hrx Hry].
  set (A := λ q, q = Un_p1 st ∨ q = Un0 st ∨ q = Un_m1 st).
  assert (zero_on A (mem (after_interior cfg st))) as HzI.
  { apply zero_on_interior_nodes;
      [done|by right; left|by right; right|exact Hz]. }
  destruct (writes_source_node cfg (Un_p1 st) n Hxs Hys _ HalI)
    as (_ & _ & HothS & _ & HoutS).
  destruct (writes_edge_nodes cfg _ _ _ H10 H1m HNx HNy _ HalS)
    as (_ & _ & HothE & HinE & HoutE).
  destruct (writes_corner_nodes cfg _ _ _ H10 H1m HNx HNy _ HalE)
    as (_ & _ & HothC & HinC & HoutC).
  change (source_node cfg n (Un_p1 st) (mem (after_interior cfg st)))
    with (mem (after_source cfg n st)) in *.
  change (edge_nodes cfg (Un_p1 st) (Un0 st) (mem (after_source cfg n st)))
    with (mem (after_edges cfg n st)) in *.
  change (corner_nodes cfg (Un_p1 st) (mem (after_edges cfg n st)))
    with (mem (after_corners cfg n st)) in *.
  assert (∀ i j, (i, j) ≠ (xs1 cfg, ys1 cfg) →
    fzero (load (mem (after_source cfg n st)) (Un_p1 st) i j)) as HS1.
  { intros i j Hne. rewrite HoutS by (intros [-> ->]; done).
    apply HzI. by left. }
  assert (∀ i j, fzero (load (mem (after_source cfg n st)) (Un0 st) i j))
    as HS0.
  { intros i j. rewrite (load_lookup (mem (after_interior cfg st)))
      by (apply HothS; done).
    apply HzI. right. by left. }
  assert (∀ i j, interior_cell cfg i j →
    fzero (load (mem (after_source cfg n st)) (Un_p1 st) i j)) as HSint.
  { intros i j Hc. apply HS1. intros [= -> ->]. apply Hrim. cells. lia. }
  assert (∀ i j, edge_cell cfg i j →
    fzero (load (mem (after_edges cfg n st)) (Un_p1 st) i j)) as HE.
  { intros i j Hc. rewrite HinE by done. unfold edge_value.
    repeat case_decide;
      unfold left_value, right_value, top_value, bottom_value;
      (apply edge_form_zero; [done|apply HS0|apply HSint; cells; lia|apply HS0]). }
  assert (∀ i j, ¬ corner_cell cfg i j →
    fzero (load (mem (after_edges cfg n st)) (Un_p1 st) i j)) as HEnc.
  { intros i j Hnc.
    destruct (decide (edge_cell cfg i j)) as [Hc|Hne]; [by apply HE|].
    rewrite HoutE by done. apply HS1. intros [= -> ->].
    cells. lia. }
  assert (∀ i j,
    fzero (load (mem (after_corners cfg n st)) (Un_p1 st) i j)) as HC.
  { intros i j.
    destruct (decide (corner_cell cfg i j)) as [Hc|Hnc];
      [|rewrite HoutC by done; by apply HEnc].
    rewrite HinC by done. unfold corner_value.
    repeat case_decide; apply corner_form_zero; apply HEnc; cells; lia. }
  intros q i j Hq. simpl in Hq. simpl.
  change (corner_nodes cfg (Un_p1 st) (edge_nodes cfg (Un_p1 st) (Un0 st)
    (source_node cfg n (Un_p1 st)
      (interior_nodes cfg (Un_p1 st) (Un0 st) (Un_m1 st) (mem st)))))
    with (mem (after_corners cfg n st)).
  destruct (decide (q = Un_p1 st)) as [->|Hne]; [apply HC|].
  rewrite (load_lookup (mem st))
    by (by apply (passes_frame cfg n st)).
  apply Hz. tauto.
Qed.

(** X12. A source placed on the rim of the grid (on an edge or at a
    corner, on the grid) never enters the field: the edge loops or the
    corner assignments of the same step overwrite it before anything reads
    it.  So with finite coefficients every level, at every step, is zero
    at every node, whatever the source term evaluates to. *)
Theorem rim_source_is_discarded (k i j : nat) :
  let st := run cfg k in
  fzero (level cfg k i j) ∧
  fzero (current st i j) ∧ fzero (previous st i j).
Proof.
  intros st.
  assert (∀ m, levels_zero (run cfg m)) as Hrun.
  { induction m as [|m IH]; [apply startup_levels_zero|].
    rewrite run_succ. apply rim_loop_body; [apply run_wf|done]. }
  split_and!.
  - rewrite <- current_succ. apply (Hrun (S k)). right. by left.
  - apply (Hrun k). right. by left.
  - apply (Hrun k). right. by right.
Qed.

End RimSource.

Lemma rim_source_is_discarded_on_edge :
  level source_on_edge 3 1 50 = 0%R.
Proof.
  assert (3 ≤ Nx source_on_edge) as HNx by (simpl; lia).
  assert (3 ≤ Ny source_on_edge) as HNy by (simpl; lia).
  assert (xs1 source_on_edge < Nx source_on_edge) as Hxs by (simpl; lia).
  assert (ys1 source_on_edge < Ny source_on_edge) as Hys by (simpl; lia).
  assert (¬ (0 < xs1 source_on_edge < Nx source_on_edge - 1 ∧
             0 < ys1 source_on_edge < Ny source_on_edge - 1)) as Hrim
    by (simpl; lia).
  assert (@finite_stencil R_scalar R_zero source_on_edge) as Hfs by (by split).
  assert (@finite_edges R_scalar R_zero source_on_edge) as Hfe by (by split).
  exact (proj1 (rim_source_is_discarded source_on_edge HNx HNy Hxs Hys Hrim
    Hfs Hfe 3 1 50)).
Defined.

(** * Rendering: [getColor] and [printWave] *)

(** The operations of [double] that only the rendering uses. *)
Class Rendering (Sc : Scalar) := {
  f005 : double;                       (* the literal 0.05 *)
  f2 : double;                         (* the literal 2.0 *)
  fabs : double → double;              (* fabs(x) *)
  flt : double → double → bool;        (* x < y *)
  to_int_trunc : double → Z            (* (int) x *)
}.

(** The characters the text is counted by. *)
Definition star : Ascii.ascii := Ascii.ascii_of_nat 42.
Definition newline : Ascii.ascii := Ascii.ascii_of_nat 10.
Definition escape : Ascii.ascii := Ascii.ascii_of_nat 27.

(** The escape character, and the colour and terminal macros. *)
Definition ESC : string := String escape "".
Definition LF : string := String newline "".

Definition COLOR_BUFFER_SIZE : nat := 10.
Definition RESET : string := ESC +:+ "[0m".
Definition CURSOR : string := ESC +:+ "[H".
Definition RED : string := ESC +:+ "[0;31m".
Definition GREEN : string := ESC +:+ "[0;32m".
Definition YELLOW : string := ESC +:+ "[0;33m".
Definition BLUE : string := ESC +:+ "[0;34m".
Definition MAGNETA : string := ESC +:+ "[0;35m".
Definition CYAN : string := ESC +:+ "[0;36m".
Definition WHITE : string := ESC +:+ "[0;37".
Definition BLACK : string := ESC +:+ "[0;30m".

(** [snprintf(buf, size, fmt)] for a format without conversions: what
    [buf] holds afterwards, at most [size - 1] characters of [fmt]. *)
Definition snprintf (size : nat) (fmt : string) : string :=
  String.substring 0 (size - 1) fmt.

(** How often a character occurs in a text. *)
Fixpoint count_char (a : Ascii.ascii) (s : string) : nat :=
  match s with
  | EmptyString => 0
  | String b s' => (if Ascii.eqb b a then 1 else 0) + count_char a s'
  end.

Section Render.
Context `{Sc : Scalar} `{Rd : !Rendering Sc}.

Local Open Scope double_scope.

(** [getColor]: the text left in the colour buffer. *)
Definition getColor (value : double) : string :=
  let blackThreshold := f005 in
  if flt (fabs value) blackThreshold then snprintf 10 BLACK
  else
    let norm := (value + f1) / f2 in
    let colorIndex := to_int_trunc (norm * of_int 7) in
    match colorIndex with
    | 0%Z => snprintf COLOR_BUFFER_SIZE RED
    | 1%Z => snprintf COLOR_BUFFER_SIZE GREEN
    | 2%Z => snprintf COLOR_BUFFER_SIZE YELLOW
    | 3%Z => snprintf COLOR_BUFFER_SIZE BLUE
    | 4%Z => snprintf COLOR_BUFFER_SIZE MAGNETA
    | 5%Z => snprintf COLOR_BUFFER_SIZE CYAN
    | 6%Z => snprintf COLOR_BUFFER_SIZE WHITE
    | _ => snprintf COLOR_BUFFER_SIZE BLACK
    end.

(** [printWave]: the text written to the terminal for one frame.  (The
    pause after the frame is not part of the text.) *)
Definition printWave_text (array : grid) (rows cols : nat) : string :=
  let out := CURSOR in
  for_loop 0 rows (λ i out,
    let out :=
      for_loop 0 cols (λ j out,
        let value := get array i j in
        let color := getColor value in
        out +:+ color +:+ "* " +:+ RESET) out in
    out +:+ LF) out.

(** Everything [main] writes to the terminal: the frames in order. *)
Definition main_text (cfg : Config) : string :=
  fold_left (λ out frame, out +:+ printWave_text frame (Nx cfg) (Ny cfg))
    (snd (fst (main cfg))) "".

End Render.

(** The eight colour sequences [getColor] chooses from. *)
Definition palette : list string :=
  [RED; GREEN; YELLOW; BLUE; MAGNETA; CYAN; WHITE; BLACK].

Section RenderFacts.
Context `{Sc : Scalar} `{Rd : !Rendering Sc}.

Lemma snprintf_fits (size : nat) (fmt : string) :
  String.length fmt < size → snprintf size fmt = fmt.
Proof.
  unfold snprintf. intros H.
  assert (String.length fmt ≤ size - 1) as H' by lia. clear H.
  revert H'. generalize (size - 1). clear size.
  induction fmt as [|a s IH]; intros [|n] H; simpl in *; try lia; try done.
  f_equal. apply IH. lia.
Qed.

Lemma snprintf_length (size : nat) (fmt : string) :
  0 < size → String.length (snprintf size fmt) < size.
Proof.
  unfold snprintf. intros H.
  assert (∀ n s, String.length (String.substring 0 n s) ≤ n) as Hlen.
  { clear. intros n. induction n as [|n IH]; intros [|a s]; simpl; try lia.
    specialize (IH s). lia. }
  specialize (Hlen (size - 1) fmt). lia.
Qed.

Lemma palette_fits (s : string) :
  s ∈ palette → snprintf COLOR_BUFFER_SIZE s = s.
Proof.
  unfold palette. intros H.
  repeat (apply elem_of_cons in H as [->|H]; [reflexivity|]).
  by apply elem_of_nil in H.
Qed.

Lemma getColor_palette (value : double) : getColor value ∈ palette.
Proof.
  assert (∀ s, s ∈ palette → snprintf COLOR_BUFFER_SIZE s ∈ palette) as Hs.
  { intros s Hs. by rewrite palette_fits. }
  assert (∀ s, s ∈ palette → snprintf 10 s ∈ palette) as Hs' by exact Hs.
  unfold getColor. cbv zeta.
  destruct (flt (fabs value) f005);
    [apply Hs'; unfold palette; repeat constructor|].
  destruct (to_int_trunc _) as [|p|p]; lazy iota beta;
    repeat (match goal with
            | |- context [match ?p with xH => _ | _ => _ end] =>
                destruct p; lazy iota beta
            end);
    apply Hs; unfold palette; repeat constructor.
Qed.

Lemma count_char_app (a : Ascii.ascii) (s t : string) :
  count_char a (s +:+ t) = count_char a s + count_char a t.
Proof. induction s as [|b s IH]; simpl; [done|]. rewrite IH. lia. Qed.

Lemma for_loop_count (a : Ascii.ascii) (m lo hi : nat)
    (body : nat → string → string) (out : string) :
  lo ≤ hi →
  (∀ k t, lo ≤ k < hi → count_char a (body k t) = count_char a t + m) →
  count_char a (for_loop lo hi body out) = count_char a out + (hi - lo) * m.
Proof.
  intros Hle Hbody.
  apply (for_loop_invariant
    (λ k t, count_char a t = count_char a out + (k - lo) * m));
    [done|lia|].
  intros k t Hk IH. rewrite Hbody, IH by done.
  replace (S k - lo) with (S (k - lo)) by lia. lia.
Qed.

Lemma palette_count (s : string) :
  s ∈ palette →
  count_char star s = 0 ∧ count_char newline s = 0 ∧
  count_char escape s = 1.
Proof.
  unfold palette. intros H.
  repeat (apply elem_of_cons in H as [->|H]; [by vm_compute|]).
  by apply elem_of_nil in H.
Qed.

Lemma printWave_text_count (a : Ascii.ascii) (m : nat)
    (array : grid) (rows cols : nat) :
  (∀ s, s ∈ palette → count_char a (s +:+ "* " +:+ RESET) = m) →
  count_char a (printWave_text array rows cols)
  = count_char a CURSOR + rows * (cols * m + count_char a LF).
Proof.
  intros Hcell. unfold printWave_text. cbv zeta.
  rewrite (for_loop_count a (cols * m + count_char a LF)); [|lia|].
  { by rewrite Nat.sub_0_r. }
  intros i t _. rewrite count_char_app.
  rewrite (for_loop_count a m); [|lia|].
  { rewrite Nat.sub_0_r. lia. }
  intros j u _. rewrite count_char_app, Hcell; [done|].
  apply getColor_palette.
Qed.

Lemma cell_count (s : string) :
  s ∈ palette →
  count_char star (s +:+ "* " +:+ RESET) = 1 ∧
  count_char newline (s +:+ "* " +:+ RESET) = 0 ∧
  count_char escape (s +:+ "* " +:+ RESET) = 2.
Proof.
  intros Hs. destruct (palette_count s Hs) as (H1 & H2 & H3).
  rewrite !count_char_app, H1, H2, H3. by vm_compute.
Qed.

Lemma main_text_count (a : Ascii.ascii) (m : nat) (cfg : Config) :
  (∀ g, count_char a (printWave_text g (Nx cfg) (Ny cfg)) = m) →
  count_char a (main_text cfg) = n_stop cfg * m.
Proof.
  intros Hm. unfold main_text.
  assert (∀ fs out,
    count_char a (fold_left
      (λ out frame, out +:+ printWave_text frame (Nx cfg) (Ny cfg)) fs out)
    = count_char a out + length fs * m) as Hfold.
  { induction fs as [|g fs IH]; intros out; simpl; [lia|].
    rewrite IH, count_char_app, Hm. lia. }
  rewrite Hfold. simpl count_char.
  replace (snd (fst (main cfg))) with (frames (run cfg (n_stop cfg)))
    by reflexivity.
  by rewrite run_frames_length.
Qed.

(** X13.  Whatever the value and whatever the arithmetic, the text
    [getColor] leaves in the colour buffer is one of the eight colour
    sequences in full: the ten-character buffer never truncates one, since
    each has at most seven characters. *)
Theorem getColor_never_truncates (value : double) :
  getColor value ∈ palette ∧
  String.length (getColor value) + 3 ≤ COLOR_BUFFER_SIZE.
Proof.
  split; [apply getColor_palette|].
  pose proof (getColor_palette value) as H. revert H.
  generalize (getColor value). intros s. unfold palette. intros H.
  repeat (apply elem_of_cons in H as [->|H]; [vm_compute; lia|]).
  by apply elem_of_nil in H.
Qed.

(** X14.  One frame of [printWave], whatever the grid holds: the text has
    one star per node ([rows * cols]), one line feed per row, and
    [1 + 2 * rows * cols] escape characters (the cursor sequence once, a
    colour sequence and a reset per node). *)
Theorem printWave_text_shape (array : grid) (rows cols : nat) :
  count_char star (printWave_text array rows cols) = rows * cols ∧
  count_char newline (printWave_text array rows cols) = rows ∧
  count_char escape (printWave_text array rows cols)
  = 1 + 2 * rows * cols.
Proof.
  split_and!.
  - rewrite (printWave_text_count _ 1) by (intros s Hs; apply (cell_count s Hs)).
    simpl count_char. lia.
  - rewrite (printWave_text_count _ 0) by (intros s Hs; apply (cell_count s Hs)).
    simpl count_char. lia.
  - rewrite (printWave_text_count _ 2) by (intros s Hs; apply (cell_count s Hs)).
    simpl count_char. lia.
Qed.

(** X15.  The whole output of [main]: [n_stop] frames, so
    [n_stop * Nx * Ny] stars and [n_stop * Nx] line feeds, for every
    configuration and every arithmetic. *)
Theorem main_text_shape (cfg : Config) :
  count_char star (main_text cfg) = n_stop cfg * (Nx cfg * Ny cfg) ∧
  count_char newline (main_text cfg) = n_stop cfg * Nx cfg.
Proof.
  split.
  - apply main_text_count. intros g.
    rewrite (printWave_text_count _ 1) by (intros s Hs; apply (cell_count s Hs)).
    simpl count_char. lia.
  - apply main_text_count. intros g.
    rewrite (printWave_text_count _ 0) by (intros s Hs; apply (cell_count s Hs)).
    simpl count_char. lia.
Qed.

End RenderFacts.

(** ** Rendering in binary64 *)

Section Binary64Rendering.
Import Floats.

Variables (libm_exp libm_sin : float → float) (libm_pow : float → float → float).
Variable garbage : float.

Let b64 : Scalar := binary64 libm_exp libm_sin libm_pow garbage.

Definition binary64_rendering : Rendering b64 :=
  Build_Rendering b64 0.05%float 2%float PrimFloat.abs PrimFloat.ltb
    double_to_int.

Let getColor64 : float → string := @getColor b64 binary64_rendering.

(** The colour of some finite values: near zero and at 1.0 black, the
    seven colours in between. *)
Example getColor_binary64 :
  map getColor64
    [(-1)%float; (-0.5)%float; (-0.3)%float; (-0.04)%float; 0%float;
     0.1%float; 0.3%float; 0.5%float; 0.8%float; 1%float]
  = [RED; GREEN; YELLOW; BLACK; BLACK; BLUE; MAGNETA; CYAN; WHITE; BLACK].
Proof. vm_compute. reflexivity. Qed.

(** The largest double below 1.0: adding 1.0 rounds to 2.0, the index is
    7 and the colour is that of the default case. *)
Example getColor_below_one :
  getColor64 0x1.fffffffffffffp-1%float = BLACK.
Proof. vm_compute. reflexivity. Qed.

(** A frame of one row and two nodes. *)
Example printWave_text_binary64 :
  @printWave_text b64 binary64_rendering [[0%float; 0.8%float]] 1 2
  = CURSOR +:+ BLACK +:+ "* " +:+ RESET +:+ WHITE +:+ "* " +:+ RESET +:+ LF.
Proof. vm_compute. reflexivity. Qed.

End Binary64Rendering.
